(** * webpack-qiniu-cdn-plugin: version log, diff and expiry engine

    A shallow embedding of [src/VersionLog.js], of the pure parts of
    [src/QiniuCDNPlugin.js] and [src/QiniuHelper.js] and of the helpers
    of [src/utils.js] they call, followed by the properties of the
    specification that were checked against them.

    Conventions of the embedding:
    - JavaScript numbers that hold timestamps, durations and version
      counts are integers ([Z]); array indices are [nat];
    - an optional argument ([undefined] or a value) is an [option];
    - strings are [string], compared with [===] by [String.eqb];
    - a buffer is a [list byte];
    - a thrown [TypeError] is an explicit error result. *)

From Stdlib Require Import ZArith List String Ascii Bool Lia.
From Stdlib Require Import Sorting.Permutation Sorting.Sorted.
From stdpp Require Import base option list gmap strings.
From Equations Require Import Equations.
Import ListNotations.

Local Open Scope list_scope.
Local Open Scope Z_scope.

(** ** Data model (the typedefs at the head of VersionLog.js) *)

Record LogDetail := mkLogDetail {
  filename : string;
  hash : string
}.

Record LogRecord := mkLogRecord {
  timestamp : Z;
  upload : list LogDetail;
  omit : list LogDetail
}.

(** [VersionData], the result of [findVersion]. *)
Record VersionData := mkVersionData {
  versionIndex : nat;
  vd_timestamp : Z
}.

(** [typeof x === 'number'] on an optional number. *)
Definition isNumber (x : option Z) : bool :=
  match x with Some _ => true | None => false end.

(** Truthiness of an optional string: [undefined] and [''] are falsy. *)
Definition truthy (x : option string) : bool :=
  match x with
  | Some s => negb (String.eqb s EmptyString)
  | None => false
  end.

(** [x === s] for an optional string [x] and a string [s]. *)
Definition strictEqOpt (x : option string) (s : string) : bool :=
  match x with
  | Some s' => String.eqb s' s
  | None => false
  end.

(** ** [Array.prototype.sort]

    The built-in is stable and, for a consistent comparator, leaves the
    array ordered by it; that determines its result, which is computed
    here by a stable insertion sort. [compareFn a b <= 0] keeps [a]
    before [b]. *)

Section ArraySort.
Context {A : Type} (compareFn : A -> A -> Z).

Fixpoint sort_insert (x : A) (l : list A) : list A :=
  match l with
  | [] => [x]
  | y :: l' =>
      if compareFn x y <=? 0 then x :: y :: l'
      else y :: sort_insert x l'
  end.

Fixpoint array_sort (l : list A) : list A :=
  match l with
  | [] => []
  | x :: l' => sort_insert x (array_sort l')
  end.
End ArraySort.

Module VersionLog.

(** The methods below are given on the contents of [this.record]; the
    object, its array and their aliasing are modelled in [Heap]. *)

(** The comparator that [init] gives to [sort]:
    [(a, b) => b.timestamp - a.timestamp]. *)
Definition compareFn (a b : LogRecord) : Z := timestamp b - timestamp a.

(** [init]: [this.record = content.slice().sort(compareFn)]. On the
    contents, the copy made by [slice] is the list itself. *)
Definition init (content : list LogRecord) : list LogRecord :=
  array_sort compareFn content.

(** [append]: [this.record.unshift(log)]. *)
Definition append (record : list LogRecord) (log : LogRecord) : list LogRecord :=
  log :: record.

(** The test of the inner loop of [findVersion] on [targetFile]:
    [(!hash || hash === targetFile.hash) && filename === targetFile.filename].
    [!hash] holds for [undefined] and for the empty string. *)
Definition fileTest (filename_ : string) (hash_ : option string)
    (targetFile : LogDetail) : bool :=
  (negb (truthy hash_) || strictEqOpt hash_ (hash targetFile))
  && String.eqb filename_ (filename targetFile).

(** The inner loop over [files = [...upload, ...omit]]: [true] when it
    reaches the [return]. *)
Fixpoint filesLoop (filename_ : string) (hash_ : option string)
    (files : list LogDetail) : bool :=
  match files with
  | [] => false
  | targetFile :: files' =>
      if fileTest filename_ hash_ targetFile then true
      else filesLoop filename_ hash_ files'
  end.

(** The outer loop, entered at index [i] with [rest] the snapshots
    from [i] on. *)
Fixpoint findLoop (filename_ : string) (hash_ : option string)
    (rest : list LogRecord) (i : nat) : option VersionData :=
  match rest with
  | [] => None
  | r :: rest' =>
      if filesLoop filename_ hash_ (upload r ++ omit r)
      then Some (mkVersionData i (timestamp r))
      else findLoop filename_ hash_ rest' (S i)
  end.

(** [findVersion(filename, hash, startIndex = 0)]. *)
Definition findVersion (record : list LogRecord) (filename_ : string)
    (hash_ : option string) (startIndex : option nat) : option VersionData :=
  let i := default 0%nat startIndex in
  findLoop filename_ hash_ (drop i record) i.

(** [getLastVersion]: [this.record[0]], [undefined] on an empty log. *)
Definition getLastVersion (record : list LogRecord) : option LogRecord :=
  nth_error record 0.

(** The [if] of [getFirstExpireVersionIndex], for the snapshot at
    index [i] with timestamp [ts]. *)
Definition expireTest (maxiumVersion deadline : option Z)
    (i : nat) (ts : Z) : bool :=
  let deadlineDefined := isNumber deadline in
  let versionDefined := isNumber maxiumVersion in
  let timeExpire :=
    deadlineDefined && from_option (fun d => ts <? d) false deadline in
  let versionExpire :=
    versionDefined && from_option (fun m => Z.of_nat i >? m) false maxiumVersion in
  (timeExpire && versionExpire)
  || (negb deadlineDefined && versionExpire)
  || (negb versionDefined && timeExpire).

(** The [for] loop of [getFirstExpireVersionIndex], entered at index
    [i] with [rest] the snapshots from [i] on: it leaves with [i] at
    the first snapshot that passes the test, or at the end. *)
Fixpoint expireLoop (maxiumVersion deadline : option Z)
    (rest : list LogRecord) (i : nat) : nat :=
  match rest with
  | [] => i
  | r :: rest' =>
      if expireTest maxiumVersion deadline i (timestamp r) then i
      else expireLoop maxiumVersion deadline rest' (S i)
  end.

Definition getFirstExpireVersionIndex (record : list LogRecord)
    (maxiumVersion deadline : option Z) : nat :=
  expireLoop maxiumVersion deadline record 0.

(** [Array.prototype.slice(start, end)] for indices in [nat]. *)
Definition slice {A} (l : list A) (startIndex : nat) (endIndex : option nat) : list A :=
  match endIndex with
  | Some e => drop startIndex (take e l)
  | None => drop startIndex l
  end.

Definition getFreshVersions (record : list LogRecord)
    (maxiumVersion deadline : option Z) : list LogRecord :=
  let expireIndex := getFirstExpireVersionIndex record maxiumVersion deadline in
  slice record 0 (Some expireIndex).

Definition getVersions (record : list LogRecord)
    (startIndex : nat) (endIndex : option nat) : list LogRecord :=
  slice record startIndex endIndex.

End VersionLog.

(** ** The [VersionLog] object and the arrays it shares

    Arrays are objects: [arrays] maps a reference to the contents of the
    array it names, and [this_record] is the reference held in
    [this.record]. A caller that keeps a reference sees every later
    write through it. Snapshots are not written to by any method and are
    kept as values. *)

Module Heap.

Abbreviation loc := positive.

Record State := mkState {
  arrays : gmap loc (list LogRecord);
  this_record : loc
}.

(** [arr.slice(start, end)]: a new array. *)
Definition array_slice (arr : loc) (startIndex : nat) (endIndex : option nat)
    (st : State) : loc * State :=
  let fresh_ref := fresh (dom (arrays st)) in
  (fresh_ref,
   mkState
     (<[fresh_ref := VersionLog.slice (arrays st !!! arr) startIndex endIndex]>
        (arrays st))
     (this_record st)).

(** [arr.sort(compareFn)]: sorts [arr] in place and returns it. *)
Definition array_sort_in_place (arr : loc) (compareFn : LogRecord -> LogRecord -> Z)
    (st : State) : loc * State :=
  (arr,
   mkState (<[arr := array_sort compareFn (arrays st !!! arr)]> (arrays st))
     (this_record st)).

(** [arr.unshift(x)]. *)
Definition array_unshift (arr : loc) (x : LogRecord) (st : State) : State :=
  mkState (<[arr := x :: (arrays st !!! arr)]> (arrays st)) (this_record st).

(** [this.record], read. *)
Definition record (st : State) : list LogRecord :=
  arrays st !!! this_record st.

Definition init (content : loc) (st : State) : State :=
  let '(copy, st1) := array_slice content 0 None st in
  let '(sorted, st2) := array_sort_in_place copy VersionLog.compareFn st1 in
  mkState (arrays st2) sorted.

Definition append (log : LogRecord) (st : State) : State :=
  array_unshift (this_record st) log st.

Definition findVersion (filename_ : string) (hash_ : option string)
    (startIndex : option nat) (st : State) : option VersionData * State :=
  (VersionLog.findVersion (record st) filename_ hash_ startIndex, st).

Definition getLastVersion (st : State) : option LogRecord * State :=
  (VersionLog.getLastVersion (record st), st).

Definition getFirstExpireVersionIndex (maxiumVersion deadline : option Z)
    (st : State) : nat * State :=
  (VersionLog.getFirstExpireVersionIndex (record st) maxiumVersion deadline, st).

Definition getFreshVersions (maxiumVersion deadline : option Z)
    (st : State) : loc * State :=
  let '(expireIndex, st1) := getFirstExpireVersionIndex maxiumVersion deadline st in
  array_slice (this_record st1) 0 (Some expireIndex) st1.

Definition getVersions (startIndex : nat) (endIndex : option nat)
    (st : State) : loc * State :=
  array_slice (this_record st) startIndex endIndex st.

(** A write of any kind to the array [arr] by code outside the log. *)
Definition array_write (arr : loc) (contents : list LogRecord) (st : State) : State :=
  mkState (<[arr := contents]> (arrays st)) (this_record st).

End Heap.

(** ** Helpers of utils.js *)

Module utils.

(** [filePath2Uri]: [filepath.replace(/\\/g, '/')]. *)
Fixpoint filePath2Uri (filepath : string) : string :=
  match filepath with
  | EmptyString => EmptyString
  | String c rest =>
      String (if Ascii.eqb c "\"%char then "/"%char else c) (filePath2Uri rest)
  end.

End utils.

(** ** A small error monad for code that can throw *)

Inductive TypeError :=
| ReadTimestampOfUndefined   (* [lastVersion.timestamp] on an empty log *)
| ReadVersionIndexOfUndefined. (* [findVersion(..).versionIndex] on no result *)

Inductive Result (A : Type) :=
| Ok (a : A)
| Throw (e : TypeError).
Arguments Ok {A} a.
Arguments Throw {A} e.

#[global] Instance Result_bind : MBind Result := fun A B k m =>
  match m with
  | Ok a => k a
  | Throw e => Throw e
  end.

(** [arr.forEach((x, index) => body)], where [body] updates a state
    and can throw; [index] counts from [i]. *)
Fixpoint forEach {A St} (body : A -> nat -> St -> Result St)
    (arr : list A) (i : nat) (s : St) : Result St :=
  match arr with
  | [] => Ok s
  | x :: arr' => s' ← body x i s; forEach body arr' (S i) s'
  end.

(** ** QiniuCDNPlugin.js *)

Definition Buffer := list Byte.byte.

(** The entries of a remote listing ([File] of QiniuHelper.js). *)
Record RemoteFile := mkRemoteFile {
  name : string;
  rf_hash : string
}.

Record LocalFile := mkLocalFile {
  filePath : string;
  content : Buffer;
  lf_hash : string
}.

Record ExpireOption := mkExpireOption {
  time : option Z;
  versions : option Z
}.

(** [this.uploadStatus]. *)
Record UploadStatus := mkUploadStatus {
  us_remote : list LogDetail;
  us_exclude : list LogDetail;
  us_overwrite : list LogDetail;
  us_omit : list LogDetail;
  us_upload : list LogDetail;
  us_clean : list LogDetail
}.

(** The status the constructor creates. *)
Definition emptyStatus : UploadStatus := mkUploadStatus [] [] [] [] [] [].

(** [options.exclude]: a predicate, or a regular expression used
    through its [test]. *)
Inductive ExcludeOption :=
| ExcludeFunction (f : string -> bool)
| ExcludeRegExp (test : string -> bool).

(** The functions of Node's [path] module that the plugin calls. *)
Class PathModule := {
  path_join : string -> string -> string;
  path_relative : string -> string -> string
}.

Module QiniuCDNPlugin.
Section Plugin.
Context `{PathModule}.

(** The condition of the [filter] callback of [initUploadStatus]. *)
Definition excludeTest (exclude : ExcludeOption) (filePath_ : string) : bool :=
  match exclude with
  | ExcludeFunction f => f filePath_
  | ExcludeRegExp test => test filePath_
  end.

(** [filePaths.filter(...)]: an excluded path is pushed on
    [uploadStatus.exclude] and dropped, the others are kept. The
    result pairs the bucket with the kept paths. *)
Fixpoint excludeFilter (exclude : ExcludeOption) (filePaths : list string)
    (excludeBucket : list LogDetail) : list LogDetail * list string :=
  match filePaths with
  | [] => (excludeBucket, [])
  | filePath_ :: rest =>
      if excludeTest exclude filePath_ then
        excludeFilter exclude rest
          (excludeBucket ++
             [mkLogDetail (utils.filePath2Uri filePath_) "*EXCLUDED*"])
      else
        let '(bucket, kept) := excludeFilter exclude rest excludeBucket in
        (bucket, filePath_ :: kept)
  end.

(** The first statement of [initUploadStatus]: filter, then
    [.map(assetsKey => path.join(this.outputPath, assetsKey))]. *)
Definition filteredFilePaths (outputPath : string) (exclude : ExcludeOption)
    (filePaths : list string) (st : UploadStatus) : UploadStatus * list string :=
  let '(bucket, kept) := excludeFilter exclude filePaths (us_exclude st) in
  (mkUploadStatus (us_remote st) bucket (us_overwrite st) (us_omit st)
     (us_upload st) (us_clean st),
   map (path_join outputPath) kept).

(** [remoteFiles.find(item => item.filename === fileUri)]. *)
Fixpoint findRemote (remoteFiles : list LogDetail) (fileUri : string)
    : option LogDetail :=
  match remoteFiles with
  | [] => None
  | item :: rest =>
      if String.eqb (filename item) fileUri then Some item
      else findRemote rest fileUri
  end.

Definition fileUriOf (outputPath : string) (file : LocalFile) : string :=
  utils.filePath2Uri (path_relative outputPath (filePath file)).

(** The callback of [localFiles.forEach] in [initUploadStatus]; the
    state is [uploadStatus] and [fileSource]. *)
Definition classifyFile (outputPath : string)
    (st : UploadStatus * gmap string Buffer) (file : LocalFile)
    : UploadStatus * gmap string Buffer :=
  let '(status, fileSource) := st in
  let fileHash := lf_hash file in
  let fileUri := fileUriOf outputPath file in
  let remoteFile := findRemote (us_remote status) fileUri in
  let fileSource' := <[fileUri := content file]> fileSource in
  let logItme := mkLogDetail fileUri fileHash in
  match remoteFile with
  | Some item =>
      if String.eqb (hash item) fileHash then
        (mkUploadStatus (us_remote status) (us_exclude status)
           (us_overwrite status) (us_omit status ++ [logItme])
           (us_upload status) (us_clean status), fileSource')
      else
        (mkUploadStatus (us_remote status) (us_exclude status)
           (us_overwrite status ++ [logItme]) (us_omit status)
           (us_upload status) (us_clean status), fileSource')
  | None =>
      (mkUploadStatus (us_remote status) (us_exclude status)
         (us_overwrite status) (us_omit status)
         (us_upload status ++ [logItme]) (us_clean status), fileSource')
  end.

(** [localFiles.forEach(...)]. The reads that fill [localFiles] run
    ten at a time and finish in any order, so [localFiles] is taken
    as given. *)
Definition classifyFiles (outputPath : string) (localFiles : list LocalFile)
    (st : UploadStatus * gmap string Buffer) : UploadStatus * gmap string Buffer :=
  fold_left (classifyFile outputPath) localFiles st.

(** The status [initUploadStatus] starts from: what the constructor
    created, with [remote] set by [initCDNStatus]. *)
Definition statusWithRemote (remoteFiles : list LogDetail) : UploadStatus :=
  mkUploadStatus remoteFiles [] [] [] [] [].

(** [initUploadStatus] on a run whose reads all succeed: [localFiles]
    holds what the callbacks of [fs.readFile] pushed, in the order the
    reads finished. *)
Definition initUploadStatus (outputPath : string) (exclude : ExcludeOption)
    (filePaths : list string) (localFiles : list LocalFile)
    (st : UploadStatus * gmap string Buffer) : UploadStatus * gmap string Buffer :=
  let '(status, fileSource) := st in
  let '(status', _) := filteredFilePaths outputPath exclude filePaths status in
  classifyFiles outputPath localFiles (status', fileSource).

(** The callback of [files.forEach] in [initCleanStatus]. *)
Definition cleanFile (record : list LogRecord) (firstExpireVersionIndex : nat)
    (file : LogDetail) (_ : nat) (cleanStatus : list LogDetail)
    : Result (list LogDetail) :=
  match VersionLog.findVersion record (filename file) None None with
  | None => Throw ReadVersionIndexOfUndefined
  | Some found =>
      let fileVersionIndex := versionIndex found in
      if Nat.leb firstExpireVersionIndex fileVersionIndex
      then Ok (cleanStatus ++ [file])
      else Ok cleanStatus
  end.

(** The callback of [log.getVersions(..).forEach], for an array [arr]
    of length [arrLength]. *)
Definition cleanVersion (record : list LogRecord) (firstExpireVersionIndex : nat)
    (arrLength : nat) (version : LogRecord) (index : nat)
    (cleanStatus : list LogDetail) : Result (list LogDetail) :=
  let files :=
    upload version
    ++ (if Nat.eqb index (arrLength - 1) then omit version else []) in
  forEach (cleanFile record firstExpireVersionIndex) files 0%nat cleanStatus.

(** [initCleanStatus], on the contents of the log and
    [uploadStatus.clean]. *)
Definition initCleanStatus (record : list LogRecord) (expire : ExpireOption)
    (cleanStatus : list LogDetail) : Result (list LogDetail) :=
  let lastVersion := VersionLog.getLastVersion record in
  deadline ←
    match time expire with
    | Some expireTime =>
        match lastVersion with
        | Some v => Ok (Some (timestamp v - expireTime))
        | None => Throw ReadTimestampOfUndefined
        end
    | None => Ok None
    end;
  let firstExpireVersionIndex :=
    VersionLog.getFirstExpireVersionIndex record (versions expire) deadline in
  let arr := VersionLog.getVersions record firstExpireVersionIndex None in
  forEach (cleanVersion record firstExpireVersionIndex (length arr))
    arr 0%nat cleanStatus.

End Plugin.
End QiniuCDNPlugin.

(** *** [initCDNStatus] and its callbacks *)

Inductive Error :=
| TransportError (message : string)
| ParseRemoteLogError
| FetchRemoteLogError (statusCode : Z) (content_ : string).

Definition DEBUG_LABEL : string := "[QiniuCDNPlugin]".

(** What a run of [initCDNStatus] does that its caller can see. *)
Inductive Event :=
| Callback (error : option Error)
| ConsoleWarn (message : string).

(** The arguments [listCdnFiles] passes to its callback. *)
Inductive ListResult :=
| ListFailed (error : Error)
| Listed (files : list RemoteFile).

(** The arguments [readRemoteFile] passes to its callback. *)
Inductive ReadResult :=
| ReadFailed (readLogError : Error)
| Response (statusCode : Z) (content_ : string).

(** [arr.findIndex(p)], with [None] for [-1]. *)
Fixpoint findIndex {A} (p : A -> bool) (arr : list A) : option nat :=
  match arr with
  | [] => None
  | x :: arr' => if p x then Some 0%nat else S <$> findIndex p arr'
  end.

Module InitCDN.
Section InitCDN.
(** [JSON.parse] followed by the reading of the result as a log;
    [None] when either throws. *)
Context (JSON_parse : string -> option (list LogRecord)).

(** The callback given to [utils.readRemoteFile]; the state is the
    contents of [this.log]. Here every call of [callback] returns;
    [Throwing.readLogCallback] below has the calls that throw. *)
Definition readLogCallback (logFileUrl : string) (result : ReadResult)
    (log : list LogRecord) : list LogRecord * list Event :=
  match result with
  | ReadFailed readLogError => (log, [Callback (Some readLogError)])
  | Response statusCode content_ =>
      if (statusCode =? 200) || (statusCode =? 304) then
        match JSON_parse content_ with
        | Some records => (VersionLog.init records, [Callback None])
        | None => (log, [Callback (Some ParseRemoteLogError)])
        end
      else if statusCode =? 404 then
        (log, [ConsoleWarn (DEBUG_LABEL +:+ " log file not found("
                            +:+ logFileUrl +:+ ")")])
      else
        (log, [Callback (Some (FetchRemoteLogError statusCode content_))])
  end.

(** [initCDNStatus]: [listing] is what the remote lister answers and
    [readLog] what the fetch of a URL answers. The result is the log,
    [uploadStatus] and the events in the order they happen. As in
    [readLogCallback], every call of [callback] returns;
    [Throwing.initCDNStatus] below has the calls that throw. *)
Definition initCDNStatus (logFileName remotePathname : string)
    (listing : ListResult) (readLog : string -> ReadResult)
    (log : list LogRecord) (status : UploadStatus)
    : list LogRecord * UploadStatus * list Event :=
  match listing with
  | ListFailed error => (log, status, [Callback (Some error)])
  | Listed files =>
      let logFileIndex :=
        findIndex
          (fun item => negb (String.eqb logFileName EmptyString)
                       && String.eqb (name item) logFileName)
          files in
      let remoteFiles :=
        match logFileIndex with
        | Some i => delete i files
        | None => files
        end in
      let status' :=
        mkUploadStatus
          (map (fun item => mkLogDetail (name item) (rf_hash item)) remoteFiles)
          (us_exclude status) (us_overwrite status) (us_omit status)
          (us_upload status) (us_clean status) in
      match logFileIndex with
      | Some _ =>
          let logFileUrl := remotePathname +:+ logFileName in
          let '(log', events) :=
            readLogCallback logFileUrl (readLog logFileUrl) log in
          (log', status', events)
      | None => (log, status', [Callback None])
      end
  end.

(** The continuation [handler] gives to [initCDNStatus] goes on to
    [initUploadStatus] when it is called without an error. *)
Definition proceedsToUpload (events : list Event) : bool :=
  existsb (fun e => match e with Callback None => true | _ => false end) events.

End InitCDN.
End InitCDN.

(** ** QiniuHelper.js: the content hash *)

(** The built-ins behind [utils.hashChunk] and [toString('base64')]. *)
Class NodeBuiltins := {
  sha1_digest : Buffer -> Buffer;
  base64 : Buffer -> string
}.

Module QiniuHelper.
Section Hash.
Context `{NodeBuiltins}.

Definition BUFFER_LENGTH_OF_4M : Z := 4 * 2 ^ (10 * 2).

Definition hashChunk (buf : Buffer) : Buffer := sha1_digest buf.

(** The [while (buf.length)] loop of [hashFile], for a chunk length
    [size]; it ends because [size] is positive. *)
Section ChunkLoop.
Context (size : nat) (size_pos : (0 < size)%nat).

Equations? chunkLoop (buf : Buffer) (chunkHashes : list Buffer)
    : list Buffer by wf (length buf) lt :=
  chunkLoop [] chunkHashes := chunkHashes;
  chunkLoop (b :: buf') chunkHashes :=
    let chunk := take size (b :: buf') in
    chunkLoop (drop size (b :: buf')) (chunkHashes ++ [hashChunk chunk]).
Proof. rewrite length_drop. simpl length. lia. Qed.
End ChunkLoop.

Lemma BUFFER_LENGTH_OF_4M_pos : (0 < Z.to_nat BUFFER_LENGTH_OF_4M)%nat.
Proof.
  apply Nat2Z.inj_lt. rewrite Z2Nat.id; [reflexivity | discriminate].
Qed.

(** [.replace(/\/|\+/g, match => match === '+' ? '-' : '_')]. *)
Fixpoint urlSafe (s : string) : string :=
  match s with
  | EmptyString => EmptyString
  | String c rest =>
      String
        (if Ascii.eqb c "/"%char || Ascii.eqb c "+"%char
         then (if Ascii.eqb c "+"%char then "-"%char else "_"%char)
         else c)
        (urlSafe rest)
  end.

Definition hashFile (buf : Buffer) : string :=
  let fileHash :=
    if Z.of_nat (length buf) <=? BUFFER_LENGTH_OF_4M then
      let chunkHash := hashChunk buf in
      [Byte.x16] ++ chunkHash
    else
      let chunkHashes :=
        chunkLoop (Z.to_nat BUFFER_LENGTH_OF_4M) BUFFER_LENGTH_OF_4M_pos buf [] in
      let hashOfHash := hashChunk (concat chunkHashes) in
      [Byte.x96] ++ hashOfHash in
  urlSafe (base64 fileHash).

End Hash.
End QiniuHelper.

(** ** The built-ins, to run the hash

    SHA-1 as FIPS 180-4 defines it and base64 as RFC 4648 defines it,
    on bytes as integers. They are not part of the plugin; the
    properties of [hashFile] hold for any [NodeBuiltins], and this
    instance serves the examples. *)

Module Node.

Definition word (x : Z) : Z := x mod 2 ^ 32.

Definition rotl (n x : Z) : Z :=
  word (Z.lor (Z.shiftl x n) (Z.shiftr x (32 - n))).

Definition byteVal (b : Byte.byte) : Z := Z.of_N (Byte.to_N b).

Definition byteOf (x : Z) : Byte.byte :=
  match Byte.of_N (Z.to_N (x mod 256)) with
  | Some b => b
  | None => Byte.x00
  end.

(** Big-endian bytes of [x], [n] of them. *)
Fixpoint bigEndian (n : nat) (x : Z) : list Z :=
  match n with
  | O => []
  | S n' => Z.shiftr x (8 * Z.of_nat n') mod 256 :: bigEndian n' x
  end.

Definition sha1_pad (msg : list Z) : list Z :=
  let len := Z.of_nat (List.length msg) in
  let zeros := Z.to_nat ((55 - len) mod 64) in
  msg ++ [128] ++ repeat 0 zeros ++ bigEndian 8 (8 * len).

Fixpoint words (fuel : nat) (bytes : list Z) : list Z :=
  match fuel, bytes with
  | S fuel', b0 :: b1 :: b2 :: b3 :: rest =>
      (((b0 * 256 + b1) * 256 + b2) * 256 + b3) :: words fuel' rest
  | _, _ => []
  end.

Fixpoint schedule (n : nat) (recent : list Z) : list Z :=
  match n with
  | O => recent
  | S n' =>
      let w :=
        rotl 1 (Z.lxor (Z.lxor (nth 2 recent 0) (nth 7 recent 0))
                       (Z.lxor (nth 13 recent 0) (nth 15 recent 0))) in
      schedule n' (w :: recent)
  end.

Definition sha1_round (st : Z * Z * Z * Z * Z) (tw : Z * Z) : Z * Z * Z * Z * Z :=
  let '(a, b, c, d, e) := st in
  let '(t, w) := tw in
  let notb := Z.lxor b (2 ^ 32 - 1) in
  let '(f, k) :=
    if t <? 20 then (Z.lor (Z.land b c) (Z.land notb d), 1518500249)
    else if t <? 40 then (Z.lxor (Z.lxor b c) d, 1859775393)
    else if t <? 60 then
      (Z.lor (Z.lor (Z.land b c) (Z.land b d)) (Z.land c d), 2400959708)
    else (Z.lxor (Z.lxor b c) d, 3395469782) in
  (word (rotl 5 a + f + e + k + w), a, rotl 30 b, c, d).

Definition sha1_block (h : Z * Z * Z * Z * Z) (block : list Z) : Z * Z * Z * Z * Z :=
  let ws := rev (schedule 64 (rev (words 16 block))) in
  let tws := combine (map Z.of_nat (seq 0 80)) ws in
  let '(h0, h1, h2, h3, h4) := h in
  let '(a, b, c, d, e) := fold_left sha1_round tws h in
  (word (h0 + a), word (h1 + b), word (h2 + c), word (h3 + d), word (h4 + e)).

Fixpoint sha1_blocks (fuel : nat) (h : Z * Z * Z * Z * Z) (bytes : list Z)
    : Z * Z * Z * Z * Z :=
  match fuel with
  | O => h
  | S fuel' =>
      match bytes with
      | [] => h
      | _ => sha1_blocks fuel' (sha1_block h (firstn 64 bytes)) (skipn 64 bytes)
      end
  end.

Definition sha1 (buf : Buffer) : Buffer :=
  let padded := sha1_pad (map byteVal buf) in
  let '(h0, h1, h2, h3, h4) :=
    sha1_blocks (List.length padded)
      (1732584193, 4023233417, 2562383102, 271733878, 3285377520) padded in
  map byteOf
    (bigEndian 4 h0 ++ bigEndian 4 h1 ++ bigEndian 4 h2 ++ bigEndian 4 h3
     ++ bigEndian 4 h4).

Definition base64Alphabet : string :=
  "ABCDEFGHIJKLMNOPQRSTUVWXYZabcdefghijklmnopqrstuvwxyz0123456789+/".

Definition base64Char (x : Z) : ascii :=
  match String.get (Z.to_nat (x mod 64)) base64Alphabet with
  | Some c => c
  | None => "="%char
  end.

Fixpoint base64Bytes (bytes : list Z) : string :=
  match bytes with
  | b0 :: b1 :: b2 :: rest =>
      let x := (b0 * 256 + b1) * 256 + b2 in
      String (base64Char (Z.shiftr x 18)) (String (base64Char (Z.shiftr x 12))
        (String (base64Char (Z.shiftr x 6)) (String (base64Char x) (base64Bytes rest))))
  | [b0; b1] =>
      let x := (b0 * 256 + b1) * 256 in
      String (base64Char (Z.shiftr x 18)) (String (base64Char (Z.shiftr x 12))
        (String (base64Char (Z.shiftr x 6)) "="))
  | [b0] =>
      let x := b0 * 65536 in
      String (base64Char (Z.shiftr x 18)) (String (base64Char (Z.shiftr x 12)) "==")
  | [] => EmptyString
  end.

Definition toBase64 (buf : Buffer) : string := base64Bytes (map byteVal buf).

Definition builtins : NodeBuiltins := {|
  sha1_digest := sha1;
  base64 := toBase64
|}.

Definition bytesOfString (s : string) : Buffer :=
  map byte_of_ascii (list_ascii_of_string s).

End Node.

(** ** The expiry predicate in the words of the specification *)

Definition expired (maxVersions deadline : option Z) (i : nat) (r : LogRecord) : Prop :=
  match maxVersions, deadline with
  | Some m, Some d => timestamp r < d /\ Z.of_nat i > m
  | Some m, None => Z.of_nat i > m
  | None, Some d => timestamp r < d
  | None, None => False
  end.

(** ** [findVersion] in the words of the specification *)

(** A FileRecord matches when its filename equals the argument and, when
    a hash is provided, its hash equals the argument hash. *)
Definition matches_provided (filename_ : string) (hash_ : option string)
    (f : LogDetail) : Prop :=
  filename f = filename_
  /\ match hash_ with Some h => hash f = h | None => True end.

(** The same, with the empty string counted as no hash. *)
Definition matches_nonempty (filename_ : string) (hash_ : option string)
    (f : LogDetail) : Prop :=
  filename f = filename_
  /\ match hash_ with
     | Some h => h = EmptyString \/ hash f = h
     | None => True
     end.

(** A snapshot contains a FileRecord that matches, among its upload
    entries or its omit entries. *)
Definition containsMatch (M : LogDetail -> Prop) (r : LogRecord) : Prop :=
  exists f, In f (upload r ++ omit r) /\ M f.

(** [result] is the index and timestamp of the first snapshot at or
    after [startIndex] that contains a match, and [None] when no
    snapshot from [startIndex] on does. *)
Definition firstVersionFrom (M : LogDetail -> Prop) (record : list LogRecord)
    (startIndex : nat) (result : option VersionData) : Prop :=
  match result with
  | Some found =>
      (startIndex <= versionIndex found)%nat
      /\ (exists r, record !! versionIndex found = Some r
                    /\ vd_timestamp found = timestamp r
                    /\ containsMatch M r)
      /\ (forall j r, (startIndex <= j < versionIndex found)%nat ->
             record !! j = Some r -> ~ containsMatch M r)
  | None =>
      forall j r, (startIndex <= j)%nat -> record !! j = Some r ->
        ~ containsMatch M r
  end.

(** ** The clean set in the words of the specification *)

(** The deadline of a policy, for a log whose last version is
    [lastVersion]. *)
Definition policyDeadline (lastVersion : LogRecord) (policy : ExpireOption)
    : option Z :=
  match time policy with
  | Some t => Some (timestamp lastVersion - t)
  | None => None
  end.

(** The upload entries of every snapshot at index [expireIndex] or
    more, and the omit entries of the oldest of them alone. *)
Definition candidateFiles (record : list LogRecord) (expireIndex : nat)
    : list LogDetail :=
  let considered := drop expireIndex record in
  flat_map upload considered ++ from_option omit [] (last considered).

(** The files of [files] are all recorded in the log. *)
Definition recorded (record : list LogRecord) (files : list LogDetail) : Prop :=
  forall f, In f files ->
    exists j snap, record !! j = Some snap /\ In f (upload snap ++ omit snap).

(** [findVersion(filename).versionIndex >= expireIndex]. *)
Definition stillExpired (record : list LogRecord) (expireIndex : nat)
    (file : LogDetail) : bool :=
  match VersionLog.findVersion record (filename file) None None with
  | Some found => Nat.leb expireIndex (versionIndex found)
  | None => false
  end.

Definition cleanSet (record : list LogRecord) (lastVersion : LogRecord)
    (policy : ExpireOption) : list LogDetail :=
  let deadline := policyDeadline lastVersion policy in
  let expireIndex :=
    VersionLog.getFirstExpireVersionIndex record (versions policy) deadline in
  List.filter (stillExpired record expireIndex) (candidateFiles record expireIndex).

(** ** The content hash in the words of the specification *)

(** [chunks] splits [buf] into consecutive chunks of [size] bytes, the
    last one possibly shorter. *)
Definition isChunking (size : nat) (buf : Buffer) (chunks : list Buffer) : Prop :=
  concat chunks = buf
  /\ forall i c, chunks !! i = Some c ->
       (0 < length c <= size)%nat
       /\ ((S i < length chunks)%nat -> length c = size).

(** The URL-safe alphabet: [+] becomes [-], [/] becomes [_]. *)
Definition urlSafeChar (c : ascii) : ascii :=
  if Ascii.eqb c "+"%char then "-"%char
  else if Ascii.eqb c "/"%char then "_"%char
  else c.

(** ** The diff in the words of the specification *)

Inductive Bucket := Excluded | Omit | Upload | Overwrite.

#[global] Instance Bucket_eq_dec : EqDecision Bucket.
Proof. solve_decision. Defined.

(** The bucket of a local file that is not excluded, by the remote file
    with the same filename: none, one with the same hash, or one with
    another hash. When several remote files have the filename, the
    first is the one looked up. *)
Definition bucketOf (remoteFiles : list LogDetail) (fileUri fileHash : string)
    : Bucket :=
  match List.find (fun r => String.eqb (filename r) fileUri) remoteFiles with
  | None => Upload
  | Some r => if String.eqb (hash r) fileHash then Omit else Overwrite
  end.

(** [r] is the first remote file named [fileUri]. *)
Definition firstNamed (remoteFiles : list LogDetail) (fileUri : string)
    (r : LogDetail) : Prop :=
  exists i, remoteFiles !! i = Some r /\ filename r = fileUri
    /\ forall j r', (j < i)%nat -> remoteFiles !! j = Some r' -> filename r' <> fileUri.

(** The entry recorded for an excluded path. *)
Definition excludedItem (filePath_ : string) : LogDetail :=
  mkLogDetail (utils.filePath2Uri filePath_) "*EXCLUDED*".

Section DiffSpec.
Context `{PathModule}.

(** The entry recorded for a local file that was read. *)
Definition logItem (outputPath : string) (file : LocalFile) : LogDetail :=
  mkLogDetail (QiniuCDNPlugin.fileUriOf outputPath file) (lf_hash file).

Definition bucketOfFile (remoteFiles : list LogDetail) (outputPath : string)
    (file : LocalFile) : Bucket :=
  bucketOf remoteFiles (QiniuCDNPlugin.fileUriOf outputPath file) (lf_hash file).

(** The status with [item] pushed on bucket [b]. *)
Definition pushOn (b : Bucket) (item : LogDetail) (status : UploadStatus)
    : UploadStatus :=
  mkUploadStatus (us_remote status)
    (us_exclude status ++ (if decide (b = Excluded) then [item] else []))
    (us_overwrite status ++ (if decide (b = Overwrite) then [item] else []))
    (us_omit status ++ (if decide (b = Omit) then [item] else []))
    (us_upload status ++ (if decide (b = Upload) then [item] else []))
    (us_clean status).

(** The entries of the local files that fall in bucket [b]. *)
Definition entriesIn (b : Bucket) (remoteFiles : list LogDetail)
    (outputPath : string) (localFiles : list LocalFile) : list LogDetail :=
  logItem outputPath
    <$> filter (fun f => bucketOfFile remoteFiles outputPath f = b) localFiles.

(** [localFiles] are the reads of the paths that passed the filter, in
    some order. *)
Definition readsOfKept (outputPath : string) (exclude : ExcludeOption)
    (filePaths : list string) (localFiles : list LocalFile) : Prop :=
  Permutation (filePath <$> localFiles)
    (path_join outputPath
       <$> List.filter (fun p => negb (QiniuCDNPlugin.excludeTest exclude p))
             filePaths).
End DiffSpec.

(** A [path] module for relative keys under a plain directory, for the
    examples: [join] puts a slash in between and [relative] takes the
    directory and the slash off. *)
Definition stripPrefix (prefix s : string) : string :=
  if String.prefix prefix s
  then String.substring (String.length prefix)
         (String.length s - String.length prefix) s
  else s.

Definition plainPath : PathModule := {|
  path_join dir key := (dir +:+ "/" +:+ key)%string;
  path_relative from to := stripPrefix (from +:+ "/")%string to
|}.

(** ** Fresh slices, in the words of the specification *)

(** [slice] is an array that did not exist in [st]: it is not the array
    of the log, the log and every array of [st] are as they were in the
    state [st'] that has it, and no later write to it changes what the
    log holds. *)
Definition freshSlice (st : Heap.State) (slice : Heap.loc) (st' : Heap.State)
    : Prop :=
  (slice ∉ dom (Heap.arrays st))
  /\ slice <> Heap.this_record st
  /\ Heap.this_record st' = Heap.this_record st
  /\ Heap.record st' = Heap.record st
  /\ (forall arr, arr ∈ dom (Heap.arrays st) ->
        Heap.arrays st' !! arr = Heap.arrays st !! arr)
  /\ (forall contents,
        Heap.record (Heap.array_write slice contents st') = Heap.record st).

(** ** Data of the examples *)

(** The log of the [findVersion] example of the specification. *)
Definition log_a_js : list LogRecord :=
  [ mkLogRecord 20 [mkLogDetail "a.js" "h1"] [];
    mkLogRecord 10 [mkLogDetail "a.js" "h0"] [] ].

(** A remote listing in which the log file is present. *)
Definition listing_with_log : ListResult :=
  Listed [ mkRemoteFile "a.js" "h1"; mkRemoteFile "upload-log.json" "h9" ].

(** The end-to-end scenario of the specification: the remote files, and
    the local build under the output path [dist]. *)
Definition remote_a_b : list LogDetail :=
  [ mkLogDetail "a.js" "h1"; mkLogDetail "b.js" "h2" ].

Definition local_a_c : list LocalFile :=
  [ mkLocalFile "dist/a.js" [] "h1"; mkLocalFile "dist/c.js" [] "h3" ].

Definition local_a_b : list LocalFile :=
  [ mkLocalFile "dist/a.js" [] "h1"; mkLocalFile "dist/b.js" [] "h2" ].

Definition excludeNothing : ExcludeOption := ExcludeFunction (fun _ => false).

(** A heap with the array of the log at 1 and an array of a caller at 2. *)
Definition heap_two_arrays : Heap.State :=
  Heap.mkState
    {[ 1%positive := [mkLogRecord 20 [] []];
       2%positive := [mkLogRecord 5 [] []; mkLogRecord 30 [] []] ]}
    1%positive.

(** ** The log across a run: [handler] and [emitLog] *)

(** A log in the order [init] leaves it: timestamps never increase. *)
Definition descending (record : list LogRecord) : Prop :=
  StronglySorted (fun a b => timestamp a >= timestamp b) record.

Module Handler.

(** The snapshot [handler] appends: [now] is
    [Math.floor(Date.now() / 1000)]. *)
Definition newVersion (now : Z) (status : UploadStatus) : LogRecord :=
  mkLogRecord now (us_upload status ++ us_overwrite status) (us_omit status).

(** What [emitLog] serialises: [options.expire] is [None] for [false].
    With a policy, [this.log.getLastVersion().timestamp] is read before
    anything else. *)
Definition emitLogData (record : list LogRecord) (expire : option ExpireOption)
    : Result (list LogRecord) :=
  match expire with
  | Some policy =>
      match VersionLog.getLastVersion record with
      | None => Throw ReadTimestampOfUndefined
      | Some lastVersion =>
          let lastVersionTime := timestamp lastVersion in
          let deadline :=
            match time policy with
            | Some expireTime => Some (lastVersionTime - expireTime)
            | None => None
            end in
          Ok (VersionLog.getFreshVersions record (versions policy) deadline)
      end
  | None => Ok (VersionLog.getVersions record 0 None)
  end.

End Handler.

(** [found] with its index moved by one, as after an [unshift]. *)
Definition shiftVersion (found : VersionData) : VersionData :=
  mkVersionData (S (versionIndex found)) (vd_timestamp found).

(** A policy whose bounds, where given, are not negative. *)
Definition nonNegativePolicy (policy : ExpireOption) : Prop :=
  (forall t, time policy = Some t -> 0 <= t)
  /\ (forall m, versions policy = Some m -> 0 <= m).

(** Two runs of a log, for the examples. *)
Definition log_three : list LogRecord :=
  [ mkLogRecord 30 [mkLogDetail "c.js" "h3"] [mkLogDetail "a.js" "h1"];
    mkLogRecord 20 [mkLogDetail "b.js" "h2"] [mkLogDetail "a.js" "h1"];
    mkLogRecord 10 [mkLogDetail "a.js" "h1"; mkLogDetail "old.js" "h0"] [] ].

Definition keepOne : ExpireOption := mkExpireOption None (Some 1).

(** ** The rest of utils.js *)

(** [s.slice(0, n)] and [s.slice(n)] for an index [n] in [nat]. *)
Fixpoint str_take (n : nat) (s : string) : string :=
  match n, s with
  | S n', String c s' => String c (str_take n' s')
  | _, _ => EmptyString
  end.

Fixpoint str_drop (n : nat) (s : string) : string :=
  match n, s with
  | S n', String _ s' => str_drop n' s'
  | _, _ => s
  end.

(** [removePrefix(filename, prefix = '')]. *)
Definition removePrefix (filename_ : string) (prefix : option string) : string :=
  let prefix := default EmptyString prefix in
  let prefixLength := String.length prefix in
  if negb (Nat.eqb prefixLength 0)
     && String.eqb (str_take prefixLength filename_) prefix
  then str_drop prefixLength filename_
  else filename_.

(** [validateRequired(obj, requiredKey)]: the key of the [Error] it
    throws, if it throws. The object is a map from property names;
    a property that is [null] or [undefined] has no entry. *)
Fixpoint validateRequired (obj : gmap string string) (requiredKey : list string)
    : option string :=
  match requiredKey with
  | [] => None
  | key :: rest =>
      match obj !! key with
      | None => Some key
      | Some _ => validateRequired obj rest
      end
  end.

(** [splitList(list, size)]: the loop [while (list.length)] on the copy
    of [list], for a [size] that is positive ([splice(0, size)] takes
    nothing off otherwise, and the loop does not end). *)
Section SplitList.
Context {A : Type} (size : nat) (size_pos : (0 < size)%nat).

Equations? splitLoop (list_ : list A) (urlQueue : list (list A))
    : list (list A) by wf (length list_) lt :=
  splitLoop [] urlQueue := urlQueue;
  splitLoop (x :: list') urlQueue :=
    splitLoop (drop size (x :: list')) (urlQueue ++ [take size (x :: list')]).
Proof. rewrite length_drop. simpl length. lia. Qed.

Definition splitList (list_ : list A) : list (list A) := splitLoop list_ [].
End SplitList.

(** [taskQueue(list, callback)] for [n] tasks. [forEach] starts every
    task at once; [completions] lists, in the order they happen, the
    calls of the tasks to the function they were given: the index of
    the task and the error it passes. Inside
    [forEach((item, i) => ...)] the name [i] is the parameter of the
    arrow function, not the [let i] above it: every task has an [i] of
    its own, which starts as the index of the task and which [--i]
    decrements at each call without an error. *)
Record TaskState := mkTaskState {
  tq_i : nat -> Z;
  tq_callbacks : list (option Error)
}.

(** The function the task of index [index] is given, called with
    [error]. *)
Definition taskDone (st : TaskState) (completion : nat * option Error)
    : TaskState :=
  let '(index, error) := completion in
  match error with
  | Some e => mkTaskState (tq_i st) (tq_callbacks st ++ [Some e])
  | None =>
      let i := tq_i st index - 1 in
      mkTaskState (fun k => if Nat.eqb k index then i else tq_i st k)
        (tq_callbacks st ++ (if i =? 0 then [None] else []))
  end.

(** The calls of [callback]: the one of [if (i === 0) callback()],
    then those of the tasks. *)
Definition taskQueue (n : nat) (completions : list (nat * option Error))
    : list (option Error) :=
  tq_callbacks
    (fold_left taskDone completions
       (mkTaskState Z.of_nat (if Nat.eqb n 0 then [None] else []))).

(** How many times the task of index [k] has called back without an
    error. *)
Definition successes (k : nat) (completions : list (nat * option Error)) : nat :=
  length
    (List.filter
       (fun c : nat * option Error =>
          Nat.eqb c.1 k && match c.2 with None => true | Some _ => false end)
       completions).

(** *** [asyncQueue]

    The state of a call [asyncQueue(list, limit, handler, callback)]:
    [queue] and the counter [i] of the source, whether the [while] loop
    is still running, the items whose handler has been called and has
    not called back yet, all the items handed to the handler so far,
    and the calls of [callback] so far. *)
Record QueueState (A : Type) := mkQueueState {
  aq_queue : list A;
  aq_i : Z;
  aq_limit : Z;
  aq_looping : bool;
  aq_inflight : list A;
  aq_started : list A;
  aq_callbacks : list (option Error)
}.
Arguments mkQueueState {A}.
Arguments aq_queue {A}.
Arguments aq_i {A}.
Arguments aq_limit {A}.
Arguments aq_looping {A}.
Arguments aq_inflight {A}.
Arguments aq_started {A}.
Arguments aq_callbacks {A}.

Section AsyncQueue.
Context {A : Type}.

(** The call itself, up to the [while] loop. *)
Definition asyncQueue (list_ : list A) (limit : Z) : QueueState A :=
  let limit := Z.min (Z.of_nat (length list_)) limit in
  if limit =? 0
  then mkQueueState list_ 0 limit false [] [] [None]
  else mkQueueState list_ 0 limit true [] [] [].

(** [tick]: [queue.shift()] goes to the handler. Both calls of [tick]
    are guarded by [queue.length]. *)
Definition tick (st : QueueState A) : QueueState A :=
  match aq_queue st with
  | cur :: queue =>
      mkQueueState queue (aq_i st) (aq_limit st) (aq_looping st)
        (aq_inflight st ++ [cur]) (aq_started st ++ [cur]) (aq_callbacks st)
  | [] => st
  end.

(** One turn of [while (i < limit && queue.length) { i++; tick(); }],
    or its exit. *)
Definition loopTurn (st : QueueState A) : QueueState A :=
  if (aq_i st <? aq_limit st) && negb (Nat.eqb (length (aq_queue st)) 0)
  then tick (mkQueueState (aq_queue st) (aq_i st + 1) (aq_limit st) true
               (aq_inflight st) (aq_started st) (aq_callbacks st))
  else mkQueueState (aq_queue st) (aq_i st) (aq_limit st) false
         (aq_inflight st) (aq_started st) (aq_callbacks st).

(** The function the handler is given, called with [err], once the item
    has been taken off the items in flight. *)
Definition handlerDone (err : option Error) (st : QueueState A) : QueueState A :=
  match err with
  | Some e =>
      mkQueueState (aq_queue st) (aq_i st) (aq_limit st) (aq_looping st)
        (aq_inflight st) (aq_started st) (aq_callbacks st ++ [Some e])
  | None =>
      if negb (Nat.eqb (length (aq_queue st)) 0) then tick st
      else
        let i := aq_i st - 1 in
        mkQueueState (aq_queue st) i (aq_limit st) (aq_looping st)
          (aq_inflight st) (aq_started st)
          (aq_callbacks st ++ (if i =? 0 then [None] else []))
  end.

(** What can happen next: a turn of the loop while it runs, or a
    handler in flight calling back. A handler calls back once; one that
    calls back before it returns does so while the loop runs. *)
Inductive queueStep : QueueState A -> QueueState A -> Prop :=
| step_loop st :
    aq_looping st = true -> queueStep st (loopTurn st)
| step_done st before x after err :
    aq_inflight st = before ++ x :: after ->
    queueStep st
      (handlerDone err
         (mkQueueState (aq_queue st) (aq_i st) (aq_limit st) (aq_looping st)
            (before ++ after) (aq_started st) (aq_callbacks st))).

Inductive queueRun (list_ : list A) (limit : Z) : QueueState A -> Prop :=
| run_start : queueRun list_ limit (asyncQueue list_ limit)
| run_step st st' :
    queueRun list_ limit st -> queueStep st st' -> queueRun list_ limit st'.
End AsyncQueue.

(** The calls of [callback] with an error, counted. *)
Definition errorCount (callbacks : list (option Error)) : Z :=
  Z.of_nat (length (List.filter (fun c => match c with Some _ => true | None => false end)
                      callbacks)).

(** [chunks] splits [l] into consecutive pieces of [size] items, the
    last one possibly shorter. *)
Definition isSplit {A} (size : nat) (l : list A) (chunks : list (list A)) : Prop :=
  concat chunks = l
  /\ forall i c, chunks !! i = Some c ->
       (0 < length c <= size)%nat
       /\ ((S i < length chunks)%nat -> length c = size).

(** What holds of every state of a call of [asyncQueue]. *)
Definition queueInv {A} (list_ : list A) (limit : Z) (st : QueueState A) : Prop :=
  aq_started st ++ aq_queue st = list_
  /\ aq_limit st = Z.min (Z.of_nat (length list_)) limit
  /\ aq_i st = Z.of_nat (length (aq_inflight st)) + errorCount (aq_callbacks st)
  /\ aq_i st <= Z.max 0 (aq_limit st)
  /\ (In None (aq_callbacks st) ->
        aq_callbacks st = [None] /\ aq_inflight st = []
        /\ (aq_limit st = 0 \/ aq_queue st = []))
  /\ (aq_limit st = 0 -> aq_callbacks st = [None] /\ aq_looping st = false)
  /\ (aq_looping st = false ->
        aq_limit st = 0 \/ aq_queue st = [] \/ aq_limit st <= aq_i st)
  /\ (aq_i st = 0 -> aq_started st <> [] -> In None (aq_callbacks st)).

(** A call of [asyncQueue] on two items with [limit] 1, both handlers
    calling back without an error: the states it goes through. *)
Definition queue_ab_0 : QueueState string := asyncQueue ["a"; "b"] 1.
Definition queue_ab_1 : QueueState string := loopTurn queue_ab_0.
Definition queue_ab_2 : QueueState string := loopTurn queue_ab_1.
Definition queue_ab_3 : QueueState string :=
  handlerDone None
    (mkQueueState (aq_queue queue_ab_2) (aq_i queue_ab_2) (aq_limit queue_ab_2)
       (aq_looping queue_ab_2) [] (aq_started queue_ab_2)
       (aq_callbacks queue_ab_2)).
Definition queue_ab_4 : QueueState string :=
  handlerDone None
    (mkQueueState (aq_queue queue_ab_3) (aq_i queue_ab_3) (aq_limit queue_ab_3)
       (aq_looping queue_ab_3) [] (aq_started queue_ab_3)
       (aq_callbacks queue_ab_3)).

(** ** The constructor of the plugin *)

(** The paths the constructor computes: [qiniu.prefix],
    [this.publicPath] and [this.remotePathname]. *)
Record PluginPaths := mkPluginPaths {
  qiniuPrefix : string;
  publicPath : string;
  remotePathname_ : string
}.

Inductive ConstructError :=
| MissingRequiredProperty (key : string)
| IllegalCdnHost.

Module Constructor.

(** [/^(https?:)?\/\//.test(cdnHost)]. *)
Definition hostTest (cdnHost : string) : bool :=
  String.prefix "//" cdnHost
  || String.prefix "http://" cdnHost
  || String.prefix "https://" cdnHost.

Definition requiredKeys : list string :=
  ["accessKey"; "secretKey"; "bucket"; "cdnHost"].

(** The constructor, on the options that are strings; [dir] is [''] by
    default, and an empty [dir] is falsy. *)
Definition constructor (options : gmap string string)
    : ConstructError + PluginPaths :=
  match validateRequired options requiredKeys with
  | Some key => inl (MissingRequiredProperty key)
  | None =>
      let cdnHost := default EmptyString (options !! "cdnHost") in
      if negb (hostTest cdnHost) then inl IllegalCdnHost
      else
        let dir := default EmptyString (options !! "dir") in
        let hasDir := negb (String.eqb dir EmptyString) in
        let prefix := if hasDir then String.append dir "/" else EmptyString in
        let publicPath0 := String.append cdnHost "/" in
        let publicPath1 :=
          if hasDir then String.append publicPath0 (String.append dir "/")
          else publicPath0 in
        let remotePathname0 :=
          if String.prefix "//" publicPath1
          then String.append "http:" publicPath1
          else publicPath1 in
        inr (mkPluginPaths prefix publicPath1 remotePathname0)
  end.

End Constructor.

(** ** The rest of QiniuHelper.js *)

(** An item of a page of [bucketManager.listPrefix]. *)
Record ListItem := mkListItem {
  li_key : string;
  li_hash : string
}.

(** What [listPrefix] passes to its callback: [err], [info.statusCode],
    [JSON.stringify(body)], [body.items] and [body.marker]. *)
Record ListResponse := mkListResponse {
  lr_err : option Error;
  lr_statusCode : Z;
  lr_body : string;
  lr_items : list ListItem;
  lr_marker : option string
}.

Module Listing.

Definition listedFile (prefix : string) (item : ListItem) : RemoteFile :=
  mkRemoteFile (removePrefix (li_key item) (Some prefix)) (li_hash item).

(** [load] of [listCdnFiles]: [responses] are the answers of the store
    to the successive requests. [None] when the answers run out before
    a page without marker: no callback yet. *)
Fixpoint load (prefix : string) (responses : list ListResponse)
    (result : list RemoteFile) : option ListResult :=
  match responses with
  | [] => None
  | response :: later =>
      match lr_err response with
      | Some err => Some (ListFailed err)
      | None =>
          if negb (lr_statusCode response =? 200) then
            Some (ListFailed
                    (TransportError
                       (String.append "list remote files error: "
                          (lr_body response))))
          else
            let items := map (listedFile prefix) (lr_items response) in
            let result := result ++ items in
            if truthy (lr_marker response) then load prefix later result
            else Some (Listed result)
      end
  end.

Definition listCdnFiles (prefix : string) (responses : list ListResponse)
    : option ListResult :=
  load prefix responses [].

(** The key [uploadBuffer] stores a file under, and the key of a
    [deleteOp] of [batchDelete]. *)
Definition uploadKey (prefix filekey : string) : string :=
  String.append prefix (utils.filePath2Uri filekey).

Definition deleteKey (prefix item : string) : string :=
  String.append prefix item.

End Listing.

(** [key] is under [prefix]. *)
Definition underPrefix (prefix key : string) : Prop :=
  exists name_, key = String.append prefix name_.

(** ** The two tasks of [run] *)

Module Run.

(** The files [uploadAssets] gives to [asyncQueue]:
    [[...overwrite, ...upload]]. *)
Definition uploadAssetsFiles (status : UploadStatus) : list LogDetail :=
  us_overwrite status ++ us_upload status.

(** The filenames [cleanCDN] gives to [batchDelete]. *)
Definition cleanCDNFilenames (status : UploadStatus) : list string :=
  map filename (us_clean status).

End Run.

(** The calls of [callback] among the events. *)
Definition callbacksOf (events : list Event) : list (option Error) :=
  flat_map (fun e => match e with Callback error => [error] | _ => [] end) events.

(** Options with a host that has no scheme, for the examples. *)
Definition options_example : gmap string string :=
  {[ "accessKey" := "ak"; "secretKey" := "sk"; "bucket" := "b";
     "cdnHost" := "//cdn.host"; "dir" := "access" ]}.

(** One page of a listing under the prefix [access/]. *)
Definition responses_one_page : list ListResponse :=
  [ mkListResponse None 200 EmptyString
      [ mkListItem "access/a.js" "h1"; mkListItem "access/upload-log.json" "h9" ]
      None ].

(** ** [cdnRefresh] and [cdnPrefetch] of QiniuHelper.js

    Both split the urls with [utils.splitList(urls, 100)] and give the
    pieces to [utils.asyncQueue] with a limit of 1; the handler passes a
    piece to the SDK. *)

Module Cdn.

Lemma batch_pos : (0 < 100)%nat.
Proof. apply Nat.lt_0_succ. Qed.

Definition urlQueue (urls : list string) : list (list string) :=
  splitList 100 batch_pos urls.

Definition cdnRefresh (urls : list string) : QueueState (list string) :=
  asyncQueue (urlQueue urls) 1.

Definition cdnPrefetch (urls : list string) : QueueState (list string) :=
  asyncQueue (urlQueue urls) 1.

End Cdn.

(** ** [initCDNStatus] with a continuation that can throw

    [handler] gives [initCDNStatus] a continuation that runs
    [initUploadStatus] before it returns, so a call of [callback] can
    throw. In the branch of the status 200 and 304 the call
    [callback()] stands inside the [try]: what it throws is caught, and
    the [catch] calls [callback] again, with the parse error. Anywhere
    else what [callback] throws leaves [initCDNStatus]; the last
    component of the results says whether that happened.
    [callbackThrows error] is whether the call [callback(error)]
    throws. *)

Module Throwing.
Section Throwing.
Context (JSON_parse : string -> option (list LogRecord)).
Context (callbackThrows : option Error -> bool).

(** The callback given to [utils.readRemoteFile]. *)
Definition readLogCallback (logFileUrl : string) (result : ReadResult)
    (log : list LogRecord) : list LogRecord * list Event * bool :=
  match result with
  | ReadFailed readLogError =>
      (log, [Callback (Some readLogError)], callbackThrows (Some readLogError))
  | Response statusCode content_ =>
      if (statusCode =? 200) || (statusCode =? 304) then
        match JSON_parse content_ with
        | Some records =>
            if callbackThrows None then
              (VersionLog.init records,
               [Callback None; Callback (Some ParseRemoteLogError)],
               callbackThrows (Some ParseRemoteLogError))
            else (VersionLog.init records, [Callback None], false)
        | None =>
            (log, [Callback (Some ParseRemoteLogError)],
             callbackThrows (Some ParseRemoteLogError))
        end
      else if statusCode =? 404 then
        (log, [ConsoleWarn (DEBUG_LABEL +:+ " log file not found("
                            +:+ logFileUrl +:+ ")")], false)
      else
        (log, [Callback (Some (FetchRemoteLogError statusCode content_))],
         callbackThrows (Some (FetchRemoteLogError statusCode content_)))
  end.

(** [initCDNStatus]. When the log file is not listed, [callback()] is
    called before [this.uploadStatus.remote] is assigned: when it
    throws, the assignment is not reached. When the log file is
    listed, the assignment comes before the answer to the fetch. *)
Definition initCDNStatus (logFileName remotePathname : string)
    (listing : ListResult) (readLog : string -> ReadResult)
    (log : list LogRecord) (status : UploadStatus)
    : list LogRecord * UploadStatus * list Event * bool :=
  match listing with
  | ListFailed error =>
      (log, status, [Callback (Some error)], callbackThrows (Some error))
  | Listed files =>
      let logFileIndex :=
        findIndex
          (fun item => negb (String.eqb logFileName EmptyString)
                       && String.eqb (name item) logFileName)
          files in
      let remoteFiles :=
        match logFileIndex with
        | Some i => delete i files
        | None => files
        end in
      let status' :=
        mkUploadStatus
          (map (fun item => mkLogDetail (name item) (rf_hash item)) remoteFiles)
          (us_exclude status) (us_overwrite status) (us_omit status)
          (us_upload status) (us_clean status) in
      match logFileIndex with
      | Some _ =>
          let logFileUrl := remotePathname +:+ logFileName in
          let '(log', events, threw) :=
            readLogCallback logFileUrl (readLog logFileUrl) log in
          (log', status', events, threw)
      | None =>
          if callbackThrows None then (log, status, [Callback None], true)
          else (log, status', [Callback None], false)
      end
  end.

End Throwing.
End Throwing.

(** ** The filename of the diff in the words of the specification *)

(** A path with its separators normalised to [/]. *)
Definition normalizeSeparators (path : string) : string :=
  string_of_list_ascii
    (map (fun c => if Ascii.eqb c "\"%char then "/"%char else c)
       (list_ascii_of_string path)).

(** What Node's [path] gives for the asset keys of a build, which are
    relative paths: [path.relative(dir, path.join(dir, key))] is the
    key again, up to the separators of the platform. *)
Definition relativeOfJoin `{PathModule} (outputPath : string)
    (keys : list string) : Prop :=
  forall key, In key keys ->
    normalizeSeparators (path_relative outputPath (path_join outputPath key))
    = normalizeSeparators key.

(** * Properties *)

(** ** Version log: the first expired version *)

Lemma expireTest_expired mv dl i r :
  VersionLog.expireTest mv dl i (timestamp r) = true <-> expired mv dl i r.
Proof.
  unfold VersionLog.expireTest, expired.
  destruct mv as [m|], dl as [d|]; simpl;
    rewrite ?orb_true_iff, ?andb_true_iff, ?Z.ltb_lt, ?Z.gtb_gt;
    intuition (lia || congruence).
Qed.

(** The loop entered at [i] stops at the first expired snapshot of
    [rest], counted from [i], or at [i + length rest]. *)
Lemma expireLoop_first mv dl rest : forall i,
  let r := VersionLog.expireLoop mv dl rest i in
  (i <= r <= i + length rest)%nat
  /\ (forall k snap, rest !! k = Some snap -> (i + k < r)%nat ->
       ~ expired mv dl (i + k) snap)
  /\ match rest !! (r - i)%nat with
     | Some snap => expired mv dl r snap
     | None => r = (i + length rest)%nat
     end.
Proof.
  induction rest as [|s rest IH]; intros i; simpl.
  - split; [lia|]. split.
    + intros k snap Hk. by rewrite lookup_nil in Hk.
    + destruct (i - i)%nat; simpl; lia.
  - destruct (VersionLog.expireTest mv dl i (timestamp s)) eqn:Et.
    + split; [lia|]. split; [intros; lia|].
      rewrite Nat.sub_diag. simpl. by apply expireTest_expired.
    + destruct (IH (S i)) as ((Hlo & Hhi) & Hbefore & Hat).
      set (r := VersionLog.expireLoop mv dl rest (S i)) in *.
      split; [lia|]. split.
      * intros [|k] snap Hk Hlt; simpl in Hk.
        -- injection Hk as <-. rewrite Nat.add_0_r, <- expireTest_expired.
           congruence.
        -- replace (i + S k)%nat with (S i + k)%nat by lia.
           apply Hbefore; [done | lia].
      * replace (r - i)%nat with (S (r - S i)) by lia. simpl.
        destruct (rest !! (r - S i)%nat); [done | lia].
Qed.

(** C1: [getFirstExpireVersionIndex] returns the index of the first
    snapshot, scanning from index 0, that is expired in the sense of
    the specification (both bounds must hold when both are given, the
    single bound when one is given, nothing when none is), and the
    length of the log when there is none; a snapshot older than the
    deadline but within [maxVersions] does not stop the scan. *)
Theorem getFirstExpireVersionIndex_first_expired
    (record : list LogRecord) (maxVersions deadline : option Z) :
  let r := VersionLog.getFirstExpireVersionIndex record maxVersions deadline in
  (r <= length record)%nat
  /\ (forall j snap, record !! j = Some snap -> (j < r)%nat ->
       ~ expired maxVersions deadline j snap)
  /\ match record !! r with
     | Some snap => expired maxVersions deadline r snap
     | None => r = length record
     end
  /\ (maxVersions = None -> deadline = None -> r = length record)
  /\ (forall m d j snap,
       maxVersions = Some m -> deadline = Some d ->
       record !! j = Some snap -> timestamp snap < d -> Z.of_nat j <= m ->
       ~ expired maxVersions deadline j snap /\ (j < r)%nat).
Proof.
  intros r. subst r. unfold VersionLog.getFirstExpireVersionIndex.
  destruct (expireLoop_first maxVersions deadline record 0)
    as ((_ & Hhi) & Hbefore & Hat).
  set (r := VersionLog.expireLoop maxVersions deadline record 0) in *.
  rewrite Nat.sub_0_r in Hat. simpl in Hhi.
  split; [lia|]. split; [|split; [|split]].
  - intros j snap Hj Hlt. apply (Hbefore j snap Hj). lia.
  - destruct (record !! r); [done | lia].
  - intros -> ->. destruct (record !! r); [contradiction | lia].
  - intros m d j snap -> -> Hj Hts Hle.
    assert (Hfresh : ~ expired (Some m) (Some d) j snap) by (simpl; lia).
    split; [done|].
    destruct (record !! r) as [snap'|] eqn:Hr.
    + simpl in Hat. lia.
    + apply lookup_lt_Some in Hj. lia.
Qed.

(** ** [Array.prototype.sort] as modelled: a stable sort *)

Section ArraySortFacts.
Context {A : Type} (compareFn : A -> A -> Z).

Lemma sort_insert_perm x l : Permutation (sort_insert compareFn x l) (x :: l).
Proof.
  induction l as [|y l IH]; simpl; [done|].
  destruct (compareFn x y <=? 0); [done|].
  rewrite IH. apply perm_swap.
Qed.

Lemma array_sort_perm l : Permutation (array_sort compareFn l) l.
Proof.
  induction l as [|x l IH]; simpl; [done|].
  rewrite sort_insert_perm. by constructor.
Qed.

(** Elements the comparator puts strictly after [x] are the only ones
    an insertion walks past. *)
Lemma sort_insert_filter (P : A -> bool) x l :
  (forall y, 0 < compareFn x y -> P x = true -> P y = false) ->
  filter P (sort_insert compareFn x l) = filter P (x :: l).
Proof.
  intros Hskip. induction l as [|y l IH]; simpl; [done|].
  destruct (Z.leb_spec (compareFn x y) 0) as [Hle|Hgt]; [done|].
  rewrite !filter_cons in *. rewrite IH.
  destruct (decide (P x)) as [Hx|Hx], (decide (P y)) as [Hy|Hy]; try done.
  apply Is_true_true in Hx, Hy. rewrite (Hskip y Hgt Hx) in Hy. discriminate.
Qed.

Section Ordered.
(** A consistent comparator: [le a b := compareFn a b <= 0] is a
      total preorder. *)
Hypothesis compare_total : forall a b, 0 < compareFn a b -> compareFn b a <= 0.
Hypothesis compare_trans :
    forall a b c, compareFn a b <= 0 -> compareFn b c <= 0 -> compareFn a c <= 0.

Lemma sort_insert_sorted x l :
    StronglySorted (fun a b => compareFn a b <= 0) l ->
    StronglySorted (fun a b => compareFn a b <= 0) (sort_insert compareFn x l).
Proof using compare_total compare_trans.
    induction 1 as [|y l Hl IH Hy]; simpl.
    - repeat constructor.
    - destruct (Z.leb_spec (compareFn x y) 0) as [Hle|Hgt].
      + constructor; [by constructor|].
        constructor; [done|].
        eapply Forall_impl; [exact Hy|]. intros z Hz. by eapply compare_trans.
      + constructor; [done|].
        eapply Permutation_Forall; [symmetry; apply sort_insert_perm|].
        constructor; [by apply compare_total | done].
Qed.

Lemma array_sort_sorted l :
    StronglySorted (fun a b => compareFn a b <= 0) (array_sort compareFn l).
Proof using compare_total compare_trans.
    induction l as [|x l IH]; simpl; [constructor|].
    by apply sort_insert_sorted.
Qed.
End Ordered.
End ArraySortFacts.

(** ** Version log: [init] and [getLastVersion] *)

Lemma init_perm content : Permutation (VersionLog.init content) content.
Proof. apply array_sort_perm. Qed.

Lemma init_sorted content :
  StronglySorted (fun a b => timestamp a >= timestamp b) (VersionLog.init content).
Proof.
  assert (Hs : StronglySorted (fun a b => VersionLog.compareFn a b <= 0)
                 (VersionLog.init content)).
  { apply array_sort_sorted; unfold VersionLog.compareFn; intros; lia. }
  induction Hs as [|x l Hl IH Hx]; constructor; [done|].
  eapply Forall_impl; [exact Hx|].
  unfold VersionLog.compareFn. intros y Hy. simpl in Hy. lia.
Qed.

(** Snapshots with the same timestamp keep the order they came in. *)
Lemma init_stable content t :
  filter (fun r => timestamp r = t) (VersionLog.init content)
  = filter (fun r => timestamp r = t) content.
Proof.
  unfold VersionLog.init. induction content as [|x l IH]; simpl; [done|].
  rewrite !filter_cons, <- IH.
  pose proof (sort_insert_filter VersionLog.compareFn
    (fun r => bool_decide (timestamp r = t)) x
    (array_sort VersionLog.compareFn l)) as Hf.
  assert (Heq : forall l0 : list LogRecord,
    filter (fun r => timestamp r = t) l0
    = filter (fun r => bool_decide (timestamp r = t)) l0).
  { intros l0. apply list_filter_iff. intros r.
    by rewrite bool_decide_spec. }
  rewrite !Heq, Hf.
  - rewrite filter_cons. destruct (decide (timestamp x = t)) as [Hx|Hx].
    + rewrite decide_True; [done|]. by apply bool_decide_pack.
    + rewrite decide_False; [done|]. intros Hp. by apply bool_decide_unpack in Hp.
  - unfold VersionLog.compareFn. intros y Hy Hx.
    apply bool_decide_eq_true in Hx. apply bool_decide_eq_false. lia.
Qed.

(** On the object, [init] leaves in [this.record] the sorted contents of
    its argument, whatever the log held before. *)
Lemma Heap_init_record content st :
  Heap.record (Heap.init content st)
  = VersionLog.init (Heap.arrays st !!! content).
Proof.
  unfold Heap.record, Heap.init, Heap.array_slice, Heap.array_sort_in_place.
  simpl. rewrite !lookup_total_insert_eq. unfold VersionLog.slice.
  by rewrite drop_0.
Qed.

(** C7: [init] replaces the history by the given snapshots in
    descending order of timestamp (a stable rearrangement of them), and
    [getLastVersion] then returns the snapshot at index 0, whose
    timestamp is the greatest, or [undefined] on an empty log. *)
Theorem init_sorted_descending_last_is_max (content : list LogRecord) :
  let log := VersionLog.init content in
  Permutation log content
  /\ StronglySorted (fun a b => timestamp a >= timestamp b) log
  /\ (forall t, filter (fun r => timestamp r = t) log
                = filter (fun r => timestamp r = t) content)
  /\ (forall ref st, Heap.arrays st !!! ref = content ->
        Heap.record (Heap.init ref st) = log)
  /\ VersionLog.getLastVersion log = head log
  /\ match VersionLog.getLastVersion log with
     | Some v => In v content /\ forall r, In r content -> timestamp r <= timestamp v
     | None => content = []
     end.
Proof.
  intros log. pose proof (init_perm content) as Hperm.
  pose proof (init_sorted content) as Hsorted. fold log in Hperm, Hsorted.
  split; [done|]. split; [done|]. split; [apply init_stable|].
  split; [intros ref st <-; apply Heap_init_record|].
  assert (Hhead : VersionLog.getLastVersion log = head log) by (by destruct log).
  split; [done|]. rewrite Hhead.
  destruct log as [|v log'] eqn:Hlog; simpl.
  - by apply Permutation_nil.
  - split.
    + eapply Permutation_in; [exact Hperm | by left].
    + intros r Hr. apply (Permutation_in _ (Permutation_sym Hperm)) in Hr.
      destruct Hr as [<-|Hr]; [lia|].
      apply StronglySorted_inv in Hsorted as [_ Hall].
      rewrite Forall_forall in Hall. apply list_elem_of_In in Hr.
      specialize (Hall r Hr). lia.
Qed.

(** The ordering example of the specification: timestamps 5, 20, 1. *)
Example init_5_20_1 :
  timestamp <$> VersionLog.getLastVersion
    (VersionLog.init [mkLogRecord 5 [] []; mkLogRecord 20 [] []; mkLogRecord 1 [] []])
  = Some 20.
Proof. reflexivity. Qed.

(** ** Version log: [findVersion] *)

Lemma fileTest_matches filename_ hash_ f :
  VersionLog.fileTest filename_ hash_ f = true
  <-> matches_nonempty filename_ hash_ f.
Proof.
  unfold VersionLog.fileTest, matches_nonempty, truthy, strictEqOpt.
  rewrite andb_true_iff, orb_true_iff, String.eqb_eq.
  destruct hash_ as [h|]; simpl.
  - rewrite negb_involutive, !String.eqb_eq. intuition congruence.
  - intuition congruence.
Qed.

Lemma filesLoop_exists filename_ hash_ files :
  VersionLog.filesLoop filename_ hash_ files = true
  <-> exists f, In f files /\ matches_nonempty filename_ hash_ f.
Proof.
  induction files as [|f files IH]; simpl.
  - split; [discriminate | by intros (? & [] & _)].
  - destruct (VersionLog.fileTest filename_ hash_ f) eqn:Ht.
    + split; [|done]. intros _. exists f. split; [by left|].
      by apply fileTest_matches.
    + rewrite IH. split.
      * intros (g & Hg & Hm). exists g. by split; [right|].
      * intros (g & [<-|Hg] & Hm); [|by exists g].
        apply fileTest_matches in Hm. congruence.
Qed.

Lemma findLoop_first filename_ hash_ rest : forall i,
  match VersionLog.findLoop filename_ hash_ rest i with
  | Some found =>
      (i <= versionIndex found)%nat
      /\ (exists r, rest !! (versionIndex found - i)%nat = Some r
                    /\ vd_timestamp found = timestamp r
                    /\ containsMatch (matches_nonempty filename_ hash_) r)
      /\ (forall k r, (i + k < versionIndex found)%nat -> rest !! k = Some r ->
             ~ containsMatch (matches_nonempty filename_ hash_) r)
  | None =>
      forall k r, rest !! k = Some r ->
        ~ containsMatch (matches_nonempty filename_ hash_) r
  end.
Proof.
  induction rest as [|s rest IH]; intros i; simpl.
  - intros k r Hk. by rewrite lookup_nil in Hk.
  - destruct (VersionLog.filesLoop filename_ hash_ (upload s ++ omit s)) eqn:Hf.
    + simpl. split; [lia|]. split.
      * exists s. rewrite Nat.sub_diag. split; [done|]. split; [done|].
        by apply filesLoop_exists.
      * intros; lia.
    + assert (Hs : ~ containsMatch (matches_nonempty filename_ hash_) s).
      { intros Hc. apply filesLoop_exists in Hc. congruence. }
      specialize (IH (S i)).
      destruct (VersionLog.findLoop filename_ hash_ rest (S i)) as [found|].
      * destruct IH as (Hle & (r & Hr & Hts & Hc) & Hbefore).
        split; [lia|]. split.
        -- exists r. replace (versionIndex found - i)%nat
             with (S (versionIndex found - S i)) by lia.
           by simpl.
        -- intros [|k] r' Hlt Hk; simpl in Hk.
           ++ by injection Hk as <-.
           ++ apply (Hbefore k r'); [lia | done].
      * intros [|k] r Hk; simpl in Hk.
        -- by injection Hk as <-.
        -- by apply (IH k r).
Qed.

Lemma findVersion_scan
    (record : list LogRecord) (filename_ : string) (hash_ : option string)
    (startIndex : option nat) :
  firstVersionFrom (matches_nonempty filename_ hash_) record
    (default 0%nat startIndex)
    (VersionLog.findVersion record filename_ hash_ startIndex).
Proof.
  unfold VersionLog.findVersion, firstVersionFrom.
  set (i := default 0%nat startIndex).
  pose proof (findLoop_first filename_ hash_ (drop i record) i) as Hl.
  destruct (VersionLog.findLoop filename_ hash_ (drop i record) i) as [found|].
  - destruct Hl as (Hle & (r & Hr & Hts & Hc) & Hbefore).
    split; [done|]. split.
    + exists r. rewrite lookup_drop in Hr.
      replace (i + (versionIndex found - i))%nat with (versionIndex found) in Hr by lia.
      done.
    + intros j r' [Hlo Hhi] Hj. apply (Hbefore (j - i)%nat r'); [lia|].
      rewrite lookup_drop. by replace (i + (j - i))%nat with j by lia.
  - intros j r Hlo Hj. apply (Hl (j - i)%nat r).
    rewrite lookup_drop. by replace (i + (j - i))%nat with j by lia.
Qed.

(** C5, as amended: [findVersion] returns the index and timestamp of the
    first snapshot, from [startIndex] toward older versions, that holds
    among its upload and omit entries a FileRecord with the filename of
    the argument and, when a non-empty hash is given, with that hash; it
    returns [undefined] when there is none. An empty-string hash is
    treated as no hash. *)
Theorem findVersion_first_match_nonempty_hash
    (record : list LogRecord) (filename_ : string) (hash_ : option string)
    (startIndex : option nat) :
  firstVersionFrom (matches_nonempty filename_ hash_) record
    (default 0%nat startIndex)
    (VersionLog.findVersion record filename_ hash_ startIndex).
Proof. apply findVersion_scan. Qed.

Example findVersion_a_js :
  VersionLog.findVersion log_a_js "a.js" None None = Some (mkVersionData 0 20).
Proof. reflexivity. Qed.

(** C5, as stated, fails for a hash that is provided and empty:
    [findVersion] for [a.js] with the empty string as hash answers
    version 0, which holds no FileRecord whose hash is the empty
    string. *)
Lemma findVersion_empty_hash_ignored :
  VersionLog.findVersion log_a_js "a.js" (Some EmptyString) None
    = Some (mkVersionData 0 20)
  /\ ~ firstVersionFrom (matches_provided "a.js" (Some EmptyString)) log_a_js 0
        (VersionLog.findVersion log_a_js "a.js" (Some EmptyString) None).
Proof.
  split; [reflexivity|].
  change (VersionLog.findVersion log_a_js "a.js" (Some EmptyString) None)
    with (Some (mkVersionData 0 20)).
  intros (_ & (r & Hr & _ & f & Hf & _ & Hh) & _).
  simpl in Hr. injection Hr as <-. simpl in Hf.
  destruct Hf as [<-|[]]. discriminate Hh.
Qed.

(** ** Expiry engine: [initCleanStatus] *)

(** A file recorded in the snapshot at index [j] is found by
    [findVersion(filename)], at index [j] or before. *)
Lemma findVersion_of_recorded (record : list LogRecord) j snap f :
  record !! j = Some snap ->
  In f (upload snap ++ omit snap) ->
  exists found,
    VersionLog.findVersion record (filename f) None None = Some found
    /\ (versionIndex found <= j)%nat.
Proof.
  intros Hj Hf.
  pose proof (findVersion_scan record (filename f) None None) as Hscan.
  assert (Hc : containsMatch (matches_nonempty (filename f) None) snap).
  { exists f. by repeat split. }
  destruct (VersionLog.findVersion record (filename f) None None) as [found|];
    simpl in Hscan.
  - exists found. split; [done|].
    destruct Hscan as (_ & _ & Hbefore).
    destruct (le_lt_dec (versionIndex found) j) as [|Hlt]; [done|].
    exfalso. apply (Hbefore j snap); [lia | done | done].
  - exfalso. apply (Hscan j snap); [lia | done | done].
Qed.

Lemma forEach_cons {A St} (body : A -> nat -> St -> Result St) x arr i s :
  forEach body (x :: arr) i s
  = match body x i s with
    | Ok s' => forEach body arr (S i) s'
    | Throw e => Throw e
    end.
Proof. reflexivity. Qed.

Lemma cleanFile_found record e f i cleanStatus found :
  VersionLog.findVersion record (filename f) None None = Some found ->
  QiniuCDNPlugin.cleanFile record e f i cleanStatus
  = Ok (cleanStatus ++ List.filter (stillExpired record e) [f]).
Proof.
  intros Hfound. unfold QiniuCDNPlugin.cleanFile, stillExpired. simpl.
  rewrite Hfound. destruct (Nat.leb e (versionIndex found)); [done|].
  by rewrite app_nil_r.
Qed.

Lemma forEach_cleanFile record e files : forall i cleanStatus,
  recorded record files ->
  forEach (QiniuCDNPlugin.cleanFile record e) files i cleanStatus
  = Ok (cleanStatus ++ List.filter (stillExpired record e) files).
Proof.
  induction files as [|f files IH]; intros i cleanStatus Hrec.
  - simpl. by rewrite app_nil_r.
  - destruct (Hrec f (or_introl eq_refl)) as (j & snap & Hj & Hf).
    destruct (findVersion_of_recorded record j snap f Hj Hf) as (found & Hfound & _).
    assert (Hrest : recorded record files) by (intros g Hg; apply Hrec; by right).
    rewrite forEach_cons, (cleanFile_found _ _ _ _ _ _ Hfound), IH by done.
    rewrite <- app_assoc. f_equal. f_equal.
    change (f :: files) with ([f] ++ files). by rewrite List.filter_app.
Qed.

Lemma recorded_app record l1 l2 :
  recorded record l1 -> recorded record l2 -> recorded record (l1 ++ l2).
Proof.
  intros H1 H2 f Hf. apply in_app_or in Hf as [Hf|Hf]; [by apply H1 | by apply H2].
Qed.

Lemma recorded_upload record j snap :
  record !! j = Some snap -> recorded record (upload snap).
Proof.
  intros Hj f Hf. exists j, snap. split; [done|]. apply in_or_app. by left.
Qed.

Lemma recorded_omit record j snap :
  record !! j = Some snap -> recorded record (omit snap).
Proof.
  intros Hj f Hf. exists j, snap. split; [done|]. apply in_or_app. by right.
Qed.

(** The outer loop over the tail [rest] of [arr], entered at [index]. *)
Lemma forEach_cleanVersion record e arrLength rest : forall index cleanStatus,
  (forall v, In v rest -> exists j, record !! j = Some v) ->
  arrLength = (index + length rest)%nat ->
  forEach (QiniuCDNPlugin.cleanVersion record e arrLength) rest index cleanStatus
  = Ok (cleanStatus
        ++ List.filter (stillExpired record e)
             (flat_map upload rest ++ from_option omit [] (last rest))).
Proof.
  induction rest as [|v rest IH]; intros index cleanStatus Hin Hlen.
  - simpl. by rewrite app_nil_r.
  - destruct (Hin v (or_introl eq_refl)) as (j & Hj).
    rewrite forEach_cons. unfold QiniuCDNPlugin.cleanVersion at 1.
    destruct rest as [|v' rest'].
    + simpl in Hlen. replace (arrLength - 1)%nat with index by lia.
      rewrite Nat.eqb_refl, forEach_cleanFile; simpl.
      * by rewrite app_nil_r.
      * apply recorded_app; [by eapply recorded_upload | by eapply recorded_omit].
    + simpl in Hlen. destruct (Nat.eqb_spec index (arrLength - 1)) as [Heq|_]; [lia|].
      rewrite app_nil_r, forEach_cleanFile by (by eapply recorded_upload).
      rewrite IH.
      * rewrite <- app_assoc. f_equal. f_equal.
        change (last (v :: v' :: rest')) with (last (v' :: rest')).
        change (flat_map upload (v :: v' :: rest'))
          with (upload v ++ flat_map upload (v' :: rest')).
        rewrite <- (app_assoc (upload v)). symmetry. apply List.filter_app.
      * intros w Hw. apply Hin. by right.
      * simpl. lia.
Qed.

Lemma initCleanStatus_run record expire cleanStatus :
  match VersionLog.getLastVersion record with
  | Some lastVersion =>
      QiniuCDNPlugin.initCleanStatus record expire cleanStatus
      = Ok (cleanStatus ++ cleanSet record lastVersion expire)
  | None =>
      QiniuCDNPlugin.initCleanStatus record expire cleanStatus
      = if isNumber (time expire) then Throw ReadTimestampOfUndefined
        else Ok cleanStatus
  end.
Proof.
  unfold QiniuCDNPlugin.initCleanStatus, cleanSet, policyDeadline, candidateFiles.
  assert (Hdrop : forall e v, In v (drop e record) -> exists j, record !! j = Some v).
  { intros e v Hv. apply list_elem_of_In, list_elem_of_lookup in Hv as [k Hk].
    rewrite lookup_drop in Hk. eauto. }
  destruct (VersionLog.getLastVersion record) as [lastVersion|] eqn:Hlast.
  - destruct (time expire) as [t|]; simpl;
      unfold VersionLog.getVersions, VersionLog.slice;
      by apply forEach_cleanVersion; [apply Hdrop|].
  - destruct record; [|discriminate]. by destruct (time expire).
Qed.

Lemma candidateFiles_recorded record e :
  recorded record (candidateFiles record e).
Proof.
  unfold candidateFiles. apply recorded_app.
  - intros f Hf. apply in_flat_map in Hf as (v & Hv & Hf).
    apply list_elem_of_In, list_elem_of_lookup in Hv as [k Hk].
    rewrite lookup_drop in Hk. by eapply recorded_upload.
  - destruct (last (drop e record)) as [v|] eqn:Hlast; [|by intros f []].
    apply last_Some in Hlast as [l' Hl'].
    assert (Hv : v ∈ drop e record) by (rewrite Hl'; set_solver).
    apply list_elem_of_lookup in Hv as [k Hk].
    rewrite lookup_drop in Hk. by eapply recorded_omit.
Qed.

(** C2: [initCleanStatus] appends to the clean set exactly the
    candidates that [findVersion] resolves to an index at or past
    [expireIndex], where the deadline is [lastVersion.timestamp - time]
    when [time] is a number and undefined otherwise, [expireIndex] is
    [getFirstExpireVersionIndex(versions, deadline)], and the candidates
    are the upload entries of the snapshots from [expireIndex] on with
    the omit entries of the oldest of them. *)
Theorem initCleanStatus_computes_cleanSet
    (record : list LogRecord) (expire : ExpireOption)
    (cleanStatus : list LogDetail) :
  match VersionLog.getLastVersion record with
  | Some lastVersion =>
      let deadline := policyDeadline lastVersion expire in
      let expireIndex :=
        VersionLog.getFirstExpireVersionIndex record (versions expire) deadline in
      QiniuCDNPlugin.initCleanStatus record expire cleanStatus
      = Ok (cleanStatus ++ cleanSet record lastVersion expire)
      /\ policyDeadline lastVersion expire
         = (fun t => timestamp lastVersion - t) <$> time expire
      /\ (forall f,
           In f (cleanSet record lastVersion expire)
           <-> In f (candidateFiles record expireIndex)
               /\ exists found,
                    VersionLog.findVersion record (filename f) None None = Some found
                    /\ (expireIndex <= versionIndex found)%nat)
  | None =>
      QiniuCDNPlugin.initCleanStatus record expire cleanStatus
      = if isNumber (time expire) then Throw ReadTimestampOfUndefined
        else Ok cleanStatus
  end.
Proof.
  pose proof (initCleanStatus_run record expire cleanStatus) as Hrun.
  destruct (VersionLog.getLastVersion record) as [lastVersion|]; [|done].
  split; [done|]. split; [unfold policyDeadline; by destruct (time expire)|].
  intros f. unfold cleanSet. rewrite List.filter_In. unfold stillExpired.
  split.
  - intros [Hc Hk]. split; [done|].
    destruct (VersionLog.findVersion record (filename f) None None) as [found|];
      [|discriminate].
    exists found. split; [done|]. by apply Nat.leb_le.
  - intros [Hc (found & -> & Hle)]. split; [done|]. by apply Nat.leb_le.
Qed.

(** C9: a file recorded in a snapshot of the log is found by
    [findVersion(filename)] at that snapshot or a more recent one; every
    candidate of [initCleanStatus] is such a file, so reading
    [versionIndex] from the result never meets [undefined]. *)
Theorem initCleanStatus_findVersion_defined
    (record : list LogRecord) (expire : ExpireOption)
    (cleanStatus : list LogDetail) :
  (forall j snap f,
     record !! j = Some snap -> In f (upload snap ++ omit snap) ->
     exists found,
       VersionLog.findVersion record (filename f) None None = Some found
       /\ (versionIndex found <= j)%nat)
  /\ (forall e f, In f (candidateFiles record e) ->
        is_Some (VersionLog.findVersion record (filename f) None None))
  /\ QiniuCDNPlugin.initCleanStatus record expire cleanStatus
     <> Throw ReadVersionIndexOfUndefined.
Proof.
  split; [apply findVersion_of_recorded|]. split.
  - intros e f Hf.
    destruct (candidateFiles_recorded record e f Hf) as (j & snap & Hj & Hin).
    destruct (findVersion_of_recorded record j snap f Hj Hin) as (found & -> & _).
    by exists found.
  - pose proof (initCleanStatus_run record expire cleanStatus) as Hrun.
    destruct (VersionLog.getLastVersion record); rewrite Hrun; [done|].
    by destruct (isNumber (time expire)).
Qed.

(** ** Content hash *)

Section HashFacts.
Context `{NodeBuiltins}.

Lemma chunkLoop_chunks size (size_pos : (0 < size)%nat) : forall n buf chunkHashes,
  (length buf <= n)%nat ->
  exists chunks,
    QiniuHelper.chunkLoop size size_pos buf chunkHashes
    = chunkHashes ++ map sha1_digest chunks
    /\ isChunking size buf chunks.
Proof.
  induction n as [|n IH]; intros buf chunkHashes Hn.
  - destruct buf; [|simpl in Hn; lia]. exists []. simp chunkLoop.
    split; [by rewrite app_nil_r|]. split; [done|].
    intros i c Hi. by rewrite lookup_nil in Hi.
  - destruct buf as [|b buf'].
    { exists []. simp chunkLoop. split; [by rewrite app_nil_r|].
      split; [done|]. intros i c Hi. by rewrite lookup_nil in Hi. }
    simp chunkLoop. cbv zeta.
    remember (b :: buf') as buf eqn:Hbuf.
    assert (Hlen : (0 < length buf)%nat) by (subst buf; simpl; lia).
    clear Hbuf.
    destruct (IH (drop size buf)
                (chunkHashes ++ [QiniuHelper.hashChunk (take size buf)]))
      as (chunks & Heq & Hconcat & Hchunks).
    { rewrite length_drop. lia. }
    exists (take size buf :: chunks). split.
    + rewrite Heq, <- app_assoc. done.
    + split; [simpl; by rewrite Hconcat, take_drop|].
      intros [|i] c Hi; simpl in Hi.
      * injection Hi as <-. rewrite length_take. split; [lia|].
        intros Hmore. destruct chunks as [|c' chunks']; [simpl in Hmore; lia|].
        destruct (Hchunks 0%nat c' eq_refl) as [Hc' _].
        assert (Hrest : (0 < length (drop size buf))%nat).
        { rewrite <- Hconcat. simpl. rewrite length_app. lia. }
        rewrite length_drop in Hrest. lia.
      * destruct (Hchunks i c Hi) as [Hc Hfull]. split; [done|].
        intros Hmore. apply Hfull. simpl in Hmore. lia.
Qed.

Lemma urlSafe_chars s :
  list_ascii_of_string (QiniuHelper.urlSafe s)
  = map urlSafeChar (list_ascii_of_string s).
Proof.
  induction s as [|c s IH]; simpl; [done|]. rewrite IH. f_equal.
  unfold urlSafeChar.
  destruct (Ascii.eqb_spec c "+"); [subst; done|].
  destruct (Ascii.eqb_spec c "/"); [subst; done|]. done.
Qed.

Lemma BUFFER_LENGTH_OF_4M_value :
  QiniuHelper.BUFFER_LENGTH_OF_4M = 4 * 1024 * 1024.
Proof. reflexivity. Qed.

(** C3: [hashFile] is the URL-safe base64 (standard base64 with [+]
    turned into [-] and [/] into [_], nothing else changed) of: byte
    0x16 and the SHA-1 of the content when the content has at most
    4*1024*1024 bytes; otherwise byte 0x96 and the SHA-1 of the
    concatenated SHA-1 digests of the consecutive 4 MiB chunks of the
    content, the last chunk possibly shorter. *)
Theorem hashFile_qiniu_etag (buf : Buffer) :
  exists fileHash,
    QiniuHelper.hashFile buf = QiniuHelper.urlSafe (base64 fileHash)
    /\ (if Z.of_nat (length buf) <=? 4 * 1024 * 1024
        then fileHash = Byte.x16 :: sha1_digest buf
        else exists chunks,
               isChunking (Z.to_nat (4 * 1024 * 1024)) buf chunks
               /\ fileHash
                  = Byte.x96 :: sha1_digest (concat (map sha1_digest chunks)))
    /\ (forall s, list_ascii_of_string (QiniuHelper.urlSafe s)
                  = map urlSafeChar (list_ascii_of_string s)).
Proof.
  unfold QiniuHelper.hashFile.
  change (4 * 1024 * 1024) with QiniuHelper.BUFFER_LENGTH_OF_4M.
  destruct (Z.of_nat (length buf) <=? QiniuHelper.BUFFER_LENGTH_OF_4M) eqn:Hsmall.
  - exists (Byte.x16 :: sha1_digest buf).
    split; [done|]. split; [done|]. apply urlSafe_chars.
  - destruct (chunkLoop_chunks _ QiniuHelper.BUFFER_LENGTH_OF_4M_pos
                (length buf) buf [] (Nat.le_refl _))
      as (chunks & Heq & Hchunks).
    exists (Byte.x96 :: sha1_digest (concat (map sha1_digest chunks))).
    split; [by rewrite Heq|]. split; [|apply urlSafe_chars].
    by exists chunks.
Qed.
End HashFacts.

(** ** Diff engine *)

Lemma find_firstNamed remoteFiles fileUri :
  match List.find (fun r => String.eqb (filename r) fileUri) remoteFiles with
  | Some r => firstNamed remoteFiles fileUri r
  | None => forall r, In r remoteFiles -> filename r <> fileUri
  end.
Proof.
  induction remoteFiles as [|x l IH]; simpl; [by intros r []|].
  destruct (String.eqb_spec (filename x) fileUri) as [Hx|Hx].
  - exists 0%nat. split; [done|]. split; [done|]. intros; lia.
  - destruct (List.find _ l) as [r|].
    + destruct IH as (i & Hi & Hname & Hbefore). exists (S i).
      split; [done|]. split; [done|].
      intros [|j] r' Hlt Hj; simpl in Hj.
      * by injection Hj as <-.
      * apply (Hbefore j); [lia | done].
    + intros r [<-|Hr]; [done | by apply IH].
Qed.

Lemma firstNamed_unique remoteFiles fileUri r r' :
  firstNamed remoteFiles fileUri r -> firstNamed remoteFiles fileUri r' -> r = r'.
Proof.
  intros (i & Hi & Hn & Hb) (i' & Hi' & Hn' & Hb').
  destruct (lt_eq_lt_dec i i') as [[Hlt|Heq]|Hgt].
  - by destruct (Hb' i r Hlt Hi).
  - subst i'. congruence.
  - by destruct (Hb i' r' Hgt Hi').
Qed.

Lemma firstNamed_In remoteFiles fileUri r :
  firstNamed remoteFiles fileUri r -> In r remoteFiles /\ filename r = fileUri.
Proof.
  intros (i & Hi & Hn & _). split; [|done].
  apply list_elem_of_In, list_elem_of_lookup. eauto.
Qed.

(** The three cases of the lookup. *)
Lemma bucketOf_cases remoteFiles fileUri fileHash :
  (bucketOf remoteFiles fileUri fileHash = Upload
     <-> forall r, In r remoteFiles -> filename r <> fileUri)
  /\ (bucketOf remoteFiles fileUri fileHash = Omit
     <-> exists r, firstNamed remoteFiles fileUri r /\ hash r = fileHash)
  /\ (bucketOf remoteFiles fileUri fileHash = Overwrite
     <-> exists r, firstNamed remoteFiles fileUri r /\ hash r <> fileHash)
  /\ bucketOf remoteFiles fileUri fileHash <> Excluded.
Proof.
  unfold bucketOf. pose proof (find_firstNamed remoteFiles fileUri) as Hfind.
  destruct (List.find _ remoteFiles) as [r|].
  - pose proof (firstNamed_In _ _ _ Hfind) as [Hin Hname].
    destruct (String.eqb_spec (hash r) fileHash) as [Hh|Hh].
    + split; [|split; [|split]]; try done.
      * split; [done|]. intros Hnone. by destruct (Hnone r Hin).
      * split; [by exists r|done].
      * split; [done|]. intros (r' & Hr' & Hne).
        by rewrite (firstNamed_unique _ _ _ _ Hfind Hr') in Hh.
    + split; [|split; [|split]]; try done.
      * split; [done|]. intros Hnone. by destruct (Hnone r Hin).
      * split; [done|]. intros (r' & Hr' & Heq).
        by rewrite (firstNamed_unique _ _ _ _ Hfind Hr') in Hh.
      * split; [by exists r|done].
  - split; [|split; [|split]]; try done.
    + split; [done|]. intros (r & Hr & _).
      apply firstNamed_In in Hr as [Hin Hname]. by destruct (Hfind r Hin).
    + split; [done|]. intros (r & Hr & _).
      apply firstNamed_In in Hr as [Hin Hname]. by destruct (Hfind r Hin).
Qed.

(** With remote filenames that are unique, the file looked up is the
    only one of that name. *)
Lemma firstNamed_unique_names remoteFiles fileUri r :
  NoDup (filename <$> remoteFiles) ->
  In r remoteFiles -> filename r = fileUri ->
  firstNamed remoteFiles fileUri r.
Proof.
  intros Hnodup Hin Hname.
  pose proof (find_firstNamed remoteFiles fileUri) as Hfind.
  destruct (List.find _ remoteFiles) as [r'|]; [|by destruct (Hfind r Hin)].
  replace r with r'; [done|].
  apply firstNamed_In in Hfind as [Hin' Hname'].
  apply list_elem_of_In, list_elem_of_lookup in Hin as [i Hi].
  apply list_elem_of_In, list_elem_of_lookup in Hin' as [i' Hi'].
  assert (i = i'); [|congruence].
  eapply NoDup_lookup; [exact Hnodup | |].
  - rewrite list_lookup_fmap, Hi. reflexivity.
  - rewrite list_lookup_fmap, Hi'. simpl. congruence.
Qed.

Lemma bucketOf_unique_names remoteFiles fileUri fileHash :
  NoDup (filename <$> remoteFiles) ->
  (bucketOf remoteFiles fileUri fileHash = Omit
     <-> exists r, In r remoteFiles /\ filename r = fileUri /\ hash r = fileHash)
  /\ (bucketOf remoteFiles fileUri fileHash = Overwrite
     <-> exists r, In r remoteFiles /\ filename r = fileUri /\ hash r <> fileHash).
Proof.
  intros Hnodup.
  destruct (bucketOf_cases remoteFiles fileUri fileHash) as (_ & Ho & Hw & _).
  rewrite Ho, Hw. split; split.
  - intros (r & Hr & Hh). apply firstNamed_In in Hr as [Hin Hn]. by exists r.
  - intros (r & Hin & Hn & Hh). exists r. split; [|done].
    by apply firstNamed_unique_names.
  - intros (r & Hr & Hh). apply firstNamed_In in Hr as [Hin Hn]. by exists r.
  - intros (r & Hin & Hn & Hh). exists r. split; [|done].
    by apply firstNamed_unique_names.
Qed.

Section DiffFacts.
Context `{PathModule}.

Lemma excludeFilter_buckets exclude filePaths : forall bucket,
  QiniuCDNPlugin.excludeFilter exclude filePaths bucket
  = (bucket ++ map excludedItem
                 (List.filter (QiniuCDNPlugin.excludeTest exclude) filePaths),
     List.filter (fun p => negb (QiniuCDNPlugin.excludeTest exclude p)) filePaths).
Proof.
  induction filePaths as [|p l IH]; intros bucket; simpl.
  - by rewrite app_nil_r.
  - destruct (QiniuCDNPlugin.excludeTest exclude p); simpl.
    + rewrite IH, <- app_assoc. done.
    + by rewrite IH.
Qed.

Lemma findRemote_find remoteFiles fileUri :
  QiniuCDNPlugin.findRemote remoteFiles fileUri
  = List.find (fun r => String.eqb (filename r) fileUri) remoteFiles.
Proof.
  induction remoteFiles as [|x l IH]; simpl; [done|]. by rewrite IH.
Qed.

Lemma entriesIn_cons b remoteFiles outputPath f l :
  entriesIn b remoteFiles outputPath (f :: l)
  = (if decide (bucketOfFile remoteFiles outputPath f = b)
     then [logItem outputPath f] else [])
    ++ entriesIn b remoteFiles outputPath l.
Proof.
  unfold entriesIn. rewrite filter_cons.
  by destruct (decide (bucketOfFile remoteFiles outputPath f = b)).
Qed.

Lemma classifyFile_pushOn outputPath status fileSource f :
  QiniuCDNPlugin.classifyFile outputPath (status, fileSource) f
  = (pushOn (bucketOfFile (us_remote status) outputPath f)
       (logItem outputPath f) status,
     <[QiniuCDNPlugin.fileUriOf outputPath f := content f]> fileSource).
Proof.
  unfold QiniuCDNPlugin.classifyFile, bucketOfFile, bucketOf, pushOn, logItem.
  rewrite findRemote_find.
  destruct (List.find _ (us_remote status)) as [r|];
    [destruct (String.eqb (hash r) (lf_hash f))|];
    simpl; by rewrite !app_nil_r.
Qed.

(** The loop over the local files appends to each bucket the entries
    of the files that belong to it, and touches nothing else of the
    status. *)
Lemma classifyFiles_buckets outputPath localFiles : forall status fileSource,
  let status' :=
    (QiniuCDNPlugin.classifyFiles outputPath localFiles (status, fileSource)).1 in
  us_remote status' = us_remote status
  /\ us_exclude status' = us_exclude status
  /\ us_clean status' = us_clean status
  /\ us_omit status'
     = us_omit status ++ entriesIn Omit (us_remote status) outputPath localFiles
  /\ us_upload status'
     = us_upload status ++ entriesIn Upload (us_remote status) outputPath localFiles
  /\ us_overwrite status'
     = us_overwrite status
       ++ entriesIn Overwrite (us_remote status) outputPath localFiles.
Proof.
  induction localFiles as [|f l IH]; intros status fileSource.
  - simpl. unfold entriesIn. simpl. by rewrite !app_nil_r.
  - unfold QiniuCDNPlugin.classifyFiles. cbn [fold_left].
    rewrite classifyFile_pushOn.
    match goal with |- context [fold_left _ l (?s, ?m)] =>
      destruct (IH s m) as (H1 & H2 & H3 & H4 & H5 & H6) end.
    unfold QiniuCDNPlugin.classifyFiles in *. cbv zeta in *.
    rewrite H1, H2, H3, H4, H5, H6, !entriesIn_cons. simpl.
    pose proof (bucketOf_cases (us_remote status)
      (QiniuCDNPlugin.fileUriOf outputPath f) (lf_hash f)) as (_ & _ & _ & Hne).
    fold (bucketOfFile (us_remote status) outputPath f) in Hne.
    rewrite (decide_False _ _ Hne), app_nil_r, <- !app_assoc. done.
Qed.

(** The three buckets of the files that were read hold the entry of
    each of them once. *)
Lemma entriesIn_cover remoteFiles outputPath localFiles :
  Permutation
    (entriesIn Omit remoteFiles outputPath localFiles
     ++ entriesIn Upload remoteFiles outputPath localFiles
     ++ entriesIn Overwrite remoteFiles outputPath localFiles)
    (logItem outputPath <$> localFiles).
Proof.
  induction localFiles as [|f l IH]; [done|].
  rewrite !entriesIn_cons, fmap_cons.
  pose proof (bucketOf_cases remoteFiles
    (QiniuCDNPlugin.fileUriOf outputPath f) (lf_hash f)) as (_ & _ & _ & Hne).
  fold (bucketOfFile remoteFiles outputPath f) in Hne.
  destruct (bucketOfFile remoteFiles outputPath f) eqn:Hb; [done| | |]; simpl.
  - by constructor.
  - rewrite <- Permutation_middle. by constructor.
  - rewrite app_assoc, <- Permutation_middle, <- app_assoc. by constructor.
Qed.
End DiffFacts.

Section DiffTheorems.
Context `{PathModule}.

Lemma initUploadStatus_buckets outputPath exclude filePaths localFiles
    remoteFiles fileSource :
  let status :=
    (QiniuCDNPlugin.initUploadStatus outputPath exclude filePaths localFiles
       (QiniuCDNPlugin.statusWithRemote remoteFiles, fileSource)).1 in
  us_remote status = remoteFiles
  /\ us_clean status = []
  /\ us_exclude status
     = excludedItem <$> List.filter (QiniuCDNPlugin.excludeTest exclude) filePaths
  /\ us_omit status = entriesIn Omit remoteFiles outputPath localFiles
  /\ us_upload status = entriesIn Upload remoteFiles outputPath localFiles
  /\ us_overwrite status = entriesIn Overwrite remoteFiles outputPath localFiles.
Proof.
  unfold QiniuCDNPlugin.initUploadStatus, QiniuCDNPlugin.filteredFilePaths.
  rewrite excludeFilter_buckets. cbv zeta. cbn [fst snd].
  match goal with |- context [QiniuCDNPlugin.classifyFiles _ _ (?s, ?m)] =>
    destruct (classifyFiles_buckets outputPath localFiles s m)
      as (H1 & H2 & H3 & H4 & H5 & H6) end.
  cbv zeta in *. by rewrite H1, H2, H3, H4, H5, H6.
Qed.

Lemma filter_negb_length {A} (p : A -> bool) l :
  (length (List.filter p l) + length (List.filter (fun x => negb (p x)) l))%nat
  = length l.
Proof.
  induction l as [|x l IH]; simpl; [done|]. destruct (p x); simpl; lia.
Qed.

(** [filePath2Uri] normalises the separators. *)
Lemma filePath2Uri_normalizeSeparators (filepath : string) :
  utils.filePath2Uri filepath = normalizeSeparators filepath.
Proof.
  unfold normalizeSeparators.
  induction filepath as [|c rest IH]; simpl; [done | by rewrite IH].
Qed.

Lemma normalizeSeparators_no_backslash (path : string) :
  ~ In "\"%char (list_ascii_of_string (normalizeSeparators path)).
Proof.
  unfold normalizeSeparators. rewrite list_ascii_of_string_of_list_ascii.
  intros Hin. apply in_map_iff in Hin as (c & Hc & _).
  destruct (Ascii.eqb_spec c "\"%char) as [Heq|Hne]; [discriminate | done].
Qed.

(** The loop over the local files stores the content of every file
    under its filename; of two files with one filename the later
    stays. *)
Lemma classifyFiles_fileSource outputPath localFiles st f :
  In f localFiles ->
  exists f', In f' localFiles
    /\ QiniuCDNPlugin.fileUriOf outputPath f'
       = QiniuCDNPlugin.fileUriOf outputPath f
    /\ (QiniuCDNPlugin.classifyFiles outputPath localFiles st).2
         !! QiniuCDNPlugin.fileUriOf outputPath f
       = Some (content f').
Proof.
  unfold QiniuCDNPlugin.classifyFiles.
  induction localFiles as [|x l IH] using rev_ind; [done|].
  intros Hin. rewrite fold_left_app. cbn [fold_left].
  destruct (fold_left (QiniuCDNPlugin.classifyFile outputPath) l st)
    as [status fileSource] eqn:Hfold.
  rewrite classifyFile_pushOn. cbn [snd].
  destruct (decide (QiniuCDNPlugin.fileUriOf outputPath x
                    = QiniuCDNPlugin.fileUriOf outputPath f)) as [Heq|Hne].
  - exists x. split; [apply in_or_app; right; by left|]. split; [done|].
    rewrite <- Heq. apply lookup_insert_eq.
  - apply in_app_or in Hin as [Hin|[->|[]]]; [|done].
    destruct (IH Hin) as (f' & Hf' & Hname & Hlook).
    exists f'. split; [apply in_or_app; by left|]. split; [done|].
    rewrite lookup_insert_ne; done.
Qed.

(** The files that were read are the files of the asset keys that
    passed the exclude test. *)
Lemma readsOfKept_keys outputPath exclude filePaths localFiles :
  readsOfKept outputPath exclude filePaths localFiles ->
  (forall f, In f localFiles ->
     exists key, In key filePaths
       /\ QiniuCDNPlugin.excludeTest exclude key = false
       /\ filePath f = path_join outputPath key)
  /\ (forall key, In key filePaths ->
        QiniuCDNPlugin.excludeTest exclude key = false ->
        exists f, In f localFiles /\ filePath f = path_join outputPath key).
Proof.
  unfold readsOfKept. intros Hreads. split.
  - intros f Hf.
    assert (Hin : filePath f ∈ filePath <$> localFiles).
    { apply list_elem_of_fmap. exists f. split; [done | by apply list_elem_of_In]. }
    rewrite Hreads in Hin.
    apply list_elem_of_fmap in Hin as (key & Hpath & Hkey).
    apply list_elem_of_In, List.filter_In in Hkey as [Hkey Htest].
    exists key. split; [done|]. split; [|done].
    by destruct (QiniuCDNPlugin.excludeTest exclude key).
  - intros key Hkey Htest.
    assert (Hin : path_join outputPath key ∈ filePath <$> localFiles).
    { rewrite Hreads. apply list_elem_of_fmap. exists key. split; [done|].
      apply list_elem_of_In, List.filter_In. split; [done|]. by rewrite Htest. }
    apply list_elem_of_fmap in Hin as (f & Hpath & Hf).
    exists f. split; [by apply list_elem_of_In | done].
Qed.

(** C4: the diff puts each local file in exactly one bucket. The
    paths the exclude test matches are recorded under [exclude], with
    the hash [*EXCLUDED*], and are not read; a file that was read goes
    to [upload] when no remote file has its filename, to [omit] when
    the remote file of that name has its hash and to [overwrite] when
    that remote file has another hash; the four buckets together hold
    one entry for each local file. The filename that is compared with
    the remote filenames is the path of the file relative to the
    output directory with its separators normalised to [/]. Every file
    that was read is the file of an asset key that passed the exclude
    test, and every such key has its file; where [path.relative] gives
    back what [path.join] was given, up to separators, the filename is
    the separator-normalised asset key. An excluded entry has the
    separator-normalised name of an excluded key, no filename recorded
    in a bucket has a backslash, and the content that was read is
    stored under the filename that was compared. *)
Theorem initUploadStatus_partitions_local_files
    (outputPath : string) (exclude : ExcludeOption)
    (filePaths : list string) (localFiles : list LocalFile)
    (remoteFiles : list LogDetail) (fileSource : gmap string Buffer)
    (Hreads : readsOfKept outputPath exclude filePaths localFiles) :
  let status :=
    (QiniuCDNPlugin.initUploadStatus outputPath exclude filePaths localFiles
       (QiniuCDNPlugin.statusWithRemote remoteFiles, fileSource)).1 in
  us_exclude status
    = excludedItem <$> List.filter (QiniuCDNPlugin.excludeTest exclude) filePaths
  /\ (QiniuCDNPlugin.filteredFilePaths outputPath exclude filePaths
        (QiniuCDNPlugin.statusWithRemote remoteFiles)).2
     = path_join outputPath
         <$> List.filter (fun p => negb (QiniuCDNPlugin.excludeTest exclude p))
               filePaths
  /\ us_omit status = entriesIn Omit remoteFiles outputPath localFiles
  /\ us_upload status = entriesIn Upload remoteFiles outputPath localFiles
  /\ us_overwrite status = entriesIn Overwrite remoteFiles outputPath localFiles
  /\ (forall f,
        let fileUri := QiniuCDNPlugin.fileUriOf outputPath f in
        (bucketOfFile remoteFiles outputPath f = Upload
           <-> forall r, In r remoteFiles -> filename r <> fileUri)
        /\ (bucketOfFile remoteFiles outputPath f = Omit
           <-> exists r, firstNamed remoteFiles fileUri r /\ hash r = lf_hash f)
        /\ (bucketOfFile remoteFiles outputPath f = Overwrite
           <-> exists r, firstNamed remoteFiles fileUri r /\ hash r <> lf_hash f))
  /\ (NoDup (filename <$> remoteFiles) ->
      forall f,
        let fileUri := QiniuCDNPlugin.fileUriOf outputPath f in
        (bucketOfFile remoteFiles outputPath f = Omit
           <-> exists r, In r remoteFiles /\ filename r = fileUri
                         /\ hash r = lf_hash f)
        /\ (bucketOfFile remoteFiles outputPath f = Overwrite
           <-> exists r, In r remoteFiles /\ filename r = fileUri
                         /\ hash r <> lf_hash f))
  /\ Permutation
       (us_exclude status ++ us_omit status ++ us_upload status
        ++ us_overwrite status)
       ((excludedItem
           <$> List.filter (QiniuCDNPlugin.excludeTest exclude) filePaths)
        ++ (logItem outputPath <$> localFiles))
  /\ (length (us_exclude status) + length (us_omit status)
      + length (us_upload status) + length (us_overwrite status))%nat
     = length filePaths
  /\ (NoDup ((excludedItem
              <$> List.filter (QiniuCDNPlugin.excludeTest exclude) filePaths)
           ++ (logItem outputPath <$> localFiles)) ->
      NoDup (us_exclude status ++ us_omit status ++ us_upload status
             ++ us_overwrite status))
  /\ (forall f,
        QiniuCDNPlugin.fileUriOf outputPath f
        = normalizeSeparators (path_relative outputPath (filePath f)))
  /\ (forall f, In f localFiles ->
        exists key, In key filePaths
          /\ QiniuCDNPlugin.excludeTest exclude key = false
          /\ filePath f = path_join outputPath key
          /\ (relativeOfJoin outputPath filePaths ->
              filename (logItem outputPath f) = normalizeSeparators key))
  /\ (forall key, In key filePaths ->
        QiniuCDNPlugin.excludeTest exclude key = false ->
        exists f, In f localFiles /\ filePath f = path_join outputPath key)
  /\ (forall e, In e (us_exclude status)
        <-> exists key, In key filePaths
              /\ QiniuCDNPlugin.excludeTest exclude key = true
              /\ e = mkLogDetail (normalizeSeparators key) "*EXCLUDED*")
  /\ (forall e,
        In e (us_exclude status ++ us_omit status ++ us_upload status
              ++ us_overwrite status) ->
        ~ In "\"%char (list_ascii_of_string (filename e)))
  /\ (forall f, In f localFiles ->
        exists f', In f' localFiles
          /\ QiniuCDNPlugin.fileUriOf outputPath f'
             = QiniuCDNPlugin.fileUriOf outputPath f
          /\ (QiniuCDNPlugin.initUploadStatus outputPath exclude filePaths
                localFiles
                (QiniuCDNPlugin.statusWithRemote remoteFiles, fileSource)).2
               !! QiniuCDNPlugin.fileUriOf outputPath f
             = Some (content f')).
Proof.
  intros status.
  assert (Hname : forall f,
    QiniuCDNPlugin.fileUriOf outputPath f
    = normalizeSeparators (path_relative outputPath (filePath f))).
  { intros f. apply filePath2Uri_normalizeSeparators. }
  destruct (readsOfKept_keys outputPath exclude filePaths localFiles Hreads)
    as (Hkeys & Hfiles).
  destruct (initUploadStatus_buckets outputPath exclude filePaths localFiles
              remoteFiles fileSource) as (_ & _ & Hex & Hom & Hup & Hov).
  fold status in Hex, Hom, Hup, Hov.
  assert (Hcover :
    Permutation
      (us_exclude status ++ us_omit status ++ us_upload status
       ++ us_overwrite status)
      ((excludedItem
          <$> List.filter (QiniuCDNPlugin.excludeTest exclude) filePaths)
       ++ (logItem outputPath <$> localFiles))).
  { rewrite Hex, Hom, Hup, Hov. apply Permutation_app_head, entriesIn_cover. }
  split; [done|]. split.
  { unfold QiniuCDNPlugin.filteredFilePaths. by rewrite excludeFilter_buckets. }
  split; [done|]. split; [done|]. split; [done|]. split.
  { intros f fileUri.
    destruct (bucketOf_cases remoteFiles fileUri (lf_hash f)) as (Hu & Ho & Hw & _).
    done. }
  split.
  { intros Hnodup f fileUri.
    exact (bucketOf_unique_names remoteFiles fileUri (lf_hash f) Hnodup). }
  split; [done|].
  split.
  { apply Permutation_length in Hcover. apply Permutation_length in Hreads.
    rewrite !length_app, !length_fmap in Hcover.
    rewrite !length_fmap in Hreads.
    pose proof (filter_negb_length (QiniuCDNPlugin.excludeTest exclude) filePaths).
    rewrite Hex, length_fmap in *. lia. }
  split; [intros Hnodup; by rewrite Hcover|].
  split; [exact Hname|]. split.
  { intros f Hf. destruct (Hkeys f Hf) as (key & Hkey & Htest & Hpath).
    exists key. split; [done|]. split; [done|]. split; [done|].
    intros Hlaw. unfold logItem. cbn [filename].
    rewrite Hname, Hpath. by apply Hlaw. }
  split; [exact Hfiles|]. split.
  { intros e. rewrite Hex. split.
    - intros Hin. apply list_elem_of_In, list_elem_of_fmap in Hin as (key & -> & Hkey).
      apply list_elem_of_In, List.filter_In in Hkey as [Hkey Htest].
      exists key. split; [done|]. split; [done|].
      unfold excludedItem. by rewrite filePath2Uri_normalizeSeparators.
    - intros (key & Hkey & Htest & ->).
      apply list_elem_of_In, list_elem_of_fmap. exists key. split.
      + unfold excludedItem. by rewrite filePath2Uri_normalizeSeparators.
      + apply list_elem_of_In, List.filter_In. done. }
  split.
  { intros e Hin.
    assert (Hin' : e ∈ (excludedItem
                          <$> List.filter (QiniuCDNPlugin.excludeTest exclude)
                                filePaths)
                       ++ (logItem outputPath <$> localFiles)).
    { rewrite <- Hcover. by apply list_elem_of_In. }
    apply list_elem_of_In, in_app_or in Hin' as [Hin'|Hin'];
      apply list_elem_of_In, list_elem_of_fmap in Hin' as (x & -> & _).
    - unfold excludedItem. cbn [filename].
      rewrite filePath2Uri_normalizeSeparators.
      apply normalizeSeparators_no_backslash.
    - unfold logItem. cbn [filename]. rewrite Hname.
      apply normalizeSeparators_no_backslash. }
  intros f Hf. unfold QiniuCDNPlugin.initUploadStatus.
  cbn [QiniuCDNPlugin.statusWithRemote].
  destruct (QiniuCDNPlugin.filteredFilePaths outputPath exclude filePaths
              (QiniuCDNPlugin.statusWithRemote remoteFiles)) as [status' kept].
  by apply classifyFiles_fileSource.
Qed.

Lemma entriesIn_all_omit remoteFiles outputPath localFiles :
  (forall f, In f localFiles -> bucketOfFile remoteFiles outputPath f = Omit) ->
  entriesIn Omit remoteFiles outputPath localFiles = logItem outputPath <$> localFiles
  /\ entriesIn Upload remoteFiles outputPath localFiles = []
  /\ entriesIn Overwrite remoteFiles outputPath localFiles = [].
Proof.
  induction localFiles as [|f l IH]; intros Hall; [done|].
  rewrite !entriesIn_cons, (Hall f (or_introl eq_refl)).
  destruct IH as (-> & -> & ->); [intros g Hg; apply Hall; by right|].
  done.
Qed.

(** C8: when no path is excluded and every local file has a remote
    file with its filename and its hash, remote filenames being
    unique, the diff leaves [upload] and [overwrite] empty and puts
    every local file in [omit]. *)
Theorem initUploadStatus_identical_snapshots_all_omit
    (outputPath : string) (exclude : ExcludeOption)
    (filePaths : list string) (localFiles : list LocalFile)
    (remoteFiles : list LogDetail) (fileSource : gmap string Buffer)
    (Hinclude : forall p, In p filePaths ->
                  QiniuCDNPlugin.excludeTest exclude p = false)
    (Hunique : NoDup (filename <$> remoteFiles))
    (Hsame : forall f, In f localFiles ->
               exists r, In r remoteFiles
                 /\ filename r = QiniuCDNPlugin.fileUriOf outputPath f
                 /\ hash r = lf_hash f) :
  let status :=
    (QiniuCDNPlugin.initUploadStatus outputPath exclude filePaths localFiles
       (QiniuCDNPlugin.statusWithRemote remoteFiles, fileSource)).1 in
  us_upload status = []
  /\ us_overwrite status = []
  /\ us_omit status = logItem outputPath <$> localFiles
  /\ us_exclude status = [].
Proof.
  intros status.
  destruct (initUploadStatus_buckets outputPath exclude filePaths localFiles
              remoteFiles fileSource) as (_ & _ & Hex & Hom & Hup & Hov).
  fold status in Hex, Hom, Hup, Hov.
  destruct (entriesIn_all_omit remoteFiles outputPath localFiles)
    as (Ho & Hu & Hw).
  { intros f Hf. destruct (Hsame f Hf) as (r & Hr & Hname & Hhash).
    unfold bucketOfFile.
    apply (bucketOf_unique_names remoteFiles _ (lf_hash f) Hunique).
    by exists r. }
  rewrite Hup, Hov, Hom, Hex, Ho, Hu, Hw.
  repeat split.
  replace (List.filter (QiniuCDNPlugin.excludeTest exclude) filePaths)
    with (@nil string); [done|].
  symmetry. clear -Hinclude. induction filePaths as [|p l IH]; simpl; [done|].
  rewrite (Hinclude p (or_introl eq_refl)). apply IH.
  intros q Hq. apply Hinclude. by right.
Qed.
End DiffTheorems.

(** ** Remote log that is missing *)

Section InitCDNFacts.
Context (JSON_parse : string -> option (list LogRecord)).

(** When the log file is listed and its fetch answers 404, the only
    event is the warning: the callback is not called. *)
Lemma initCDNStatus_404_warns_only logFileName remotePathname files readLog
    content_ log status i :
  findIndex
    (fun item => negb (String.eqb logFileName EmptyString)
                 && String.eqb (name item) logFileName) files = Some i ->
  readLog (remotePathname +:+ logFileName) = Response 404 content_ ->
  exists message,
    (InitCDN.initCDNStatus JSON_parse logFileName remotePathname
       (Listed files) readLog log status).2
    = [ConsoleWarn message].
Proof using Type.
  intros Hidx Hread. unfold InitCDN.initCDNStatus. rewrite Hidx.
  unfold InitCDN.readLogCallback. rewrite Hread. simpl. eauto.
Qed.
End InitCDNFacts.

(** C6: with the log file listed and its fetch answering 404,
    [initCDNStatus] warns and never calls its callback, so the run does
    not go on to the upload phase. *)
Theorem initCDNStatus_404_callback_not_called :
  let '(log, status, events) :=
    InitCDN.initCDNStatus (fun _ => None) "upload-log.json" "http://cdn.host/"
      listing_with_log (fun _ => Response 404 EmptyString) [] emptyStatus in
  log = []
  /\ us_remote status = [mkLogDetail "a.js" "h1"]
  /\ events
     = [ConsoleWarn
          "[QiniuCDNPlugin] log file not found(http://cdn.host/upload-log.json)"]
  /\ InitCDN.proceedsToUpload events = false.
Proof. repeat split. Qed.

(** When the log file is not listed, the callback is called without an
    error. *)
Example initCDNStatus_no_log_listed :
  (InitCDN.initCDNStatus (fun _ => None) "upload-log.json" "http://cdn.host/"
     (Listed [mkRemoteFile "a.js" "h1"]) (fun _ => Response 404 EmptyString) []
     emptyStatus).2
  = [Callback None].
Proof. reflexivity. Qed.

(** ** The log and the arrays of its callers *)

Lemma array_slice_fresh arr startIndex endIndex st :
  Heap.this_record st ∈ dom (Heap.arrays st) ->
  let '(slice, st') := Heap.array_slice arr startIndex endIndex st in
  freshSlice st slice st'
  /\ Heap.arrays st' !!! slice
     = VersionLog.slice (Heap.arrays st !!! arr) startIndex endIndex.
Proof.
  intros Hthis. unfold Heap.array_slice.
  set (slice := fresh (dom (Heap.arrays st))).
  assert (Hfresh : slice ∉ dom (Heap.arrays st)) by apply is_fresh.
  assert (Hne : slice <> Heap.this_record st) by (intros ->; done).
  split; [|simpl; by rewrite lookup_total_insert_eq].
  unfold freshSlice, Heap.record, Heap.array_write. simpl.
  split; [done|]. split; [done|]. split; [done|].
  split; [by rewrite lookup_total_insert_ne|].
  split.
  - intros arr' Harr. rewrite lookup_insert_ne; [done|]. by intros ->.
  - intros contents. by rewrite !lookup_total_insert_ne.
Qed.

(** C10: [init] sorts a copy: the array it is given is left as it was,
    as is every array that existed, and [this.record] is a new array;
    [findVersion], [getLastVersion] and [getFirstExpireVersionIndex]
    leave the state as it is; [getFreshVersions] and [getVersions]
    return a new array, leave the log as it is, and a write to the
    array they return does not change the log. *)
Theorem versionLog_copies_and_reads_only
    (st : Heap.State) (content : Heap.loc)
    (Hcontent : content ∈ dom (Heap.arrays st))
    (Hthis : Heap.this_record st ∈ dom (Heap.arrays st)) :
  (let st' := Heap.init content st in
   Heap.arrays st' !! content = Heap.arrays st !! content
   /\ Heap.this_record st' <> content
   /\ (Heap.this_record st' ∉ dom (Heap.arrays st))
   /\ (forall arr, arr ∈ dom (Heap.arrays st) ->
         Heap.arrays st' !! arr = Heap.arrays st !! arr)
   /\ Heap.record st' = VersionLog.init (Heap.arrays st !!! content))
  /\ (forall filename_ hash_ startIndex,
        (Heap.findVersion filename_ hash_ startIndex st).2 = st)
  /\ (Heap.getLastVersion st).2 = st
  /\ (forall maxVersions deadline,
        (Heap.getFirstExpireVersionIndex maxVersions deadline st).2 = st)
  /\ (forall maxVersions deadline,
        let '(slice, st') := Heap.getFreshVersions maxVersions deadline st in
        freshSlice st slice st'
        /\ Heap.arrays st' !!! slice
           = VersionLog.getFreshVersions (Heap.record st) maxVersions deadline)
  /\ (forall startIndex endIndex,
        let '(slice, st') := Heap.getVersions startIndex endIndex st in
        freshSlice st slice st'
        /\ Heap.arrays st' !!! slice
           = VersionLog.getVersions (Heap.record st) startIndex endIndex).
Proof.
  split; [|split; [done|split; [done|split; [done|split]]]].
  - pose proof (is_fresh (dom (Heap.arrays st))) as Hfresh.
    cbv zeta. rewrite Heap_init_record.
    unfold Heap.init, Heap.array_slice, Heap.array_sort_in_place. simpl.
    set (copy := fresh (dom (Heap.arrays st))) in *.
    assert (Hne : copy <> content) by (intros ->; done).
    split; [by rewrite !lookup_insert_ne|]. split; [done|]. split; [done|].
    split; [|done].
    intros arr Harr. rewrite !lookup_insert_ne; [done| |]; by intros ->.
  - intros maxVersions deadline.
    exact (array_slice_fresh (Heap.this_record st) 0
             (Some (VersionLog.getFirstExpireVersionIndex (Heap.record st)
                      maxVersions deadline)) st Hthis).
  - intros startIndex endIndex.
    exact (array_slice_fresh (Heap.this_record st) startIndex endIndex st Hthis).
Qed.

(** [init] on the array at 2 of [heap_two_arrays], then a look at that
    array: it still holds 5 then 30, and the log holds 30 then 5. *)
Lemma versionLog_copies_and_reads_only_witness :
  2%positive ∈ dom (Heap.arrays heap_two_arrays)
  /\ Heap.this_record heap_two_arrays ∈ dom (Heap.arrays heap_two_arrays)
  /\ Heap.arrays (Heap.init 2%positive heap_two_arrays) !! 2%positive
     = Heap.arrays heap_two_arrays !! 2%positive.
Proof.
  assert (H2 : 2%positive ∈ dom (Heap.arrays heap_two_arrays)).
  { apply elem_of_dom. eexists. reflexivity. }
  assert (H1 : Heap.this_record heap_two_arrays ∈ dom (Heap.arrays heap_two_arrays)).
  { apply elem_of_dom. eexists. reflexivity. }
  split; [exact H2|]. split; [exact H1|].
  exact (proj1 (proj1 (versionLog_copies_and_reads_only
                         heap_two_arrays 2%positive H2 H1))).
Defined.

Example init_heap_two_arrays :
  timestamp <$> Heap.record (Heap.init 2%positive heap_two_arrays) = [30; 5]
  /\ timestamp <$> (Heap.arrays (Heap.init 2%positive heap_two_arrays) !!! 2%positive)
     = [5; 30].
Proof. split; reflexivity. Qed.

(** ** The end-to-end scenario of the specification *)

(** Remote [a.js] (h1) and [b.js] (h2); the build has [a.js] unchanged
    and a new [c.js]: one omitted, one uploaded, none overwritten. *)
Example diff_a_c :
  let status :=
    (@QiniuCDNPlugin.initUploadStatus plainPath "dist" excludeNothing
       ["a.js"; "c.js"] local_a_c
       (QiniuCDNPlugin.statusWithRemote remote_a_b, ∅)).1 in
  us_omit status = [mkLogDetail "a.js" "h1"]
  /\ us_upload status = [mkLogDetail "c.js" "h3"]
  /\ us_overwrite status = []
  /\ us_exclude status = [].
Proof. repeat split. Qed.

Lemma initUploadStatus_partitions_local_files_witness :
  @readsOfKept plainPath "dist" excludeNothing ["a.js"; "c.js"] local_a_c
  /\ @relativeOfJoin plainPath "dist" ["a.js"; "c.js"]
  /\ us_exclude
       (@QiniuCDNPlugin.initUploadStatus plainPath "dist" excludeNothing
          ["a.js"; "c.js"] local_a_c
          (QiniuCDNPlugin.statusWithRemote remote_a_b, ∅)).1
     = excludedItem
         <$> List.filter (QiniuCDNPlugin.excludeTest excludeNothing) ["a.js"; "c.js"].
Proof.
  assert (Hreads :
    @readsOfKept plainPath "dist" excludeNothing ["a.js"; "c.js"] local_a_c).
  { unfold readsOfKept. simpl. reflexivity. }
  split; [exact Hreads|]. split.
  { intros key [<-|[<-|[]]]; reflexivity. }
  exact (proj1 (@initUploadStatus_partitions_local_files plainPath "dist"
                  excludeNothing ["a.js"; "c.js"] local_a_c remote_a_b ∅ Hreads)).
Defined.

(** An asset key with a backslash, a key the exclude test matches and
    a remote file named with a slash: the file of the first key is
    compared, and recorded, under the name with the slash, and its
    content is stored under that name. *)
Example diff_backslash_key :
  let result :=
    @QiniuCDNPlugin.initUploadStatus plainPath "dist"
      (ExcludeFunction (String.eqb "map\app.js.map"))
      ["js\app.js"; "map\app.js.map"]
      [mkLocalFile "dist/js\app.js" [Byte.x01] "h1"]
      (QiniuCDNPlugin.statusWithRemote [mkLogDetail "js/app.js" "h0"], ∅) in
  us_overwrite result.1 = [mkLogDetail "js/app.js" "h1"]
  /\ us_exclude result.1 = [mkLogDetail "map/app.js.map" "*EXCLUDED*"]
  /\ us_upload result.1 = [] /\ us_omit result.1 = []
  /\ result.2 !! "js/app.js" = Some [Byte.x01]
  /\ @relativeOfJoin plainPath "dist" ["js\app.js"; "map\app.js.map"].
Proof.
  repeat split. intros key [<-|[<-|[]]]; reflexivity.
Qed.

Lemma initUploadStatus_identical_snapshots_all_omit_witness :
  NoDup (filename <$> remote_a_b)
  /\ us_upload
       (@QiniuCDNPlugin.initUploadStatus plainPath "dist" excludeNothing
          ["a.js"; "b.js"] local_a_b
          (QiniuCDNPlugin.statusWithRemote remote_a_b, ∅)).1
     = [].
Proof.
  assert (Hunique : NoDup (filename <$> remote_a_b)).
  { simpl. apply NoDup_cons. split.
    - apply not_elem_of_cons. split; [discriminate | apply not_elem_of_nil].
    - apply NoDup_singleton. }
  assert (Hinclude : forall p, In p ["a.js"; "b.js"] ->
            QiniuCDNPlugin.excludeTest excludeNothing p = false).
  { intros p _. reflexivity. }
  assert (Hsame : forall f, In f local_a_b ->
            exists r, In r remote_a_b
              /\ filename r = @QiniuCDNPlugin.fileUriOf plainPath "dist" f
              /\ hash r = lf_hash f).
  { intros f [<-|[<-|[]]].
    - exists (mkLogDetail "a.js" "h1"). simpl. auto.
    - exists (mkLogDetail "b.js" "h2"). simpl. auto. }
  split; [exact Hunique|].
  exact (proj1 (@initUploadStatus_identical_snapshots_all_omit plainPath "dist"
                  excludeNothing ["a.js"; "b.js"] local_a_b remote_a_b ∅
                  Hinclude Hunique Hsame)).
Defined.

(** Without unique remote filenames the first remote file of the name
    decides: the local hash h2 is the hash of the second one only. *)
Example diff_duplicate_remote_names :
  us_overwrite
    (@QiniuCDNPlugin.initUploadStatus plainPath "dist" excludeNothing ["a.js"]
       [mkLocalFile "dist/a.js" [] "h2"]
       (QiniuCDNPlugin.statusWithRemote
          [mkLogDetail "a.js" "h1"; mkLogDetail "a.js" "h2"], ∅)).1
  = [mkLogDetail "a.js" "h2"].
Proof. reflexivity. Qed.

(** ** Expiry examples of the specification *)

(** [maxVersions = 1] alone: of three versions, 0 and 1 are fresh. *)
Example expire_versions_only :
  VersionLog.getFirstExpireVersionIndex
    [mkLogRecord 30 [] []; mkLogRecord 20 [] []; mkLogRecord 10 [] []]
    (Some 1) None = 2%nat.
Proof. reflexivity. Qed.

(** Both bounds: version 1 is older than the deadline but within
    [maxVersions], and is kept; version 2 is past both. *)
Example expire_both_bounds :
  VersionLog.getFirstExpireVersionIndex
    [mkLogRecord 30 [] []; mkLogRecord 20 [] []; mkLogRecord 10 [] []]
    (Some 1) (Some 25) = 2%nat.
Proof. reflexivity. Qed.

(** No bound: nothing expires. *)
Example expire_no_bound :
  VersionLog.getFirstExpireVersionIndex
    [mkLogRecord 30 [] []; mkLogRecord 20 [] []; mkLogRecord 10 [] []]
    None None = 3%nat.
Proof. reflexivity. Qed.

(** A clean set: [old.js] was uploaded in the expired version 2 only;
    [a.js] of version 2 is still referenced by version 0. *)
Example initCleanStatus_old_js :
  QiniuCDNPlugin.initCleanStatus
    [ mkLogRecord 30 [] [mkLogDetail "a.js" "h1"];
      mkLogRecord 20 [] [mkLogDetail "a.js" "h1"];
      mkLogRecord 10 [mkLogDetail "a.js" "h1"; mkLogDetail "old.js" "h0"] [] ]
    (mkExpireOption None (Some 1)) []
  = Ok [mkLogDetail "old.js" "h0"].
Proof. reflexivity. Qed.

(** ** Content hash on concrete inputs *)

(** SHA-1 of the empty input and of [abc], in base64. *)
Example sha1_test_vectors :
  Node.toBase64 (Node.sha1 []) = "2jmj7l5rSw0yVb/vlWAYkK/YBwk="
  /\ Node.toBase64 (Node.sha1 (Node.bytesOfString "abc"))
     = "qZk+NkcGgWq6PiVxeFDCbJzQ2J0=".
Proof. split; vm_compute; reflexivity. Qed.

(** The hash of an empty file and of a short one. *)
Example hashFile_empty :
  @QiniuHelper.hashFile Node.builtins [] = "Fto5o-5ea0sNMlW_75VgGJCv2AcJ".
Proof. vm_compute. reflexivity. Qed.

Example hashFile_abc :
  @QiniuHelper.hashFile Node.builtins (Node.bytesOfString "abc")
  = "FqmZPjZHBoFquj4lcXhQwmyc0Nid".
Proof. vm_compute. reflexivity. Qed.

(** The loop on ten bytes with chunks of four: three digests, of
    bytes 0-3, 4-7 and 8-9. *)
Example chunkLoop_ten_by_four :
  let buf := Node.bytesOfString "0123456789" in
  @QiniuHelper.chunkLoop Node.builtins 4 (Nat.lt_0_succ 3) buf []
  = [ Node.sha1 (Node.bytesOfString "0123");
      Node.sha1 (Node.bytesOfString "4567");
      Node.sha1 (Node.bytesOfString "89") ].
Proof. intros buf. subst buf. simpl. by simp chunkLoop. Qed.

(** * Further properties *)

(** ** Expiry: what is cleaned against what is kept *)

Lemma getFreshVersions_lookup record mv dl snap :
  In snap (VersionLog.getFreshVersions record mv dl) ->
  exists j, record !! j = Some snap
    /\ (j < VersionLog.getFirstExpireVersionIndex record mv dl)%nat.
Proof.
  unfold VersionLog.getFreshVersions, VersionLog.slice. rewrite drop_0.
  intros Hin. apply list_elem_of_In, list_elem_of_lookup in Hin as [j Hj].
  apply lookup_take_Some in Hj as [Hj Hlt]. eauto.
Qed.

Lemma cleanSet_not_recorded_before record lastVersion expire f :
  In f (cleanSet record lastVersion expire) ->
  forall j snap g,
    record !! j = Some snap ->
    (j < VersionLog.getFirstExpireVersionIndex record (versions expire)
           (policyDeadline lastVersion expire))%nat ->
    In g (upload snap ++ omit snap) ->
    filename g <> filename f.
Proof.
  unfold cleanSet. rewrite List.filter_In. unfold stillExpired.
  intros [_ Hkeep] j snap g Hj Hlt Hg Hname.
  destruct (findVersion_of_recorded record j snap g Hj Hg) as (found & Hfound & Hle).
  rewrite Hname in Hfound. rewrite Hfound in Hkeep.
  apply Nat.leb_le in Hkeep. lia.
Qed.

(** X1: a file that [initCleanStatus] puts in the clean set has a
    filename that no version [emitLog] keeps in the log mentions, in
    its upload entries or its omit entries. *)
Theorem clean_files_not_in_persisted_log
    (record : list LogRecord) (expire : ExpireOption)
    (clean : list LogDetail) (logData : list LogRecord)
    (Hclean : QiniuCDNPlugin.initCleanStatus record expire [] = Ok clean)
    (Hlog : Handler.emitLogData record (Some expire) = Ok logData) :
  forall f snap g,
    In f clean -> In snap logData -> In g (upload snap ++ omit snap) ->
    filename g <> filename f.
Proof.
  intros f snap g Hf Hsnap Hg.
  pose proof (initCleanStatus_run record expire []) as Hrun.
  unfold Handler.emitLogData in Hlog.
  destruct (VersionLog.getLastVersion record) as [lastVersion|]; [|discriminate].
  rewrite Hclean in Hrun. injection Hrun as ->. injection Hlog as <-.
  simpl in Hf.
  apply getFreshVersions_lookup in Hsnap as (j & Hj & Hlt).
  eapply cleanSet_not_recorded_before; eauto.
Qed.

Lemma clean_files_not_in_persisted_log_witness :
  QiniuCDNPlugin.initCleanStatus log_three keepOne []
    = Ok [mkLogDetail "old.js" "h0"]
  /\ Handler.emitLogData log_three (Some keepOne) = Ok (take 2 log_three)
  /\ forall f snap g,
       In f [mkLogDetail "old.js" "h0"] -> In snap (take 2 log_three) ->
       In g (upload snap ++ omit snap) -> filename g <> filename f.
Proof.
  assert (Hclean : QiniuCDNPlugin.initCleanStatus log_three keepOne []
                   = Ok [mkLogDetail "old.js" "h0"]) by reflexivity.
  assert (Hlog : Handler.emitLogData log_three (Some keepOne)
                 = Ok (take 2 log_three)) by reflexivity.
  split; [exact Hclean|]. split; [exact Hlog|].
  exact (clean_files_not_in_persisted_log log_three keepOne _ _ Hclean Hlog).
Defined.

Lemma expireTest_index_0 policy v :
  nonNegativePolicy policy ->
  VersionLog.expireTest (versions policy) (policyDeadline v policy) 0 (timestamp v)
  = false.
Proof.
  intros [Htime Hversions].
  destruct (VersionLog.expireTest _ _ _ _) eqn:Ht; [|done].
  apply expireTest_expired in Ht. unfold expired, policyDeadline in Ht.
  destruct (versions policy) as [m|] eqn:Hm, (time policy) as [t|] eqn:Hti;
    try specialize (Htime _ eq_refl); try specialize (Hversions _ eq_refl);
    simpl in Ht; lia.
Qed.

(** X2: under a policy whose bounds are not negative, the version at
    index 0 (the one [handler] has just appended) is never expired: it
    is the first entry of the log [emitLog] writes, and no filename it
    records is put in the clean set. *)
Theorem current_version_kept_and_not_cleaned
    (v : LogRecord) (rest : list LogRecord) (policy : ExpireOption)
    (Hpolicy : nonNegativePolicy policy) :
  (1 <= VersionLog.getFirstExpireVersionIndex (v :: rest) (versions policy)
          (policyDeadline v policy))%nat
  /\ (exists kept, Handler.emitLogData (v :: rest) (Some policy) = Ok (v :: kept))
  /\ (exists clean,
        QiniuCDNPlugin.initCleanStatus (v :: rest) policy [] = Ok clean
        /\ forall f g, In f clean -> In g (upload v ++ omit v) ->
             filename g <> filename f).
Proof.
  assert (Hidx :
    (1 <= VersionLog.getFirstExpireVersionIndex (v :: rest) (versions policy)
            (policyDeadline v policy))%nat).
  { unfold VersionLog.getFirstExpireVersionIndex. simpl.
    rewrite (expireTest_index_0 policy v Hpolicy).
    destruct (expireLoop_first (versions policy) (policyDeadline v policy) rest 1)
      as ((Hlo & _) & _). exact Hlo. }
  split; [exact Hidx|]. split.
  - unfold Handler.emitLogData, VersionLog.getFreshVersions, VersionLog.slice.
    change (VersionLog.getLastVersion (v :: rest)) with (Some v). cbv iota beta.
    fold (policyDeadline v policy). rewrite drop_0.
    destruct (VersionLog.getFirstExpireVersionIndex (v :: rest) (versions policy)
                (policyDeadline v policy)) as [|n]; [lia|].
    simpl. eauto.
  - pose proof (initCleanStatus_run (v :: rest) policy []) as Hrun.
    change (VersionLog.getLastVersion (v :: rest)) with (Some v) in Hrun.
    cbv iota beta in Hrun. rewrite app_nil_l in Hrun.
    eexists. split; [exact Hrun|].
    intros f g Hf Hg.
    eapply (cleanSet_not_recorded_before (v :: rest) v policy f Hf 0%nat v g);
      [done | lia | done].
Qed.

Lemma current_version_kept_and_not_cleaned_witness :
  nonNegativePolicy keepOne
  /\ (1 <= VersionLog.getFirstExpireVersionIndex log_three (versions keepOne)
             (policyDeadline (mkLogRecord 30 [mkLogDetail "c.js" "h3"]
                                [mkLogDetail "a.js" "h1"]) keepOne))%nat.
Proof.
  assert (Hp : nonNegativePolicy keepOne).
  { split; intros x Hx; simpl in Hx; [discriminate|]. injection Hx as <-. lia. }
  split; [exact Hp|].
  exact (proj1 (current_version_kept_and_not_cleaned _ _ keepOne Hp)).
Defined.

(** With [versions] negative the current version itself is expired. *)
Example negative_versions_expire_current :
  VersionLog.getFirstExpireVersionIndex log_three (Some (-1)) None = 0%nat.
Proof. reflexivity. Qed.
(** ** Expiry on a sorted log *)

Lemma descending_lookup record i j a b :
  descending record -> (i <= j)%nat ->
  record !! i = Some a -> record !! j = Some b -> timestamp b <= timestamp a.
Proof.
  intros Hs. revert i j. induction Hs as [|x l Hl IH Hx]; intros i j Hij Hi Hj.
  - by rewrite lookup_nil in Hi.
  - destruct i as [|i], j as [|j]; simpl in Hi, Hj; try lia.
    + injection Hi as <-. injection Hj as <-. lia.
    + injection Hi as <-. rewrite Forall_forall in Hx.
      assert (Hb : b ∈ l) by (apply list_elem_of_lookup; eauto).
      specialize (Hx b Hb). lia.
    + apply (IH i j); [lia | done | done].
Qed.

(** X3: on a log in descending order of timestamp, expiry is a clean
    cut: the versions before the index [getFirstExpireVersionIndex]
    returns are exactly the ones that are not expired. *)
Theorem sorted_log_expired_suffix
    (record : list LogRecord) (maxVersions deadline : option Z)
    (Hsorted : descending record) :
  forall j snap, record !! j = Some snap ->
    ((j < VersionLog.getFirstExpireVersionIndex record maxVersions deadline)%nat
     <-> ~ expired maxVersions deadline j snap).
Proof.
  intros j snap Hj.
  destruct (expireLoop_first maxVersions deadline record 0)
    as (_ & Hbefore & Hat).
  fold (VersionLog.getFirstExpireVersionIndex record maxVersions deadline) in *.
  set (r := VersionLog.getFirstExpireVersionIndex record maxVersions deadline) in *.
  rewrite Nat.sub_0_r in Hat. split.
  - intros Hlt. apply (Hbefore j snap Hj). lia.
  - intros Hfresh. destruct (le_lt_dec r j) as [Hle|]; [|done].
    exfalso. apply Hfresh.
    destruct (record !! r) as [snap'|] eqn:Hr.
    + pose proof (descending_lookup record r j snap' snap Hsorted Hle Hr Hj).
      unfold expired in *.
      destruct maxVersions as [m|], deadline as [d|]; simpl in *; lia.
    + apply lookup_lt_Some in Hj. simpl in Hat. lia.
Qed.

Lemma sorted_log_expired_suffix_witness :
  descending log_three
  /\ ((2 < VersionLog.getFirstExpireVersionIndex log_three (Some 0%Z)
              (Some 15%Z))%nat
      <-> ~ expired (Some 0) (Some 15) 2 (mkLogRecord 10
              [mkLogDetail "a.js" "h1"; mkLogDetail "old.js" "h0"] [])).
Proof.
  assert (Hs : descending log_three).
  { unfold descending, log_three.
    repeat (constructor; [|repeat constructor; simpl; lia]). constructor. }
  split; [exact Hs|].
  exact (sorted_log_expired_suffix log_three (Some 0) (Some 15) Hs 2%nat _ eq_refl).
Defined.

(** Without the order the cut is not clean: the scan stops at the
    version at index 0, older than the deadline, and the version at
    index 1, which is not, falls behind the cut. *)
Example unsorted_log_cut :
  VersionLog.getFirstExpireVersionIndex
    [mkLogRecord 10 [] []; mkLogRecord 30 [] []; mkLogRecord 5 [] []]
    None (Some 20) = 0%nat.
Proof. reflexivity. Qed.

Lemma expireLoop_versions_only m rest : forall i,
  VersionLog.expireLoop (Some m) None rest i
  = Nat.min (i + length rest) (Nat.max i (Z.to_nat (m + 1))).
Proof.
  induction rest as [|s rest IH]; intros i; simpl.
  - lia.
  - unfold VersionLog.expireTest. simpl.
    destruct (Z.gtb_spec (Z.of_nat i) m) as [Hgt|Hle]; simpl.
    + lia.
    + rewrite IH. lia.
Qed.

(** X4: with [maxVersions] alone, [getFirstExpireVersionIndex] is
    [maxVersions + 1] (the current version and [maxVersions] earlier
    ones), or the length of the log when it is shorter; a deadline
    given as well can only keep more. *)
Theorem versions_bound_keeps_current_plus_m
    (record : list LogRecord) (m : Z) (deadline : option Z) :
  VersionLog.getFirstExpireVersionIndex record (Some m) None
    = Nat.min (length record) (Z.to_nat (m + 1))
  /\ length (VersionLog.getFreshVersions record (Some m) None)
     = Nat.min (length record) (Z.to_nat (m + 1))
  /\ (VersionLog.getFirstExpireVersionIndex record (Some m) None
      <= VersionLog.getFirstExpireVersionIndex record (Some m) deadline)%nat.
Proof.
  assert (Hidx : VersionLog.getFirstExpireVersionIndex record (Some m) None
                 = Nat.min (length record) (Z.to_nat (m + 1))).
  { unfold VersionLog.getFirstExpireVersionIndex.
    rewrite expireLoop_versions_only. lia. }
  split; [exact Hidx|]. split.
  - unfold VersionLog.getFreshVersions, VersionLog.slice.
    rewrite drop_0, length_take, Hidx. lia.
  - rewrite Hidx.
    destruct (expireLoop_first (Some m) deadline record 0)
      as ((_ & Hhi) & _ & Hat).
    fold (VersionLog.getFirstExpireVersionIndex record (Some m) deadline) in *.
    set (r := VersionLog.getFirstExpireVersionIndex record (Some m) deadline) in *.
    rewrite Nat.sub_0_r in Hat.
    destruct (record !! r) as [snap|].
    + assert (Z.of_nat r > m) by (destruct deadline; simpl in Hat; lia). lia.
    + lia.
Qed.

(** ** [append] and [findVersion] *)

Lemma findLoop_shift filename_ hash_ rest : forall i,
  VersionLog.findLoop filename_ hash_ rest (S i)
  = shiftVersion <$> VersionLog.findLoop filename_ hash_ rest i.
Proof.
  induction rest as [|s rest IH]; intros i; simpl; [done|].
  destruct (VersionLog.filesLoop filename_ hash_ (upload s ++ omit s)); [done|].
  apply IH.
Qed.

(** X5: after [append], a file the new snapshot records resolves to
    version 0 with the new timestamp; any other file resolves to the
    version it had, one index further. *)
Theorem findVersion_after_append
    (record : list LogRecord) (log : LogRecord)
    (filename_ : string) (hash_ : option string) :
  (containsMatch (matches_nonempty filename_ hash_) log ->
     VersionLog.findVersion (VersionLog.append record log) filename_ hash_ None
     = Some (mkVersionData 0 (timestamp log)))
  /\ (~ containsMatch (matches_nonempty filename_ hash_) log ->
     VersionLog.findVersion (VersionLog.append record log) filename_ hash_ None
     = shiftVersion <$> VersionLog.findVersion record filename_ hash_ None)
  /\ VersionLog.getLastVersion (VersionLog.append record log) = Some log.
Proof.
  unfold VersionLog.findVersion, VersionLog.append. simpl. rewrite !drop_0.
  split; [|split; [|done]].
  - intros Hc. apply filesLoop_exists in Hc. simpl. by rewrite Hc.
  - intros Hc. simpl.
    destruct (VersionLog.filesLoop filename_ hash_ (upload log ++ omit log)) eqn:Hf.
    + apply filesLoop_exists in Hf. contradiction.
    + apply findLoop_shift.
Qed.

(** ** [init] on a log already in order *)

Lemma init_descending_id record :
  descending record -> VersionLog.init record = record.
Proof.
  unfold VersionLog.init. induction 1 as [|x l Hl IH Hx]; simpl; [done|].
  rewrite IH. destruct l as [|y l']; simpl; [done|].
  apply Forall_cons in Hx as [Hy _]. unfold VersionLog.compareFn.
  destruct (Z.leb_spec (timestamp y - timestamp x) 0); [done | lia].
Qed.

Lemma descending_take n record : descending record -> descending (take n record).
Proof.
  intros Hs. revert n. induction Hs as [|x l Hl IH Hx]; intros [|n]; simpl;
    try constructor.
  - apply IH.
  - rewrite Forall_forall in *. intros y Hy. apply Hx.
    by apply (subseteq_take n l).
Qed.

(** X6: [init] changes nothing of a log that is in descending order, so
    sorting twice is sorting once; [append] of a snapshot no older than
    the last version keeps the order, and what [emitLog] then writes is
    read back by [init] as it was written. *)
Theorem persisted_log_reloads_unchanged
    (record : list LogRecord) (log : LogRecord) (expire : option ExpireOption)
    (logData : list LogRecord)
    (Hsorted : descending record)
    (Hnow : forall v, VersionLog.getLastVersion record = Some v ->
              timestamp v <= timestamp log)
    (Hlog : Handler.emitLogData (VersionLog.append record log) expire = Ok logData) :
  VersionLog.init record = record
  /\ descending (VersionLog.append record log)
  /\ descending logData
  /\ VersionLog.init logData = logData.
Proof.
  assert (Happ : descending (VersionLog.append record log)).
  { unfold VersionLog.append. constructor; [done|].
    rewrite Forall_forall. intros y Hy.
    apply list_elem_of_lookup in Hy as [j Hj].
    destruct record as [|v rest]; [by rewrite lookup_nil in Hj|].
    specialize (Hnow v eq_refl).
    pose proof (descending_lookup (v :: rest) 0 j v y Hsorted (Nat.le_0_l j)
                  eq_refl Hj). lia. }
  assert (Hdata : descending logData).
  { unfold Handler.emitLogData in Hlog. destruct expire as [policy|].
    - change (VersionLog.getLastVersion (VersionLog.append record log))
        with (Some log) in Hlog. cbv iota beta in Hlog.
      injection Hlog as <-. unfold VersionLog.getFreshVersions, VersionLog.slice.
      rewrite drop_0. by apply descending_take.
    - injection Hlog as <-. exact Happ. }
  split; [by apply init_descending_id|]. split; [done|]. split; [done|].
  by apply init_descending_id.
Qed.

Lemma persisted_log_reloads_unchanged_witness :
  descending (drop 1 log_three)
  /\ VersionLog.init (take 2 log_three) = take 2 log_three.
Proof.
  assert (Hs : descending (drop 1 log_three)).
  { unfold descending, log_three. simpl.
    repeat (constructor; [|repeat constructor; simpl; lia]). constructor. }
  assert (Hnow : forall v, VersionLog.getLastVersion (drop 1 log_three) = Some v ->
            timestamp v <= timestamp (mkLogRecord 30 [mkLogDetail "c.js" "h3"]
                                        [mkLogDetail "a.js" "h1"])).
  { intros v Hv. simpl in Hv. injection Hv as <-. simpl. lia. }
  assert (Hlog : Handler.emitLogData
            (VersionLog.append (drop 1 log_three)
               (mkLogRecord 30 [mkLogDetail "c.js" "h3"] [mkLogDetail "a.js" "h1"]))
            (Some keepOne) = Ok (take 2 log_three)) by reflexivity.
  split; [exact Hs|].
  exact (proj2 (proj2 (proj2
    (persisted_log_reloads_unchanged _ _ _ _ Hs Hnow Hlog)))).
Defined.

(** Sorting twice is sorting once. *)
Lemma init_idempotent content :
  VersionLog.init (VersionLog.init content) = VersionLog.init content.
Proof. apply init_descending_id, init_sorted. Qed.

(** ** utils.js: [removePrefix] *)

Lemma str_take_append prefix s :
  str_take (String.length prefix) (String.append prefix s) = prefix.
Proof. induction prefix as [|c p IH]; simpl; [by destruct s | by rewrite IH]. Qed.

Lemma str_drop_append prefix s :
  str_drop (String.length prefix) (String.append prefix s) = s.
Proof. induction prefix as [|c p IH]; simpl; [by destruct s | done]. Qed.

Lemma str_take_drop n s : String.append (str_take n s) (str_drop n s) = s.
Proof.
  revert s. induction n as [|n IH]; intros [|c s]; simpl; try done.
  change (String c (String.append (str_take n s) (str_drop n s)) = String c s).
  by rewrite IH.
Qed.

Lemma removePrefix_undoes_prepend_aux (prefix filename_ : string) :
  removePrefix (String.append prefix filename_) (Some prefix) = filename_
  /\ removePrefix filename_ None = filename_
  /\ (removePrefix filename_ (Some prefix) = filename_
      \/ (prefix <> EmptyString
          /\ String.append prefix (removePrefix filename_ (Some prefix))
             = filename_)).
Proof.
  split; [|split; [done|]].
  - unfold removePrefix. simpl default.
    rewrite str_take_append, str_drop_append, String.eqb_refl.
    destruct prefix; simpl; done.
  - unfold removePrefix. simpl default.
    destruct (Nat.eqb_spec (String.length prefix) 0) as [H0|Hn0]; simpl; [by left|].
    destruct (String.eqb_spec (str_take (String.length prefix) filename_) prefix)
      as [Heq|Hne]; [|by left].
    right. split; [by intros -> |].
    rewrite <- Heq at 1. apply str_take_drop.
Qed.

(** X7: [removePrefix] undoes the prepending of the prefix, takes the
    prefix off once only, and otherwise returns the filename as it is:
    its result is the filename, or what follows the prefix in it. *)
Theorem removePrefix_undoes_prepend (prefix filename_ : string) :
  removePrefix (String.append prefix filename_) (Some prefix) = filename_
  /\ removePrefix filename_ None = filename_
  /\ (removePrefix filename_ (Some prefix) = filename_
      \/ (prefix <> EmptyString
          /\ String.append prefix (removePrefix filename_ (Some prefix))
             = filename_)).
Proof. apply removePrefix_undoes_prepend_aux. Qed.

Example removePrefix_once :
  removePrefix "access/access/a.js" (Some "access/") = "access/a.js"
  /\ removePrefix "other/a.js" (Some "access/") = "other/a.js".
Proof. split; reflexivity. Qed.

(** ** utils.js: [filePath2Uri] *)

Lemma filePath2Uri_no_backslash_aux (filepath : string) :
  ~ In "\"%char (list_ascii_of_string (utils.filePath2Uri filepath))
  /\ String.length (utils.filePath2Uri filepath) = String.length filepath
  /\ utils.filePath2Uri (utils.filePath2Uri filepath) = utils.filePath2Uri filepath
  /\ (~ In "\"%char (list_ascii_of_string filepath) ->
      utils.filePath2Uri filepath = filepath).
Proof.
  induction filepath as [|c s (IH1 & IH2 & IH3 & IH4)]; simpl.
  - repeat split; tauto.
  - destruct (Ascii.eqb_spec c "\") as [->|Hc].
    + split; [|split; [by rewrite IH2|split]].
      * intros [H|H]; [discriminate | contradiction].
      * by rewrite IH3.
      * intros Hno. contradict Hno. by left.
    + split; [|split; [by rewrite IH2|split]].
      * intros [H|H]; [congruence | contradiction].
      * destruct (Ascii.eqb_spec c "\"); [contradiction|]. by rewrite IH3.
      * intros Hno. rewrite IH4; [done|]. intros Hin. apply Hno. by right.
Qed.

(** X8: [filePath2Uri] leaves no backslash, keeps the length, changes
    nothing of a path without backslash, and so changes nothing when
    applied again. *)
Theorem filePath2Uri_no_backslash (filepath : string) :
  ~ In "\"%char (list_ascii_of_string (utils.filePath2Uri filepath))
  /\ String.length (utils.filePath2Uri filepath) = String.length filepath
  /\ utils.filePath2Uri (utils.filePath2Uri filepath) = utils.filePath2Uri filepath
  /\ (~ In "\"%char (list_ascii_of_string filepath) ->
      utils.filePath2Uri filepath = filepath).
Proof. apply filePath2Uri_no_backslash_aux. Qed.

(** ** utils.js: [splitList] *)

Section SplitListFacts.
Context {A : Type} (size : nat) (size_pos : (0 < size)%nat).

Lemma splitLoop_chunks : forall n (l : list A) urlQueue,
  (length l <= n)%nat ->
  exists chunks,
    splitLoop size size_pos l urlQueue = urlQueue ++ chunks
    /\ isSplit size l chunks
    /\ (length l <= length chunks * size)%nat
    /\ (length chunks * size < length l + size)%nat.
Proof using Type.
  induction n as [|n IH]; intros l urlQueue Hn.
  - destruct l; [|simpl in Hn; lia]. exists []. simp splitLoop.
    split; [by rewrite app_nil_r|]. split; [|simpl; lia].
    split; [done|]. intros i c Hi. by rewrite lookup_nil in Hi.
  - destruct l as [|x l'].
    { exists []. simp splitLoop. split; [by rewrite app_nil_r|].
      split; [|simpl; lia]. split; [done|].
      intros i c Hi. by rewrite lookup_nil in Hi. }
    simp splitLoop.
    remember (x :: l') as l eqn:Hl.
    assert (Hlen : (0 < length l)%nat) by (subst l; simpl; lia).
    clear Hl.
    destruct (IH (drop size l) (urlQueue ++ [take size l]))
      as (chunks & Heq & (Hconcat & Hchunks) & Hlo & Hhi).
    { rewrite length_drop. lia. }
    rewrite length_drop in Hlo, Hhi.
    exists (take size l :: chunks). split; [by rewrite Heq, <- app_assoc|].
    split; [split|].
    + simpl. by rewrite Hconcat, take_drop.
    + intros [|i] c Hi; simpl in Hi.
      * injection Hi as <-. rewrite length_take. split; [lia|].
        intros Hmore. destruct chunks as [|c' chunks']; [simpl in Hmore; lia|].
        simpl in Hhi. lia.
      * destruct (Hchunks i c Hi) as [Hc Hfull]. split; [done|].
        intros Hmore. apply Hfull. simpl in Hmore. lia.
    + assert (Hk : (length chunks * size = 0 \/ size <= length chunks * size)%nat)
        by (destruct chunks; simpl; lia).
      change (length (take size l :: chunks)) with (S (length chunks)).
      rewrite Nat.mul_succ_l. lia.
Qed.

(** X9: [splitList] cuts the list into consecutive pieces of [size]
    items, the last one possibly shorter and none empty; put together
    again the pieces are the list, and there are as many of them as
    the length divided by [size], rounded up. *)
Theorem splitList_consecutive_chunks (l : list A) :
  let chunks := splitList size size_pos l in
  isSplit size l chunks
  /\ (length l <= length chunks * size)%nat
  /\ (length chunks * size < length l + size)%nat.
Proof using Type.
  intros chunks. subst chunks. unfold splitList.
  destruct (splitLoop_chunks (length l) l [] (Nat.le_refl _))
    as (chunks & Heq & Hsplit & Hlo & Hhi).
  rewrite Heq, app_nil_l. done.
Qed.
End SplitListFacts.

Lemma splitList_consecutive_chunks_witness :
  (0 < 3)%nat
  /\ isSplit 3 [1; 2; 3; 4; 5; 6; 7]
       (splitList 3 (Nat.lt_0_succ 2) [1; 2; 3; 4; 5; 6; 7])
  /\ (7 <= length (splitList 3 (Nat.lt_0_succ 2) [1; 2; 3; 4; 5; 6; 7]) * 3)%nat.
Proof.
  split; [exact (Nat.lt_0_succ 2)|].
  destruct (splitList_consecutive_chunks 3 (Nat.lt_0_succ 2) [1; 2; 3; 4; 5; 6; 7])
    as (Hsplit & Hlo & _).
  split; [exact Hsplit | exact Hlo].
Defined.

Example splitList_seven_by_three :
  splitList 3 (Nat.lt_0_succ 2) [1; 2; 3; 4; 5; 6; 7] = [[1; 2; 3]; [4; 5; 6]; [7]].
Proof. unfold splitList. by simp splitLoop. Qed.

(** ** utils.js: [taskQueue] *)

Lemma successes_app k l more :
  successes k (l ++ more) = (successes k l + successes k more)%nat.
Proof. unfold successes. by rewrite List.filter_app, length_app. Qed.

Lemma successes_error k i e : successes k [(i, Some e)] = 0%nat.
Proof. unfold successes. simpl. by rewrite andb_false_r. Qed.

Lemma successes_ok k i :
  successes k [(i, None)] = if Nat.eqb i k then 1%nat else 0%nat.
Proof. unfold successes. simpl. rewrite andb_true_r. by destruct (Nat.eqb i k). Qed.

Lemma successes_In k l :
  (1 <= successes k l)%nat <-> In (k, None) l.
Proof.
  unfold successes. induction l as [|[i err] l IH]; simpl; [split; [lia|done]|].
  destruct (Nat.eqb_spec i k) as [->|Hne], err as [e|]; simpl.
  - rewrite IH. split; [by right | by intros [|]].
  - split; [by left | lia].
  - rewrite IH. split; [by right | intros [[= ? ?]|]; done].
  - rewrite IH. split; [by right | intros [[= ?]|]; done].
Qed.

(** After the completions [l]: the [i] of every task is its index less
    its calls without an error, and [callback] has been called as the
    theorem below says. *)
Lemma taskQueue_state n l :
  let st :=
    fold_left taskDone l
      (mkTaskState Z.of_nat (if Nat.eqb n 0 then [None] else [])) in
  (forall k, tq_i st k = Z.of_nat k - Z.of_nat (successes k l))
  /\ (forall e, In (Some e) (tq_callbacks st) <-> exists i, In (i, Some e) l)
  /\ (In None (tq_callbacks st)
      <-> n = 0%nat \/ exists k, (1 <= k <= successes k l)%nat).
Proof.
  induction l as [|[index err] l IH] using rev_ind.
  - simpl. split; [intros k; unfold successes; simpl; lia|]. split.
    + intros e. split; [|by intros (i & [])].
      destruct (Nat.eqb n 0); [by intros [|[]] | done].
    + split.
      * destruct (Nat.eqb_spec n 0); [by left | done].
      * intros [->|(k & Hk)]; [by left|]. unfold successes in Hk. simpl in Hk. lia.
  - rewrite fold_left_app. cbn [fold_left]. cbv zeta in IH.
    set (st := fold_left taskDone l _) in *.
    destruct IH as (Hi & Herr & Hok).
    destruct err as [e|]; cbn [taskDone tq_i tq_callbacks].
    + split.
      { intros k. rewrite successes_app, successes_error, Hi. lia. }
      split.
      * intros e'. rewrite in_app_iff, Herr. split.
        -- intros [(i & Hin)|[[= ->]|[]]].
           ++ exists i. apply in_or_app. by left.
           ++ exists index. apply in_or_app. right. by left.
        -- intros (i & Hin). apply in_app_or in Hin as [Hin|[[= -> ->]|[]]].
           ++ left. eauto.
           ++ right. by left.
      * rewrite in_app_iff, Hok. split.
        -- intros [[->|(k & Hk)]|[|[]]]; [by left | | done].
           right. exists k. rewrite successes_app. lia.
        -- intros [->|(k & Hk)]; [left; by left|]. left. right. exists k.
           rewrite successes_app, successes_error in Hk. lia.
    + assert (Hone : forall k,
        successes k (l ++ [(index, None)])
        = (successes k l + (if Nat.eqb index k then 1 else 0))%nat).
      { intros k. by rewrite successes_app, successes_ok. }
      split.
      { intros k. rewrite Hone. rewrite (Nat.eqb_sym index k).
        destruct (Nat.eqb_spec k index) as [->|Hne]; rewrite Hi; lia. }
      split.
      * intros e. rewrite in_app_iff, Herr. split.
        -- intros [(i & Hin)|Hin].
           ++ exists i. apply in_or_app. by left.
           ++ destruct (tq_i st index - 1 =? 0); [by destruct Hin as [|[]] | done].
        -- intros (i & Hin). apply in_app_or in Hin as [Hin|[[= ]|[]]].
           left. eauto.
      * rewrite in_app_iff, Hok, Hi. split.
        -- intros [[->|(k & Hk)]|Hin]; [by left | |].
           ++ right. exists k. rewrite Hone. lia.
           ++ destruct (Z.eqb_spec (Z.of_nat index - Z.of_nat (successes index l) - 1) 0)
                as [Hz|]; [|done].
              right. exists index. rewrite Hone, Nat.eqb_refl. lia.
        -- intros [->|(k & Hk)]; [left; by left|].
           rewrite Hone in Hk.
           destruct (Nat.eqb_spec index k) as [->|Hne].
           ++ destruct (decide (k <= successes k l)%nat) as [Hle|Hgt].
              ** left. right. exists k. lia.
              ** right.
                 destruct (Z.eqb_spec (Z.of_nat k - Z.of_nat (successes k l) - 1) 0)
                   as [_|Hnz]; [by left | lia].
           ++ left. right. exists k. lia.
Qed.

(** X10: [taskQueue] calls [callback] with an error each time a task
    passes one, and without an error when the list is empty or some
    task of index [k >= 1] has called back without an error [k] times:
    the task of index 0 never leads to it. When no task calls back
    without an error twice, [callback] is called without an error
    exactly when the list is empty or the task of index 1 has
    succeeded, whatever the other tasks have done. *)
Theorem taskQueue_callbacks (n : nat) (completions : list (nat * option Error)) :
  (forall e, In (Some e) (taskQueue n completions)
     <-> exists i, In (i, Some e) completions)
  /\ (In None (taskQueue n completions)
      <-> n = 0%nat \/ exists k, (1 <= k <= successes k completions)%nat)
  /\ ((forall k, (successes k completions <= 1)%nat) ->
      (In None (taskQueue n completions)
       <-> n = 0%nat \/ In (1%nat, None) completions)).
Proof.
  destruct (taskQueue_state n completions) as (_ & Herr & Hok).
  unfold taskQueue. split; [exact Herr|]. split; [exact Hok|].
  intros Honce. rewrite Hok. split.
  - intros [->|(k & Hlo & Hhi)]; [by left|]. right.
    specialize (Honce k).
    assert (k = 1%nat) as -> by lia. by apply successes_In.
  - intros [->|Hin]; [by left|]. right. exists 1%nat.
    apply successes_In in Hin. lia.
Qed.

(** [run] gives [taskQueue] the two tasks [uploadAssets] (index 0) and
    [cleanCDN] (index 1): the end of [cleanCDN] alone calls back, and a
    later failure of [uploadAssets] calls back again. A single task that
    succeeds never calls back. A task of index 2 calls back at its
    second call without an error. *)
Example taskQueue_run_cleanCDN_first :
  taskQueue 2 [(1%nat, None)] = [None]
  /\ taskQueue 2 [(1%nat, None); (0%nat, Some (TransportError "upload"))]
     = [None; Some (TransportError "upload")]
  /\ taskQueue 2 [(0%nat, None)] = []
  /\ taskQueue 1 [(0%nat, None)] = []
  /\ taskQueue 3 [(2%nat, None); (2%nat, None)] = [None]
  /\ taskQueue 3 [(2%nat, None); (1%nat, None); (1%nat, None)] = [None].
Proof. repeat split. Qed.

(** ** utils.js: [asyncQueue] *)

Lemma errorCount_nonneg callbacks : 0 <= errorCount callbacks.
Proof. unfold errorCount. lia. Qed.

Lemma errorCount_app callbacks more :
  errorCount (callbacks ++ more) = errorCount callbacks + errorCount more.
Proof. unfold errorCount. rewrite List.filter_app, length_app. lia. Qed.

Lemma errorCount_0_no_error callbacks :
  errorCount callbacks = 0 -> forall e, ~ In (Some e) callbacks.
Proof.
  unfold errorCount. induction callbacks as [|[e'|] l IH]; simpl; intros H0 e.
  - tauto.
  - lia.
  - intros [Hc|Hc]; [discriminate | by apply (IH H0 e)].
Qed.

Lemma callbacks_only_None (callbacks : list (option Error)) :
  errorCount callbacks = 0 -> ~ In None callbacks -> callbacks = [].
Proof.
  destruct callbacks as [|[e|] l]; [done| |].
  - unfold errorCount. simpl. lia.
  - intros _ Hno. contradict Hno. by left.
Qed.

Section AsyncQueueFacts.
Context {A : Type}.
Implicit Types (st : QueueState A).

Lemma queueInv_start (list_ : list A) limit : queueInv list_ limit (asyncQueue list_ limit).
Proof.
  unfold asyncQueue, queueInv.
  destruct (Z.eqb_spec (Z.min (Z.of_nat (length list_)) limit) 0) as [H0|Hn0];
    simpl; unfold errorCount; simpl.
  - repeat split; try done; try lia; auto.
  - repeat split; try done; try lia; try tauto.
Qed.

Lemma queueInv_tick (list_ : list A) st :
  aq_queue st <> [] ->
  aq_started st ++ aq_queue st = list_ ->
  aq_started (tick st) ++ aq_queue (tick st) = list_
  /\ length (aq_inflight (tick st)) = S (length (aq_inflight st))
  /\ aq_started (tick st) <> []
  /\ aq_i (tick st) = aq_i st /\ aq_limit (tick st) = aq_limit st
  /\ aq_looping (tick st) = aq_looping st
  /\ aq_callbacks (tick st) = aq_callbacks st
  /\ (length (aq_queue (tick st)) < length (aq_queue st))%nat.
Proof.
  intros Hq Hl. unfold tick. destruct (aq_queue st) as [|cur queue]; [done|].
  simpl. rewrite <- app_assoc, length_app. simpl.
  repeat split; try done; try lia. by destruct (aq_started st).
Qed.

Lemma queueInv_step (list_ : list A) limit st st' :
  queueInv list_ limit st -> queueStep st st' -> queueInv list_ limit st'.
Proof.
  intros (Hl & Hlim & Hi & Hbound & Hnone & Hzero & Hexit & Hlast) Hstep.
  pose proof (errorCount_nonneg (aq_callbacks st)) as Herr.
  destruct Hstep as [st Hloop | st before x after err Hfl].
  - (* a turn of the loop *)
    unfold loopTurn.
    destruct (Z.ltb_spec (aq_i st) (aq_limit st)) as [Hlt|Hge];
      destruct (Nat.eqb_spec (length (aq_queue st)) 0) as [Hq0|Hq]; simpl.
    + apply length_zero_iff_nil in Hq0.
      split; [done|]. split; [done|]. split; [done|]. split; [done|].
      split; [done|]. split; [simpl; intros H0; by destruct (Hzero H0)|].
      split; [simpl; intros _; by right; left | done].
    + set (st1 := mkQueueState _ _ _ _ _ _ _).
      assert (Hq1 : aq_queue st1 <> []) by (simpl; by destruct (aq_queue st)).
      destruct (queueInv_tick list_ st1 Hq1 Hl)
        as (Hl' & Hfl' & Hst' & Hi' & Hlim' & Hloop' & Hcb' & _).
      unfold queueInv. rewrite Hi', Hlim', Hloop', Hcb', Hfl'. simpl.
      split; [done|]. split; [done|]. split; [lia|]. split; [lia|].
      split; [|split; [|split]].
      * intros Hin. exfalso. destruct (Hnone Hin) as (Hcb & Hnil & [H0|Hqn]).
        -- lia.
        -- apply Hq. by rewrite Hqn.
      * intros H0. lia.
      * discriminate.
      * intros H0. lia.
    + apply length_zero_iff_nil in Hq0.
      split; [done|]. split; [done|]. split; [done|]. split; [done|].
      split; [done|]. split; [simpl; intros H0; by destruct (Hzero H0)|].
      split; [simpl; intros _; by right; left | done].
    + split; [done|]. split; [done|]. split; [done|]. split; [done|].
      split; [done|]. split; [simpl; intros H0; by destruct (Hzero H0)|].
      split; [simpl; intros _; by right; right | done].
  - (* a handler calls back *)
    rewrite Hfl in Hi. rewrite length_app in Hi. simpl in Hi.
    assert (Hno : ~ In None (aq_callbacks st)).
    { intros Hin. destruct (Hnone Hin) as (_ & Hnil & _).
      rewrite Hfl in Hnil. by destruct before. }
    assert (Hlim0 : aq_limit st <> 0).
    { intros H0. destruct (Hzero H0) as [Hcb _]. apply Hno. rewrite Hcb. by left. }
    set (st0 := mkQueueState _ _ _ _ _ _ _).
    destruct err as [e|]; simpl.
    + (* with an error *)
      unfold queueInv; simpl. rewrite errorCount_app, length_app.
      change (errorCount [Some e]) with 1.
      split; [done|]. split; [done|]. split; [lia|]. split; [done|].
      split; [|split; [|split]].
      * intros Hin. apply in_app_or in Hin as [Hin|[Hin|[]]];
          [contradiction | discriminate].
      * intros H0. contradiction.
      * done.
      * intros H0. lia.
    + (* without *)
      destruct (Nat.eqb_spec (length (aq_queue st)) 0) as [Hq0|Hq]; simpl.
      * apply length_zero_iff_nil in Hq0.
        unfold queueInv; simpl. rewrite errorCount_app, length_app.
        destruct (Z.eqb_spec (aq_i st - 1) 0) as [Hi0|Hin0].
        -- assert (Hbefore : before ++ after = []).
           { apply length_zero_iff_nil. rewrite length_app. lia. }
           assert (Hcb : aq_callbacks st = []).
           { apply callbacks_only_None; [lia | done]. }
           rewrite Hbefore, Hcb. change (errorCount []) with 0.
           change (errorCount [None]) with 0. simpl.
           split; [done|]. split; [done|]. split; [lia|]. split; [lia|].
           split; [intros _; split; [done|]; split; [done|]; by right|].
           split; [intros H0; contradiction|].
           split; [intros _; by right; left|].
           intros _ _. by left.
        -- rewrite app_nil_r. change (errorCount []) with 0.
           split; [done|]. split; [done|]. split; [lia|]. split; [lia|].
           split; [intros Hin; contradiction|].
           split; [intros H0; contradiction|].
           split; [intros _; by right; left|].
           intros H0. lia.
      * assert (Hq1 : aq_queue st0 <> []) by (simpl; by destruct (aq_queue st)).
        destruct (queueInv_tick list_ st0 Hq1 Hl)
          as (Hl' & Hfl' & Hst' & Hi' & Hlim' & Hloop' & Hcb' & Hshorter).
        unfold queueInv. rewrite Hi', Hlim', Hloop', Hcb', Hfl'. simpl.
        rewrite length_app.
        split; [done|]. split; [done|]. split; [lia|]. split; [done|].
        split; [intros Hin; contradiction|].
        split; [intros H0; contradiction|].
        split.
        -- intros Hfalse. destruct (Hexit Hfalse) as [H0|[Hqn|Hge]].
           ++ contradiction.
           ++ exfalso. apply Hq. by rewrite Hqn.
           ++ by right; right.
        -- intros H0. lia.
Qed.

Lemma queueRun_inv (list_ : list A) limit st : queueRun list_ limit st -> queueInv list_ limit st.
Proof.
  induction 1 as [|st st' _ IH Hstep]; [apply queueInv_start|].
  by eapply queueInv_step.
Qed.
End AsyncQueueFacts.

Lemma no_error_errorCount (callbacks : list (option Error)) :
  (forall e, ~ In (Some e) callbacks) -> errorCount callbacks = 0.
Proof.
  unfold errorCount. induction callbacks as [|[e|] l IH]; simpl; intros Hno.
  - done.
  - exfalso. apply (Hno e). by left.
  - apply IH. intros e He. apply (Hno e). by right.
Qed.

Lemma queue_ab_run : queueRun ["a"; "b"] 1 queue_ab_4.
Proof.
  assert (H0 : queueRun ["a"; "b"] 1 queue_ab_0) by apply run_start.
  assert (H1 : queueRun ["a"; "b"] 1 queue_ab_1).
  { apply (run_step _ _ _ _ H0). by apply step_loop. }
  assert (H2 : queueRun ["a"; "b"] 1 queue_ab_2).
  { apply (run_step _ _ _ _ H1). by apply step_loop. }
  assert (H3 : queueRun ["a"; "b"] 1 queue_ab_3).
  { apply (run_step _ _ _ _ H2). by apply (step_done queue_ab_2 [] "a" [] None). }
  apply (run_step _ _ _ _ H3). by apply (step_done queue_ab_3 [] "b" [] None).
Defined.

Example queue_ab_states :
  aq_inflight queue_ab_1 = ["a"] /\ aq_looping queue_ab_2 = false
  /\ aq_inflight queue_ab_3 = ["b"] /\ aq_callbacks queue_ab_3 = []
  /\ aq_callbacks queue_ab_4 = [None] /\ aq_started queue_ab_4 = ["a"; "b"].
Proof. repeat split. Qed.

Section AsyncQueueTheorems.
Context {A : Type}.

(** X11: at every moment of a call of [asyncQueue], the items handed
    to the handler so far and the items still queued are, in this
    order, the list: every item goes to the handler at most once and
    in the order of the list. The handlers that have not called back
    yet are never more than [limit] (none when [limit] is negative). *)
Theorem asyncQueue_in_order_and_bounded
    (list_ : list A) (limit : Z) (st : QueueState A)
    (Hrun : queueRun list_ limit st) :
  aq_started st ++ aq_queue st = list_
  /\ Z.of_nat (length (aq_inflight st)) <= Z.max 0 limit
  /\ (length (aq_inflight st) <= length list_)%nat.
Proof.
  destruct (queueRun_inv list_ limit st Hrun)
    as (Hl & Hlim & Hi & Hbound & _).
  pose proof (errorCount_nonneg (aq_callbacks st)).
  split; [done|]. split; lia.
Qed.

(** X12: [asyncQueue] calls [callback] without an error at most once,
    and then it has called it with no error before, no handler is still
    running and, unless the list was empty or [limit] was 0, every item
    has been handed to the handler. *)
Theorem asyncQueue_success_once
    (list_ : list A) (limit : Z) (st : QueueState A)
    (Hrun : queueRun list_ limit st)
    (Hdone : In None (aq_callbacks st)) :
  aq_callbacks st = [None]
  /\ aq_inflight st = []
  /\ (Z.min (Z.of_nat (length list_)) limit = 0 \/ aq_started st = list_).
Proof.
  destruct (queueRun_inv list_ limit st Hrun)
    as (Hl & Hlim & _ & _ & Hnone & _).
  destruct (Hnone Hdone) as (Hcb & Hfl & Hcase).
  split; [done|]. split; [done|].
  destruct Hcase as [H0|Hq]; [left; by rewrite <- Hlim|].
  right. rewrite Hq, app_nil_r in Hl. done.
Qed.

(** X13: for a [limit] of 1 or more, once the loop has ended and every
    handler that was called has called back, none with an error,
    [asyncQueue] has handed every item to the handler and has called
    [callback], once and without an error. *)
Theorem asyncQueue_completes
    (list_ : list A) (limit : Z) (st : QueueState A)
    (Hrun : queueRun list_ limit st)
    (Hlimit : 1 <= limit)
    (Hloop : aq_looping st = false)
    (Hidle : aq_inflight st = [])
    (Hok : forall e, ~ In (Some e) (aq_callbacks st)) :
  aq_callbacks st = [None] /\ aq_started st = list_ /\ aq_queue st = [].
Proof.
  destruct (queueRun_inv list_ limit st Hrun)
    as (Hl & Hlim & Hi & Hbound & Hnone & Hzero & Hexit & Hlast).
  rewrite Hidle, (no_error_errorCount _ Hok) in Hi. simpl in Hi.
  destruct (Z.eq_dec (aq_limit st) 0) as [H0|Hn0].
  - destruct (Hzero H0) as [Hcb _].
    assert (Hnil : list_ = []).
    { apply length_zero_iff_nil. lia. }
    rewrite Hnil in Hl. apply app_eq_nil in Hl as [Hs Hq]. by rewrite Hnil.
  - destruct (Hexit Hloop) as [H0|[Hq|Hge]]; [done| |lia].
    rewrite Hq, app_nil_r in Hl.
    assert (Hne : aq_started st <> []).
    { rewrite Hl. intros ->. simpl in Hlim. lia. }
    destruct (Hnone (Hlast Hi Hne)) as (Hcb & _). done.
Qed.
End AsyncQueueTheorems.

Lemma asyncQueue_in_order_and_bounded_witness :
  aq_started queue_ab_4 ++ aq_queue queue_ab_4 = ["a"; "b"]
  /\ Z.of_nat (length (aq_inflight queue_ab_4)) <= Z.max 0 1
  /\ (length (aq_inflight queue_ab_4) <= length ["a"; "b"])%nat.
Proof. exact (asyncQueue_in_order_and_bounded _ _ _ queue_ab_run). Defined.

Lemma asyncQueue_success_once_witness :
  In None (aq_callbacks queue_ab_4) /\ aq_callbacks queue_ab_4 = [None].
Proof.
  assert (Hdone : In None (aq_callbacks queue_ab_4)) by (by left).
  split; [exact Hdone|].
  exact (proj1 (asyncQueue_success_once _ _ _ queue_ab_run Hdone)).
Defined.

Lemma asyncQueue_completes_witness :
  aq_looping queue_ab_4 = false /\ aq_inflight queue_ab_4 = []
  /\ aq_callbacks queue_ab_4 = [None].
Proof.
  assert (Hok : forall e, ~ In (Some e) (aq_callbacks queue_ab_4)).
  { intros e [H|[]]. discriminate H. }
  split; [reflexivity|]. split; [reflexivity|].
  refine (proj1 (asyncQueue_completes _ 1 _ queue_ab_run _ eq_refl eq_refl Hok)).
  lia.
Defined.

(** Two handlers that fail: [callback] is called with an error twice. *)
Example asyncQueue_two_errors :
  let st1 := loopTurn (loopTurn (asyncQueue ["a"; "b"] 2)) in
  let st2 :=
    handlerDone (Some (TransportError "a"))
      (mkQueueState (aq_queue st1) (aq_i st1) (aq_limit st1) (aq_looping st1)
         ["b"] (aq_started st1) (aq_callbacks st1)) in
  let st3 :=
    handlerDone (Some (TransportError "b"))
      (mkQueueState (aq_queue st2) (aq_i st2) (aq_limit st2) (aq_looping st2)
         [] (aq_started st2) (aq_callbacks st2)) in
  aq_callbacks st3 = [Some (TransportError "a"); Some (TransportError "b")].
Proof. reflexivity. Qed.

(** A [limit] of 0 reports success without handing anything over. *)
Example asyncQueue_limit_0 :
  aq_callbacks (asyncQueue ["a"; "b"] 0) = [None]
  /\ aq_started (asyncQueue ["a"; "b"] 0) = [].
Proof. split; reflexivity. Qed.

(** ** The constructor *)

Lemma prefix_append p s t :
  String.prefix p s = true -> String.prefix p (String.append s t) = true.
Proof.
  revert s. induction p as [|a p IH]; intros s Hp.
  { destruct s; [destruct t|]; reflexivity. }
  destruct s as [|b s]; [discriminate|].
  change (String.prefix (String a p) (String b (String.append s t)) = true).
  simpl in *. destruct (ascii_dec a b); [by apply IH | discriminate].
Qed.

Lemma prefix_cons_inv a p s :
  String.prefix (String a p) s = true ->
  exists s', s = String a s' /\ String.prefix p s' = true.
Proof.
  destruct s as [|b s]; [discriminate|]. intros H.
  change (match ascii_dec a b with
          | left _ => String.prefix p s
          | right _ => false
          end = true) in H.
  destruct (ascii_dec a b) as [<-|]; [eauto | discriminate].
Qed.

Lemma str_append_assoc a b c :
  String.append (String.append a b) c = String.append a (String.append b c).
Proof.
  induction a as [|x a IH]; [reflexivity|].
  change (String x (String.append (String.append a b) c)
          = String x (String.append a (String.append b c))).
  by rewrite IH.
Qed.

Lemma str_append_empty s : String.append s EmptyString = s.
Proof.
  induction s as [|c s IH]; [reflexivity|].
  change (String c (String.append s EmptyString) = String c s). by rewrite IH.
Qed.

Lemma validateRequired_first obj keys :
  match validateRequired obj keys with
  | Some key =>
      obj !! key = None
      /\ exists before after,
           keys = before ++ key :: after
           /\ forall k, In k before -> is_Some (obj !! k)
  | None => forall k, In k keys -> is_Some (obj !! k)
  end.
Proof.
  induction keys as [|key rest IH]; simpl; [by intros k []|].
  destruct (obj !! key) as [v|] eqn:Hkey.
  - destruct (validateRequired obj rest) as [missing|].
    + destruct IH as (Hnone & before & after & -> & Hbefore).
      split; [done|]. exists (key :: before), after. split; [done|].
      intros k [<-|Hk]; [by rewrite Hkey | by apply Hbefore].
    + intros k [<-|Hk]; [by rewrite Hkey | by apply IH].
  - split; [done|]. exists [], rest. split; [done|]. by intros k [].
Qed.

(** X14: the constructor throws for the first required option, in the
    order accessKey, secretKey, bucket, cdnHost, that is missing, and
    for a host that does not start with [//], [http://] or [https://];
    otherwise the public path is the host, a slash and the key prefix,
    and the URL base of the remote files is the public path with
    [http:] put before it when the host has no scheme, so that it
    always starts with [http://] or [https://]. *)
Theorem constructor_paths (options : gmap string string) :
  match Constructor.constructor options with
  | inl (MissingRequiredProperty key) =>
      options !! key = None
      /\ exists before after,
           Constructor.requiredKeys = before ++ key :: after
           /\ forall k, In k before -> is_Some (options !! k)
  | inl IllegalCdnHost =>
      (forall k, In k Constructor.requiredKeys -> is_Some (options !! k))
      /\ exists cdnHost, options !! "cdnHost" = Some cdnHost
           /\ Constructor.hostTest cdnHost = false
  | inr paths =>
      (forall k, In k Constructor.requiredKeys -> is_Some (options !! k))
      /\ exists cdnHost, options !! "cdnHost" = Some cdnHost
           /\ Constructor.hostTest cdnHost = true
           /\ publicPath paths
              = String.append cdnHost (String.append "/" (qiniuPrefix paths))
           /\ (remotePathname_ paths = publicPath paths
               \/ remotePathname_ paths = String.append "http:" (publicPath paths))
           /\ (String.prefix "http://" (remotePathname_ paths) = true
               \/ String.prefix "https://" (remotePathname_ paths) = true)
  end.
Proof.
  unfold Constructor.constructor.
  pose proof (validateRequired_first options Constructor.requiredKeys) as Hreq.
  destruct (validateRequired options Constructor.requiredKeys) as [key|]; [done|].
  assert (Hhost : is_Some (options !! "cdnHost")).
  { apply Hreq. simpl. tauto. }
  destruct Hhost as [cdnHost Hhost]. rewrite Hhost. simpl default.
  destruct (Constructor.hostTest cdnHost) eqn:Htest; simpl.
  2: { split; [done|]. by exists cdnHost. }
  split; [done|]. exists cdnHost. split; [done|]. split; [done|].
  set (dir := default EmptyString (options !! "dir")).
  assert (Hpub : forall rest,
    let p := String.append (String.append cdnHost "/") rest in
    p = String.append cdnHost (String.append "/" rest)
    /\ ((if String.prefix "//" p then String.append "http:" p else p) = p
        \/ (if String.prefix "//" p then String.append "http:" p else p)
           = String.append "http:" p)
    /\ (String.prefix "http://" (if String.prefix "//" p
                                 then String.append "http:" p else p) = true
        \/ String.prefix "https://" (if String.prefix "//" p
                                     then String.append "http:" p else p) = true)).
  { intros rest p.
    assert (Hp : p = String.append cdnHost (String.append "/" rest)).
    { subst p. apply str_append_assoc. }
    split; [done|]. split; [destruct (String.prefix "//" p); auto|].
    unfold Constructor.hostTest in Htest.
    apply orb_true_iff in Htest as [Htest|Hhttps].
    - apply orb_true_iff in Htest as [Hrel|Hhttp].
      + assert (Hpp : String.prefix "//" p = true).
        { rewrite Hp. by apply prefix_append. }
        rewrite Hpp. left.
        apply prefix_cons_inv in Hpp as (p1 & -> & Hpp).
        apply prefix_cons_inv in Hpp as (p2 & -> & _).
        destruct p2; reflexivity.
      + assert (Hpp : String.prefix "http://" p = true).
        { rewrite Hp. by apply prefix_append. }
        destruct (prefix_cons_inv _ _ _ Hpp) as (p1 & Hp1 & _).
        rewrite Hp1 in *. left. exact Hpp.
    - assert (Hpp : String.prefix "https://" p = true).
      { rewrite Hp. by apply prefix_append. }
      destruct (prefix_cons_inv _ _ _ Hpp) as (p1 & Hp1 & _).
      rewrite Hp1 in *. right. exact Hpp. }
  destruct (String.eqb dir EmptyString); simpl.
  - destruct (Hpub EmptyString) as (_ & H2 & H3).
    rewrite str_append_empty in H2, H3. done.
  - apply (Hpub (String.append dir "/")).
Qed.

Example constructor_example :
  Constructor.constructor options_example
  = inr (mkPluginPaths "access/" "//cdn.host/access/" "http://cdn.host/access/")
  /\ Constructor.constructor (delete "bucket" (delete "accessKey" options_example))
     = inl (MissingRequiredProperty "accessKey")
  /\ Constructor.constructor (<["cdnHost" := "cdn.host"]> options_example)
     = inl IllegalCdnHost.
Proof. repeat split; vm_compute; reflexivity. Qed.

(** ** QiniuHelper.js: the listing and the keys *)

Lemma load_pages prefix responses : forall result,
  match Listing.load prefix responses result with
  | Some (Listed files) =>
      exists n,
        files
        = result ++ map (Listing.listedFile prefix)
                      (flat_map lr_items (take n responses))
  | _ => True
  end.
Proof.
  induction responses as [|r later IH]; intros result; simpl; [done|].
  destruct (lr_err r); [done|].
  destruct (lr_statusCode r =? 200); simpl; [|done].
  destruct (truthy (lr_marker r)).
  - specialize (IH (result ++ map (Listing.listedFile prefix) (lr_items r))).
    destruct (Listing.load prefix later _) as [[err|files]|]; try done.
    destruct IH as [n ->]. exists (S n). simpl.
    by rewrite map_app, app_assoc.
  - exists 1%nat. simpl. by rewrite ?take_0, ?app_nil_r.
Qed.

Lemma str_append_inj prefix a b :
  String.append prefix a = String.append prefix b -> a = b.
Proof.
  induction prefix as [|c p IH]; [done|]. intros H.
  change (String c (String.append p a) = String c (String.append p b)) in H.
  injection H as H. by apply IH.
Qed.

Lemma listedFile_names_NoDup prefix items :
  Forall (fun item => underPrefix prefix (li_key item)) items ->
  NoDup (li_key <$> items) ->
  NoDup (name <$> map (Listing.listedFile prefix) items).
Proof.
  induction items as [|item items IH]; intros Hunder Hnodup; simpl.
  - constructor.
  - apply Forall_cons in Hunder as [[n Hn] Hunder].
    rewrite fmap_cons in Hnodup. apply NoDup_cons in Hnodup as [Hnotin Hnodup].
    apply NoDup_cons. split; [|by apply IH].
    intros Hin. apply Hnotin.
    apply list_elem_of_fmap in Hin as (f & Hf & Hin).
    apply list_elem_of_In, in_map_iff in Hin as (item' & <- & Hin').
    apply list_elem_of_fmap. exists item'. split; [|by apply list_elem_of_In].
    rewrite Forall_forall in Hunder.
    destruct (Hunder item' (proj2 (list_elem_of_In _ _) Hin')) as [n' Hn'].
    simpl in Hf. rewrite Hn, Hn' in Hf.
    destruct (removePrefix_undoes_prepend_aux prefix n) as [Hr _].
    destruct (removePrefix_undoes_prepend_aux prefix n') as [Hr' _].
    rewrite Hr, Hr' in Hf. by rewrite Hn, Hn', Hf.
Qed.

Lemma initCDNStatus_remote JSON_parse logFileName remotePathname files readLog
    log status :
  exists kept,
    kept `sublist_of` files
    /\ us_remote
         (InitCDN.initCDNStatus JSON_parse logFileName remotePathname
            (Listed files) readLog log status).1.2
       = map (fun item => mkLogDetail (name item) (rf_hash item)) kept.
Proof.
  unfold InitCDN.initCDNStatus.
  destruct (findIndex _ files) as [i|].
  - exists (delete i files). split; [apply sublist_delete|].
    by destruct (InitCDN.readLogCallback _ _ _ _).
  - by exists files.
Qed.

(** X15: when the keys the store lists are all under the prefix and
    pairwise distinct, the files [listCdnFiles] returns have pairwise
    distinct names, each the key of a listed item without the prefix,
    and the filenames [initCDNStatus] leaves in [uploadStatus.remote]
    are pairwise distinct as well. *)
Theorem listed_names_unique
    (JSON_parse : string -> option (list LogRecord))
    (prefix : string) (responses : list ListResponse) (files : list RemoteFile)
    (logFileName remotePathname : string) (readLog : string -> ReadResult)
    (log : list LogRecord) (status : UploadStatus)
    (Hlisted : Listing.listCdnFiles prefix responses = Some (Listed files))
    (Hunder : Forall (fun item => underPrefix prefix (li_key item))
                (flat_map lr_items responses))
    (Hkeys : NoDup (li_key <$> flat_map lr_items responses)) :
  NoDup (name <$> files)
  /\ (forall file, In file files ->
        exists item, In item (flat_map lr_items responses)
          /\ li_key item = String.append prefix (name file)
          /\ li_hash item = rf_hash file)
  /\ NoDup (filename
              <$> us_remote
                    (InitCDN.initCDNStatus JSON_parse logFileName remotePathname
                       (Listed files) readLog log status).1.2).
Proof.
  unfold Listing.listCdnFiles in Hlisted.
  pose proof (load_pages prefix responses []) as Hpages.
  rewrite Hlisted in Hpages. destruct Hpages as [n ->]. rewrite app_nil_l.
  assert (Hsplit : flat_map lr_items responses
                   = flat_map lr_items (take n responses)
                     ++ flat_map lr_items (drop n responses)).
  { by rewrite <- flat_map_app, take_drop. }
  rewrite Hsplit in Hunder, Hkeys.
  apply Forall_app in Hunder as [Hunder _].
  rewrite fmap_app in Hkeys. apply NoDup_app in Hkeys as (Hkeys & _ & _).
  set (items := flat_map lr_items (take n responses)) in *.
  assert (Hnames : NoDup (name <$> map (Listing.listedFile prefix) items))
    by (by apply listedFile_names_NoDup).
  split; [done|]. split.
  - intros file Hin. apply in_map_iff in Hin as (item & <- & Hitem).
    exists item. split; [rewrite Hsplit; apply in_or_app; by left|].
    split; [|done]. simpl.
    rewrite Forall_forall in Hunder.
    destruct (Hunder item (proj2 (list_elem_of_In _ _) Hitem)) as [n' Hn'].
    rewrite Hn'. by destruct (removePrefix_undoes_prepend_aux prefix n') as [-> _].
  - destruct (initCDNStatus_remote JSON_parse logFileName remotePathname
                (map (Listing.listedFile prefix) items) readLog log status)
      as (kept & Hsub & ->).
    rewrite <- list_fmap_compose.
    eapply sublist_NoDup; [exact Hnames|].
    change (filename ∘ (fun item : RemoteFile => mkLogDetail (name item) (rf_hash item)))
      with name.
    by apply fmap_sublist.
Qed.

(** X16: a file uploaded under the key of [uploadBuffer] is listed back
    under its name with slashes, and the entry the diff records for a
    local file is deleted by [batchDelete] under the very key it was
    uploaded under. *)
Theorem upload_key_round_trip `{PathModule}
    (prefix filekey outputPath : string) (file : LocalFile) :
  removePrefix (Listing.uploadKey prefix filekey) (Some prefix)
    = utils.filePath2Uri filekey
  /\ Listing.deleteKey prefix (filename (logItem outputPath file))
     = Listing.uploadKey prefix (filename (logItem outputPath file)).
Proof.
  split.
  - unfold Listing.uploadKey.
    by destruct (removePrefix_undoes_prepend_aux prefix (utils.filePath2Uri filekey))
      as [-> _].
  - unfold Listing.deleteKey, Listing.uploadKey, logItem, QiniuCDNPlugin.fileUriOf.
    simpl filename.
    by destruct (filePath2Uri_no_backslash_aux
                   (path_relative outputPath (filePath file))) as (_ & _ & -> & _).
Qed.


Lemma listed_names_unique_witness :
  Listing.listCdnFiles "access/" responses_one_page
    = Some (Listed [mkRemoteFile "a.js" "h1"; mkRemoteFile "upload-log.json" "h9"])
  /\ NoDup (name <$> [mkRemoteFile "a.js" "h1"; mkRemoteFile "upload-log.json" "h9"]).
Proof.
  assert (Hlisted : Listing.listCdnFiles "access/" responses_one_page
    = Some (Listed [mkRemoteFile "a.js" "h1"; mkRemoteFile "upload-log.json" "h9"]))
    by reflexivity.
  assert (Hunder : Forall (fun item => underPrefix "access/" (li_key item))
                     (flat_map lr_items responses_one_page)).
  { simpl. apply Forall_cons. split; [by exists "a.js"|].
    apply Forall_cons. split; [by exists "upload-log.json" | apply Forall_nil_2]. }
  assert (Hkeys : NoDup (li_key <$> flat_map lr_items responses_one_page)).
  { simpl. apply NoDup_cons. split.
    - apply not_elem_of_cons. split; [discriminate | apply not_elem_of_nil].
    - apply NoDup_singleton. }
  split; [exact Hlisted|].
  exact (proj1 (listed_names_unique (fun _ => None) "access/" responses_one_page _
                  "upload-log.json" "http://cdn.host/access/"
                  (fun _ => Response 404 EmptyString) [] emptyStatus
                  Hlisted Hunder Hkeys)).
Defined.

(** A second page is asked for only after a marker, and an error on it
    discards the first page. *)
Example listCdnFiles_pages :
  Listing.listCdnFiles "access/"
    [ mkListResponse None 200 EmptyString [mkListItem "access/a.js" "h1"] (Some "m1");
      mkListResponse None 200 EmptyString [mkListItem "access/b.js" "h2"] None ]
  = Some (Listed [mkRemoteFile "a.js" "h1"; mkRemoteFile "b.js" "h2"])
  /\ Listing.listCdnFiles "access/"
       [ mkListResponse None 200 EmptyString [mkListItem "access/a.js" "h1"] (Some "m1");
         mkListResponse None 599 "{}" [] None ]
     = Some (ListFailed (TransportError "list remote files error: {}")).
Proof. split; reflexivity. Qed.

(** ** The hash is safe in a URL *)

Lemma urlSafeChar_not_plus_slash c :
  urlSafeChar c <> "+"%char /\ urlSafeChar c <> "/"%char.
Proof.
  unfold urlSafeChar.
  destruct (Ascii.eqb_spec c "+"); [by split|].
  destruct (Ascii.eqb_spec c "/"); by split.
Qed.

(** X17: whatever the base64 of the digest is, the hash [hashFile]
    returns has as many characters, and none of them is [+] or [/]. *)
Theorem hashFile_url_safe `{NodeBuiltins} (buf : Buffer) :
  (forall c, In c (list_ascii_of_string (QiniuHelper.hashFile buf)) ->
     c <> "+"%char /\ c <> "/"%char)
  /\ exists fileHash,
       String.length (QiniuHelper.hashFile buf) = String.length (base64 fileHash)
       /\ (head fileHash = Some Byte.x16 \/ head fileHash = Some Byte.x96).
Proof.
  unfold QiniuHelper.hashFile. split.
  - intros c Hc. rewrite urlSafe_chars in Hc.
    apply in_map_iff in Hc as (c' & <- & _). apply urlSafeChar_not_plus_slash.
  - assert (Hlen : forall s, String.length (QiniuHelper.urlSafe s) = String.length s).
    { induction s as [|c s IH]; simpl; [done | by rewrite IH]. }
    destruct (Z.of_nat (length buf) <=? QiniuHelper.BUFFER_LENGTH_OF_4M);
      eexists; (split; [apply Hlen|]); simpl; auto.
Qed.

(** ** [initCDNStatus]: how often the callback is called *)

(** With a continuation that never throws, nothing is thrown and the
    run is the one of [InitCDN.initCDNStatus]. *)
Lemma initCDNStatus_returning JSON_parse logFileName remotePathname listing
    readLog log status :
  Throwing.initCDNStatus JSON_parse (fun _ => false) logFileName remotePathname
    listing readLog log status
  = (InitCDN.initCDNStatus JSON_parse logFileName remotePathname listing
       readLog log status, false).
Proof.
  unfold Throwing.initCDNStatus, InitCDN.initCDNStatus.
  destruct listing as [error|files]; [done|].
  destruct (findIndex _ files) as [i|]; [|done].
  unfold Throwing.readLogCallback, InitCDN.readLogCallback.
  destruct (readLog _) as [error|statusCode content_]; [done|].
  destruct ((statusCode =? 200) || (statusCode =? 304)).
  - by destruct (JSON_parse content_).
  - by destruct (statusCode =? 404).
Qed.

(** X18: [initCDNStatus] calls its callback once, but for two cases.
    When the log file is listed and its fetch answers 404, it does not
    call it. When the log file was fetched with status 200 or 304 and
    parsed, and the call [callback()] throws, the [catch] around it
    calls the callback a second time, with the parse error. The one
    call is without an error when the log file is not listed or was
    fetched with 200 or 304 and parsed. *)
Theorem initCDNStatus_callback_calls
    (JSON_parse : string -> option (list LogRecord))
    (callbackThrows : option Error -> bool)
    (logFileName remotePathname : string) (listing : ListResult)
    (readLog : string -> ReadResult) (log : list LogRecord)
    (status : UploadStatus) :
  let events :=
    (Throwing.initCDNStatus JSON_parse callbackThrows logFileName
       remotePathname listing readLog log status).1.2 in
  let listed :=
    match listing with
    | Listed files =>
        existsb (fun item => negb (String.eqb logFileName EmptyString)
                             && String.eqb (name item) logFileName) files
    | ListFailed _ => false
    end in
  match listing, listed, readLog (String.append remotePathname logFileName) with
  | ListFailed error, _, _ => callbacksOf events = [Some error]
  | Listed _, false, _ => callbacksOf events = [None]
  | Listed _, true, ReadFailed error => callbacksOf events = [Some error]
  | Listed _, true, Response statusCode content_ =>
      if (statusCode =? 200) || (statusCode =? 304) then
        match JSON_parse content_ with
        | Some _ =>
            if callbackThrows None
            then callbacksOf events = [None; Some ParseRemoteLogError]
            else callbacksOf events = [None]
        | None => callbacksOf events = [Some ParseRemoteLogError]
        end
      else if statusCode =? 404 then callbacksOf events = []
      else callbacksOf events = [Some (FetchRemoteLogError statusCode content_)]
  end.
Proof.
  intros events listed. subst events listed.
  destruct listing as [error|files]; [done|].
  unfold Throwing.initCDNStatus.
  set (p := fun item : RemoteFile => _).
  assert (Hfind : existsb p files = match findIndex p files with
                                    | Some _ => true | None => false end).
  { clear. induction files as [|x l IH]; simpl; [done|].
    destruct (p x); [done|]. rewrite IH. by destruct (findIndex p l). }
  rewrite Hfind. destruct (findIndex p files) as [i|];
    [|by destruct (callbackThrows None)].
  unfold Throwing.readLogCallback.
  destruct (readLog _) as [error|statusCode content_]; [done|].
  destruct ((statusCode =? 200) || (statusCode =? 304)).
  - destruct (JSON_parse content_); [|done]. by destruct (callbackThrows None).
  - by destruct (statusCode =? 404).
Qed.

(** A log that parses, and a continuation that throws when it is called
    without an error: the log is replaced, the callback is called
    twice, and nothing is thrown out of [initCDNStatus]. *)
Example initCDNStatus_callback_twice :
  Throwing.initCDNStatus (fun _ => Some log_three)
    (fun error => match error with None => true | Some _ => false end)
    "upload-log.json" "http://cdn.host/" listing_with_log
    (fun _ => Response 200 EmptyString) [] emptyStatus
  = (log_three,
     mkUploadStatus [mkLogDetail "a.js" "h1"] [] [] [] [] [],
     [Callback None; Callback (Some ParseRemoteLogError)], false).
Proof. reflexivity. Qed.

(** ** The log object: [append] *)

(** X19: [append] writes to the array of the log alone: the array given
    to [init] before, and every array but the one of the log, is as it
    was; the log holds the new snapshot first, then what it held. *)
Theorem append_after_init_leaves_caller_array
    (st : Heap.State) (content : Heap.loc) (log : LogRecord)
    (Hcontent : content ∈ dom (Heap.arrays st)) :
  let st1 := Heap.init content st in
  let st2 := Heap.append log st1 in
  Heap.arrays st2 !! content = Heap.arrays st !! content
  /\ Heap.record st2 = log :: VersionLog.init (Heap.arrays st !!! content)
  /\ (forall arr, arr <> Heap.this_record st1 ->
        Heap.arrays st2 !! arr = Heap.arrays st1 !! arr)
  /\ Heap.this_record st2 = Heap.this_record st1.
Proof.
  intros st1 st2.
  assert (Hrec : Heap.record st1 = VersionLog.init (Heap.arrays st !!! content))
    by apply Heap_init_record.
  assert (Hne : Heap.this_record st1 <> content).
  { subst st1. unfold Heap.init, Heap.array_slice, Heap.array_sort_in_place.
    simpl. intros Heq. rewrite <- Heq in Hcontent.
    by apply is_fresh in Hcontent. }
  assert (Hkeep : Heap.arrays st1 !! content = Heap.arrays st !! content).
  { subst st1. unfold Heap.init, Heap.array_slice, Heap.array_sort_in_place in *.
    simpl in *. by rewrite !lookup_insert_ne. }
  subst st2. unfold Heap.append, Heap.array_unshift.
  split; [simpl; by rewrite lookup_insert_ne|].
  split.
  { unfold Heap.record at 1. simpl. rewrite lookup_total_insert_eq.
    by rewrite <- Hrec. }
  split; [|done]. intros arr Harr. simpl. by rewrite lookup_insert_ne.
Qed.

Lemma append_after_init_leaves_caller_array_witness :
  2%positive ∈ dom (Heap.arrays heap_two_arrays)
  /\ Heap.arrays (Heap.append (mkLogRecord 40 [] [])
                    (Heap.init 2%positive heap_two_arrays)) !! 2%positive
     = Heap.arrays heap_two_arrays !! 2%positive.
Proof.
  assert (H2 : 2%positive ∈ dom (Heap.arrays heap_two_arrays)).
  { apply elem_of_dom. eexists. reflexivity. }
  split; [exact H2|].
  exact (proj1 (append_after_init_leaves_caller_array heap_two_arrays 2%positive
                  (mkLogRecord 40 [] []) H2)).
Defined.

(** ** [run]: what is uploaded against what is deleted *)

Lemma expireIndex_positive v rest policy :
  nonNegativePolicy policy ->
  (1 <= VersionLog.getFirstExpireVersionIndex (v :: rest) (versions policy)
          (policyDeadline v policy))%nat.
Proof.
  intros Hpolicy. unfold VersionLog.getFirstExpireVersionIndex. simpl.
  rewrite (expireTest_index_0 policy v Hpolicy).
  destruct (expireLoop_first (versions policy) (policyDeadline v policy) rest 1)
    as ((Hlo & _) & _). exact Hlo.
Qed.

Lemma entriesIn_filename `{PathModule} b remoteFiles outputPath localFiles g :
  In g (entriesIn b remoteFiles outputPath localFiles) ->
  utils.filePath2Uri (filename g) = filename g.
Proof.
  unfold entriesIn. intros Hg.
  apply list_elem_of_In, list_elem_of_fmap in Hg as (file & -> & _).
  unfold logItem, QiniuCDNPlugin.fileUriOf. simpl.
  by destruct (filePath2Uri_no_backslash_aux
                 (path_relative outputPath (filePath file))) as (_ & _ & -> & _).
Qed.

(** X20: in a run with a policy whose bounds are not negative, the keys
    [cleanCDN] deletes and the keys [uploadAssets] uploads, which [run]
    handles at the same time, are never the same, and no file the diff
    left on the store as unchanged is deleted either. *)
Theorem run_deletes_nothing_it_deploys `{PathModule}
    (outputPath : string) (exclude : ExcludeOption)
    (filePaths : list string) (localFiles : list LocalFile)
    (remoteFiles : list LogDetail) (fileSource : gmap string Buffer)
    (record : list LogRecord) (now : Z) (policy : ExpireOption) (prefix : string)
    (Hpolicy : nonNegativePolicy policy) :
  let status :=
    (QiniuCDNPlugin.initUploadStatus outputPath exclude filePaths localFiles
       (QiniuCDNPlugin.statusWithRemote remoteFiles, fileSource)).1 in
  let log := VersionLog.append record (Handler.newVersion now status) in
  exists clean,
    QiniuCDNPlugin.initCleanStatus log policy (us_clean status) = Ok clean
    /\ let status' :=
         mkUploadStatus (us_remote status) (us_exclude status)
           (us_overwrite status) (us_omit status) (us_upload status) clean in
       (forall f g,
          In f (Run.cleanCDNFilenames status') ->
          In g (Run.uploadAssetsFiles status') ->
          Listing.deleteKey prefix f <> Listing.uploadKey prefix (filename g))
       /\ (forall f g,
             In f (Run.cleanCDNFilenames status') -> In g (us_omit status') ->
             f <> filename g).
Proof.
  intros status log.
  destruct (initUploadStatus_buckets outputPath exclude filePaths localFiles
              remoteFiles fileSource) as (_ & Hcl & _ & Hom & Hup & Hov).
  fold status in Hcl, Hom, Hup, Hov.
  set (v := Handler.newVersion now status).
  pose proof (initCleanStatus_run log policy (us_clean status)) as Hrun.
  change (VersionLog.getLastVersion log) with (Some v) in Hrun.
  cbv iota beta in Hrun. rewrite Hcl, app_nil_l in Hrun.
  rewrite Hcl. eexists. split; [exact Hrun|].
  assert (Hfresh : forall c g, In c (cleanSet log v policy) ->
            In g (upload v ++ omit v) -> filename g <> filename c).
  { intros c g Hc Hg.
    apply (cleanSet_not_recorded_before log v policy c Hc 0%nat v g);
      [done | | done].
    exact (expireIndex_positive v record policy Hpolicy). }
  unfold Run.cleanCDNFilenames, Run.uploadAssetsFiles. simpl. split.
  - intros f g Hf Hg Hkey.
    apply in_map_iff in Hf as (c & <- & Hc).
    assert (Huri : utils.filePath2Uri (filename g) = filename g).
    { apply in_app_or in Hg as [Hg|Hg].
      - rewrite Hov in Hg. by eapply entriesIn_filename.
      - rewrite Hup in Hg. by eapply entriesIn_filename. }
    unfold Listing.deleteKey, Listing.uploadKey in Hkey. rewrite Huri in Hkey.
    apply str_append_inj in Hkey.
    apply (Hfresh c g Hc); [|done].
    apply in_or_app. left. unfold v, Handler.newVersion. simpl.
    apply in_app_or in Hg as [Hg|Hg]; apply in_or_app; [by right | by left].
  - intros f g Hf Hg Heq.
    apply in_map_iff in Hf as (c & <- & Hc).
    apply (Hfresh c g Hc); [|done].
    apply in_or_app. right. done.
Qed.

Lemma run_deletes_nothing_it_deploys_witness :
  nonNegativePolicy keepOne
  /\ exists clean,
       QiniuCDNPlugin.initCleanStatus
         (VersionLog.append (drop 1 log_three)
            (Handler.newVersion 30
               (@QiniuCDNPlugin.initUploadStatus plainPath "dist" excludeNothing
                  ["a.js"; "c.js"] local_a_c
                  (QiniuCDNPlugin.statusWithRemote remote_a_b, ∅)).1))
         keepOne [] = Ok clean.
Proof.
  assert (Hp : nonNegativePolicy keepOne).
  { split; intros x Hx; simpl in Hx; [discriminate|]. injection Hx as <-. lia. }
  split; [exact Hp|].
  destruct (@run_deletes_nothing_it_deploys plainPath "dist" excludeNothing
              ["a.js"; "c.js"] local_a_c remote_a_b ∅ (drop 1 log_three) 30
              keepOne "access/" Hp) as (clean & Hclean & _).
  exists clean. exact Hclean.
Defined.

(** The run of the example: [old.js], of the version that expires, is
    cleaned; [a.js], omitted now, and [c.js], uploaded now, are not. *)
Example run_example_clean :
  QiniuCDNPlugin.initCleanStatus
    (VersionLog.append (drop 1 log_three)
       (Handler.newVersion 30
          (@QiniuCDNPlugin.initUploadStatus plainPath "dist" excludeNothing
             ["a.js"; "c.js"] local_a_c
             (QiniuCDNPlugin.statusWithRemote remote_a_b, ∅)).1))
    keepOne []
  = Ok [mkLogDetail "old.js" "h0"].
Proof. reflexivity. Qed.


(** ** QiniuHelper.js: [cdnRefresh] and [cdnPrefetch] *)

(** X21: at every moment of a [cdnRefresh] or [cdnPrefetch], the
    batches given to the SDK so far and the batches still queued are,
    put together in this order, the urls; at most one batch is with the
    SDK at a time, and every batch has between 1 and 100 urls. With no
    url at all the callback is called at once and the SDK is not. *)
Theorem cdn_batches_in_order_one_at_a_time
    (urls : list string) (st : QueueState (list string))
    (Hrun : queueRun (Cdn.urlQueue urls) 1 st) :
  concat (aq_started st) ++ concat (aq_queue st) = urls
  /\ (length (aq_inflight st) <= 1)%nat
  /\ (forall batch, In batch (aq_started st) -> (0 < length batch <= 100)%nat)
  /\ (urls = [] -> aq_callbacks st = [None] /\ aq_started st = []).
Proof.
  destruct (queueRun_inv _ _ _ Hrun)
    as (Hl & Hlim & Hi & Hbound & _ & Hzero & _).
  pose proof (errorCount_nonneg (aq_callbacks st)) as Herr.
  destruct (splitLoop_chunks 100 Cdn.batch_pos (length urls) urls []
              (Nat.le_refl _)) as (chunks & Heq & (Hcat & Hpiece) & _).
  rewrite app_nil_l in Heq.
  assert (Hq : Cdn.urlQueue urls = chunks) by exact Heq.
  rewrite Hq in Hl.
  split; [by rewrite <- concat_app, Hl|].
  split; [lia|]. split.
  - intros batch Hin.
    assert (Hin' : batch ∈ chunks).
    { rewrite <- Hl. apply list_elem_of_In, in_or_app. by left. }
    apply list_elem_of_lookup in Hin' as [i Hi'].
    by destruct (Hpiece i batch Hi') as (Hlen & _).
  - intros ->. simpl in Hcat.
    assert (Hnil : chunks = []).
    { destruct chunks as [|c chunks']; [done|].
      destruct (Hpiece 0%nat c eq_refl) as (Hlen & _).
      simpl in Hcat. apply app_eq_nil in Hcat as [-> _]. simpl in Hlen. lia. }
    rewrite Hnil in Hl, Hq. apply app_eq_nil in Hl as [Hs _].
    split; [|done]. apply Hzero. rewrite Hlim, Hq. reflexivity.
Qed.

Lemma cdn_batches_in_order_one_at_a_time_witness :
  queueRun (Cdn.urlQueue ["http://cdn.test/a.js"]) 1
    (Cdn.cdnRefresh ["http://cdn.test/a.js"])
  /\ concat (aq_started (Cdn.cdnRefresh ["http://cdn.test/a.js"]))
     ++ concat (aq_queue (Cdn.cdnRefresh ["http://cdn.test/a.js"]))
     = ["http://cdn.test/a.js"].
Proof.
  assert (Hrun : queueRun (Cdn.urlQueue ["http://cdn.test/a.js"]) 1
                   (Cdn.cdnRefresh ["http://cdn.test/a.js"])) by apply run_start.
  split; [exact Hrun|].
  destruct (cdn_batches_in_order_one_at_a_time ["http://cdn.test/a.js"] _ Hrun)
    as (Hcat & _).
  exact Hcat.
Defined.
